(** * Tonearm geometry calculator (cli/calculator.js)

    A shallow embedding of [calculateGeometry], [parseArgs] and [main], and
    the properties of the specification proved (or refuted) on it.

    JavaScript numbers are IEEE-754 binary64 values.  They are modelled by
    [spec_float], the executable specification of binary floating-point
    arithmetic of the standard library, at precision 53 and maximal
    exponent 1024: every operation below rounds to nearest, ties to even,
    overflows to an infinity and underflows gradually, as the source does. *)

From Stdlib Require Import ZArith Bool List String Ascii Lia.
From Stdlib Require Import SpecFloat.
Import ListNotations.

Local Open Scope Z_scope.

(** ** JavaScript numbers *)

Module F64.

Definition prec : Z := 53.
Definition emax : Z := 1024.

Definition float : Type := spec_float.

Definition NaN : float := S754_nan.
Definition zero : float := S754_zero false.
Definition infinity : float := S754_infinity false.

Definition add : float -> float -> float := SFadd prec emax.
Definition sub : float -> float -> float := SFsub prec emax.
Definition mul : float -> float -> float := SFmul prec emax.
Definition div : float -> float -> float := SFdiv prec emax.
Definition sqrt : float -> float := SFsqrt prec emax.

(** The relational operators of the language: every comparison with a
    NaN is false. *)
Definition lt (x y : float) : bool := SFltb x y.
Definition le (x y : float) : bool := SFleb x y.
Definition gt (x y : float) : bool := SFltb y x.
Definition ge (x y : float) : bool := SFleb y x.
Definition eq (x y : float) : bool := SFeqb x y.

(** [Number.isFinite]. *)
Definition isFinite (x : float) : bool :=
  match x with
  | S754_zero _ | S754_finite _ _ _ => true
  | S754_infinity _ | S754_nan => false
  end.

(** The values a JavaScript number can take: a finite number carries a
    mantissa and an exponent in canonical form. *)
Definition valid (x : float) : bool := valid_binary prec emax x.

(** [dyadic m e] is the number [m * 2^e], rounded if it does not fit. *)
Definition dyadic (m e : Z) : float := binary_normalize prec emax m e false.
Definition of_Z (n : Z) : float := dyadic n 0.

(** The number a decimal literal [n/d] denotes: the double nearest to the
    quotient, which the correctly rounded division of two integers below
    2^53 computes. *)
Definition decimal (n d : Z) : float := div (of_Z n) (of_Z d).

(** Where the infinities sit on the scale of [val]: 2^1024 in units of
    2^-1074. *)
Definition huge : Z := 2 ^ 2098.

(** The value of a number in units of 2^-1074, the smallest positive
    number: every finite number is a whole multiple of it.  An infinity is
    given the first power of two no finite number reaches. *)
Definition val (x : float) : Z :=
  match x with
  | S754_zero _ => 0
  | S754_nan => 0
  | S754_infinity s => if s then - huge else huge
  | S754_finite s m e => if s then - (Z.pos m * 2 ^ (e + 1074)) else Z.pos m * 2 ^ (e + 1074)
  end.

Definition is_nan (x : float) : bool :=
  match x with S754_nan => true | _ => false end.

(** [near x c d]: [x] is finite and within half a unit of the [d]-th
    decimal place of the decimal [c / 10^d], which is what printing [x]
    with [d] fraction digits shows. *)
Definition near (x : float) (c : Z) (d : Z) : bool :=
  isFinite x
  && ((2 * c - 1) * 2 ^ 1074 <=? 2 * 10 ^ d * val x)
  && (2 * 10 ^ d * val x <=? (2 * c + 1) * 2 ^ 1074).

End F64.

Import F64.

Declare Scope js_scope.
Delimit Scope js_scope with js.
Bind Scope js_scope with float.
Infix "+" := add : js_scope.
Infix "-" := sub : js_scope.
Infix "*" := mul : js_scope.
Infix "/" := div : js_scope.
Infix "<" := lt : js_scope.
Infix "<=" := le : js_scope.
Infix ">" := gt : js_scope.
Infix ">=" := ge : js_scope.

(** Number literals of the source. *)
Definition n_0_5 : float := Eval vm_compute in decimal 5 10.
Definition n_1 : float := Eval vm_compute in of_Z 1.
Definition n_90 : float := Eval vm_compute in of_Z 90.
Definition n_180 : float := Eval vm_compute in of_Z 180.
Definition n_60 : float := Eval vm_compute in of_Z 60.
Definition n_66 : float := Eval vm_compute in of_Z 66.
Definition n_116 : float := Eval vm_compute in of_Z 116.
Definition n_117 : float := Eval vm_compute in of_Z 117.
Definition n_120 : float := Eval vm_compute in of_Z 120.
Definition n_70_3 : float := Eval vm_compute in decimal 703 10.
Definition n_116_6 : float := Eval vm_compute in decimal 1166 10.
Definition n_120_9 : float := Eval vm_compute in decimal 1209 10.

(** [Math.PI], the double 0x400921FB54442D18, and its half, the double
    nearest to pi/2. *)
Definition Math_PI : float := S754_finite false 7074237752028440 (-51).
Definition half_PI : float := S754_finite false 7074237752028440 (-52).

(** ** The calculator *)

Local Open Scope string_scope.

(** const SCHEMES: an object literal; its entries are enumerated in the
  order they are written. *)
Definition SCHEMES : list (string * (float * float)) :=
  [ ("Löfgren A / Baerwald", (n_66, n_120_9));
    ("Löfgren B", (n_70_3, n_116_6));
    ("Stevenson", (n_60, n_117));
    ("Rega (factory)", (n_60, n_120));
    ("Technics (JIS-based)", (n_60, n_116)) ].

(** The object [calculateGeometry] returns. *)
Record Geometry : Type := mkGeometry {
  pivotToSpindle : float;
  innerNull : float;
  outerNull : float;
  effectiveLength : float;
  offsetAngleDeg : float;
  overhang : float;
  linearOffset : float
}.

(** A thrown [Error] is its message. *)
Definition Error : Type := string.

Section Calculator.

(** [Math.asin] is a built-in whose results the language leaves to the
    implementation; the program is modelled over any such function. *)
Variable Math_asin : float -> float.

Definition calculateGeometry (pivotToSpindle innerNull outerNull : float)
  : Error + Geometry :=
  if negb (pivotToSpindle > zero)%js then
    inl "Pivot-to-spindle distance must be positive."
  else if negb ((innerNull > zero)%js && (outerNull > zero)%js) then
    inl "Null points must be positive."
  else if (innerNull >= outerNull)%js then
    inl "Inner null must be smaller than outer null."
  else
    let rProduct := (innerNull * outerNull)%js in
    let effectiveLength :=
      sqrt (pivotToSpindle * pivotToSpindle + rProduct)%js in
    let linearOffset := (n_0_5 * (innerNull + outerNull))%js in
    if (linearOffset > effectiveLength)%js then
      inl "Geometry impossible: linear offset exceeds effective length."
    else
      let offsetAngleDeg :=
        (Math_asin (linearOffset / effectiveLength) * n_180 / Math_PI)%js in
      let overhang := (effectiveLength - pivotToSpindle)%js in
      inr (mkGeometry pivotToSpindle innerNull outerNull
             effectiveLength offsetAngleDeg overhang linearOffset).

End Calculator.

(** ** The command line *)

(** The object [parseArgs] fills in; [null] is [None]. *)
Record Args : Type := mkArgs {
  args_pivotToSpindle : option float;
  args_scheme : option string;
  args_nulls : option (float * float);
  args_listSchemes : bool
}.

(** What the process does, in order.  [Invoke] records a call of
  [calculateGeometry] with its arguments; it has no effect of its own. *)
Inductive event : Type :=
| Stdout (line : string)
| Stderr (line : string)
| Invoke (pivotToSpindle innerNull outerNull : float)
| Exit (code : Z).

Definition newline : string := String (ascii_of_nat 10) EmptyString.

(** [lines.join("\n")] *)
Fixpoint join_lines (lines : list string) : string :=
  match lines with
  | [] => EmptyString
  | [l] => l
  | l :: ls => l ++ newline ++ join_lines ls
  end.

(** [Object.prototype.hasOwnProperty.call(SCHEMES, name)] and
  [SCHEMES[name]] in one lookup. *)
Fixpoint lookup_scheme (name : string) (table : list (string * (float * float)))
  : option (float * float) :=
  match table with
  | [] => None
  | (k, v) :: table' => if String.eqb k name then Some v else lookup_scheme name table'
  end.

Section CommandLine.

Variable Math_asin : float -> float.

(** Built-ins of the language the command line relies on: [parseFloat]
    on a string, the conversion of a number to a string in a template
    literal, and [Number.prototype.toFixed]. *)
Variable parseFloat : string -> float.
Variable Number_toString : float -> string.
Variable toFixed : float -> nat -> string.

(** [parseFloat(rest.shift())]: shifting an empty array gives
    [undefined], which [parseFloat] converts to the string "undefined". *)
Definition parseFloat_shifted (x : option string) : float :=
  match x with
  | Some s => parseFloat s
  | None => parseFloat "undefined"
  end.

(** [args.scheme || args.nulls]: a string is truthy unless it is empty,
    an array always is. *)
Definition scheme_or_nulls (args : Args) : bool :=
  match args_scheme args with
  | Some s => negb (String.eqb s EmptyString)
  | None => false
  end
  || match args_nulls args with Some _ => true | None => false end.

Definition formatGeometry (values : Geometry) : string :=
  let fmt := fun (n : float) (digits : nat) => toFixed n digits in
  join_lines
    [ "Pivot-to-spindle:  " ++ fmt (pivotToSpindle values) 2%nat ++ " mm";
      "Null points:       " ++ fmt (innerNull values) 2%nat ++ " mm / "
         ++ fmt (outerNull values) 2%nat ++ " mm";
      "Effective length:  " ++ fmt (effectiveLength values) 2%nat ++ " mm";
      "Offset angle:      " ++ fmt (offsetAngleDeg values) 3%nat ++ " deg";
      "Overhang:          " ++ fmt (overhang values) 3%nat ++ " mm";
      "Linear offset:     " ++ fmt (linearOffset values) 3%nat ++ " mm" ].

(** One turn of the [while] loop of [parseArgs]: [token] has been shifted
    off and [rest] is what remains.  The turn either throws or goes on to
    the next turn with the updated [args] and the remaining tokens. *)
Section LoopBody.

Context {R : Type}.
Variable throw : Error -> R.
Variable continue : Args -> list string -> R.

Definition loop_body (args : Args) (token : string) (rest : list string) : R :=
  if String.eqb token "--scheme" then
    if scheme_or_nulls args then throw "Choose only one of --scheme or --nulls."
    else
      match rest with
      | [] => throw "--scheme requires a value."
      | name :: rest1 =>
          if String.eqb name EmptyString then throw "--scheme requires a value."
          else
            continue (mkArgs (args_pivotToSpindle args) (Some name)
                        (args_nulls args) (args_listSchemes args)) rest1
      end
  else if String.eqb token "--nulls" then
    if scheme_or_nulls args then throw "Choose only one of --scheme or --nulls."
    else
      let finish (inner outer : float) (rest2 : list string) :=
        if negb (isFinite inner) || negb (isFinite outer) then
          throw "--nulls requires two numeric values."
        else
          continue (mkArgs (args_pivotToSpindle args) (args_scheme args)
                      (Some (inner, outer)) (args_listSchemes args)) rest2 in
      match rest with
      | [] => finish (parseFloat_shifted None) (parseFloat_shifted None) rest
      | a :: rest1 =>
          match rest1 with
          | [] => finish (parseFloat_shifted (Some a)) (parseFloat_shifted None) rest1
          | b :: rest2 =>
              finish (parseFloat_shifted (Some a)) (parseFloat_shifted (Some b)) rest2
          end
      end
  else if String.eqb token "--list-schemes" then
    continue (mkArgs (args_pivotToSpindle args) (args_scheme args)
                (args_nulls args) true) rest
  else
    if String.prefix "--" token then throw ("Unknown flag: " ++ token)
    else
      match args_pivotToSpindle args with
      | Some _ => throw "Pivot-to-spindle distance already provided."
      | None =>
          let len := parseFloat token in
          if negb (isFinite len) then
            throw "Pivot-to-spindle distance must be numeric."
          else
            continue (mkArgs (Some len) (args_scheme args)
                        (args_nulls args) (args_listSchemes args)) rest
      end.

End LoopBody.

(** The loop: it stops when [rest] is empty. *)
Fixpoint parse_loop (args : Args) (rest : list string) {struct rest} : Error + Args :=
  match rest with
  | [] => inr args
  | token :: rest1 => loop_body inl parse_loop args token rest1
  end.

Definition parseArgs (argv : list string) : Error + Args :=
  parse_loop (mkArgs None None None false) argv.

(** A single turn, for reasoning about where the loop stands. *)
Definition loop_turn (args : Args) (token : string) (rest : list string)
  : Error + Args * list string :=
  loop_body inl (fun args' rest' => inr (args', rest')) args token rest.

(** [reads args rest token]: the loop, entered with [args] and [rest],
    shifts [token] off as the token of some turn (line 58). *)
Inductive reads : Args -> list string -> string -> Prop :=
| reads_now args token rest : reads args (token :: rest) token
| reads_later args token rest args' rest' t :
    loop_turn args token rest = inr (args', rest') ->
    reads args' rest' t ->
    reads args (token :: rest) t.

Definition scheme_line (entry : string * (float * float)) : string :=
  let '(name, (inner, outer)) := entry in
  name ++ ": " ++ Number_toString inner ++ " mm / " ++ Number_toString outer ++ " mm".

(** [main], on the arguments after the script name.  Returning from
    [main] ends the process with exit code 0. *)
Definition main (argv : list string) : list event :=
  match parseArgs argv with
  | inl message => [ Stderr ("error: " ++ message); Exit 1 ]
  | inr args =>
      if args_listSchemes args then
        map (fun entry => Stdout (scheme_line entry)) SCHEMES ++ [ Exit 0 ]
      else
        match args_pivotToSpindle args with
        | None =>
            [ Stderr "error: pivot-to-spindle distance is required unless --list-schemes is used";
              Exit 1 ]
        | Some pivot =>
            let compute (nulls : float * float) :=
              let '(inner, outer) := nulls in
              Invoke pivot inner outer ::
              match calculateGeometry Math_asin pivot inner outer with
              | inr geometry => [ Stdout (formatGeometry geometry); Exit 0 ]
              | inl message => [ Stderr ("error: " ++ message); Exit 1 ]
              end in
            match args_nulls args with
            | Some nulls => compute nulls
            | None =>
                match args_scheme args with
                | Some name =>
                    if String.eqb name EmptyString then
                      [ Stderr "error: choose --scheme or provide --nulls"; Exit 1 ]
                    else
                      match lookup_scheme name SCHEMES with
                      | None => [ Stderr ("error: unknown scheme '" ++ name ++ "'"); Exit 1 ]
                      | Some nulls => compute nulls
                      end
                | None => [ Stderr "error: choose --scheme or provide --nulls"; Exit 1 ]
                end
            end
        end
  end.

End CommandLine.

Local Open Scope Z_scope.

(** ** Notions the properties are stated with *)

(** The quantities of the algorithm, as the source computes them. *)
Definition effectiveLength_of (p i o : float) : float := sqrt (p * p + i * o)%js.
Definition linearOffset_of (i o : float) : float := (n_0_5 * (i + o))%js.

(** Radians to degrees, as the source writes it. *)
Definition to_degrees (x : float) : float := (x * n_180 / Math_PI)%js.

(** The messages of the four errors [calculateGeometry] throws. *)
Definition InvalidGeometry (message : Error) : Prop :=
  In message
    [ "Pivot-to-spindle distance must be positive.";
      "Null points must be positive.";
      "Inner null must be smaller than outer null.";
      "Geometry impossible: linear offset exceeds effective length." ].

(** The usage error of [parseArgs] for two null-point options. *)
Definition choose_only_one : Error := "Choose only one of --scheme or --nulls.".

(** The tokens of a command line that stand in option position, by its
    layout: [--scheme] is followed by one value and [--nulls] by two. *)
Fixpoint option_tokens (argv : list string) : list string :=
  match argv with
  | [] => []
  | token :: rest =>
      token ::
      if String.eqb token "--scheme" then
        match rest with [] => [] | _ :: rest1 => option_tokens rest1 end
      else if String.eqb token "--nulls" then
        match rest with
        | [] => []
        | _ :: rest1 =>
            match rest1 with [] => [] | _ :: rest2 => option_tokens rest2 end
        end
      else option_tokens rest
  end.

(** Scenario 1 of the specification: 212 mm with the null points of
    Löfgren A / Baerwald; the quotient linearOffset / effectiveLength it
    passes to [Math.asin] is 0.40621451447349094. *)
Definition n_212 : float := Eval vm_compute in of_Z 212.
Definition scenario_quotient : float := S754_finite false 7317710144061203 (-54).

(** Inputs on which the squares underflow: 9 * 2^-540, 2^-600 and 2^-599. *)
Definition tiny_pivot : float := Eval vm_compute in dyadic 9 (-540).
Definition tiny_inner : float := Eval vm_compute in dyadic 1 (-600).
Definition tiny_outer : float := Eval vm_compute in dyadic 1 (-599).

(** Finite inputs on which the sums overflow: 2^700, 2^1023 and 3 * 2^1022. *)
Definition huge_pivot : float := Eval vm_compute in dyadic 1 700.
Definition huge_inner : float := Eval vm_compute in dyadic 1 1023.
Definition huge_outer : float := Eval vm_compute in dyadic 3 1022.

(** An input on which the product of the null points is absorbed:
    10^9, 1 and 2. *)
Definition n_1e9 : float := Eval vm_compute in of_Z 1000000000.
Definition n_2 : float := Eval vm_compute in of_Z 2.
Definition n_3 : float := Eval vm_compute in of_Z 3.
Definition n_5 : float := Eval vm_compute in of_Z 5.

(** Stand-ins for the built-ins, for the examples. *)
Definition asin_identity (x : float) : float := x.
Definition asin_constant (x : float) : float := half_PI.
Definition asin_scenario (x : float) : float := Eval vm_compute in decimal 41831 100000.
Definition parseFloat_NaN (s : string) : float := NaN.
Definition toString_empty (x : float) : string := EmptyString.
Definition toFixed_empty (x : float) (digits : nat) : string := EmptyString.

(** The three flags [parseArgs] knows. *)
Definition known_flag (token : string) : bool :=
  String.eqb token "--scheme" || String.eqb token "--nulls"
  || String.eqb token "--list-schemes".

(** A token that does not start with two dashes: the positional argument. *)
Definition positional (token : string) : bool := negb (String.prefix "--" token).

(** Whether a field of [args] has been given (is not [null]). *)
Definition given {A : Type} (field : option A) : bool :=
  match field with Some _ => true | None => false end.

(** What [parseArgs] promises of the object it returns: the numbers it
    stored are finite, the scheme name is not empty, and a scheme and a
    pair of null points are never both there. *)
Definition well_formed (args : Args) : Prop :=
  (forall len, args_pivotToSpindle args = Some len -> isFinite len = true)
  /\ (forall name, args_scheme args = Some name -> name <> EmptyString)
  /\ (forall inner outer, args_nulls args = Some (inner, outer) ->
        isFinite inner = true /\ isFinite outer = true)
  /\ (args_scheme args = None \/ args_nulls args = None).

(** The number of line feeds in a string. *)
Fixpoint newlines (s : string) : nat :=
  match s with
  | EmptyString => 0%nat
  | String c s' => ((if Ascii.eqb c (ascii_of_nat 10) then 1 else 0) + newlines s')%nat
  end.

(** A [parseFloat] for the examples: every string reads as 212. *)
Definition parseFloat_212 (s : string) : float := n_212.

(** The command line cut into its options, by its layout: a flag with the
    values that follow it ([--scheme] takes one, [--nulls] two, fewer when
    the command line ends before), or a single token. *)
Fixpoint option_groups (argv : list string) : list (list string) :=
  match argv with
  | [] => []
  | token :: rest =>
      if String.eqb token "--scheme" then
        match rest with
        | [] => [ [ token ] ]
        | name :: rest1 => [ token; name ] :: option_groups rest1
        end
      else if String.eqb token "--nulls" then
        match rest with
        | [] => [ [ token ] ]
        | a :: rest1 =>
            match rest1 with
            | [] => [ [ token; a ] ]
            | b :: rest2 => [ token; a; b ] :: option_groups rest2
            end
        end
      else [ token ] :: option_groups rest
  end.

(** A [parseFloat] for the examples: 66 for the string 66, 120.9 for the
    string 120.9, and 212 for any other. *)
Definition parseFloat_example (s : string) : float :=
  if String.eqb s "66" then n_66 else if String.eqb s "120.9" then n_120_9 else n_212.

(** * Binary64 arithmetic

    The operations of [SpecFloat] shift a mantissa right while recording a
    round bit and a sticky bit, round the result to nearest even and
    renormalise.  The facts the calculator needs are proved on an arithmetic
    reading of that pipeline: a position on the scale [2^e] is a *code*
    [4 * m + k], where [m] is the integer part and [k] in [0..3] says where
    the number lies between [m] and [m + 1] (on [m], below the middle, on the
    middle, above it). *)

(** ** Definitions *)

(** The code of a location. *)
Definition loc_code (l : location) : Z :=
  match l with
  | loc_Exact => 0
  | loc_Inexact Lt => 1
  | loc_Inexact Eq => 2
  | loc_Inexact Gt => 3
  end.

(** The code a shift record stands for. *)
Definition code_of (mrs : shr_record) : Z :=
  4 * shr_m mrs + (if shr_r mrs then 2 else 0) + (if shr_s mrs then 1 else 0).

(** Moving a code to the scale [n] binary places coarser: the places lost
    leave a sticky bit. *)
Definition sticky_shift (c n : Z) : Z :=
  2 * (c / 2 ^ (n + 1)) + (if c mod 2 ^ (n + 1) =? 0 then 0 else 1).

(** Round to nearest, ties to even, on a code. *)
Definition rne (c : Z) : Z :=
  let m := c / 4 in
  let k := c mod 4 in
  if k <? 2 then m
  else if k =? 2 then (if Z.even m then m else m + 1)
  else m + 1.

(** The exponent of the format for a number of magnitude [e]. *)
Definition fexp64 (e : Z) : Z := Z.max (e - 53) (-1074).

(** The number with mantissa [m] and exponent [e], or an infinity when the
    exponent is too large. *)
Definition pack (s : bool) (m e : Z) : float :=
  match m with
  | 0 => S754_zero s
  | Z.pos p => if e <=? 971 then S754_finite s p e else S754_infinity s
  | Z.neg _ => S754_nan
  end.

(** [binary_round_aux], on codes. *)
Definition round_code (s : bool) (c e : Z) : float :=
  let n := Z.max 0 (fexp64 (Zdigits2 (c / 4) + e) - e) in
  let c1 := sticky_shift c n in
  let e1 := e + n in
  let m2 := rne c1 in
  let n2 := Z.max 0 (fexp64 (Zdigits2 m2 + e1) - e1) in
  pack s (sticky_shift (4 * m2) n2 / 4) (e1 + n2).

(** The exponent of the result of rounding the code [c] of scale [e]; the
    scale is fine enough when it is not above it. *)
Definition target (c e : Z) : Z := fexp64 (Zdigits2 (c / 4) + e).
Definition fine (c e : Z) : Prop := e <= target c e.

Definition rounded_mantissa (c e : Z) : Z := rne (sticky_shift c (target c e - e)).

(** The value of the rounded code, before overflow, in units of 2^-1074. *)
Definition rval (c e : Z) : Z := rounded_mantissa c e * 2 ^ (target c e + 1074).

(** Rounding the dyadic number [m * 2^e]: [binary_round]. *)
Definition align (m e : Z) : Z := Z.max 0 (e - fexp64 (Zdigits2 m + e)).

Definition round_dyadic (s : bool) (m e : Z) : float :=
  round_code s (4 * (m * 2 ^ align m e)) (e - align m e).

(** Numbers that are not negative: +0, +infinity and the positive finite
    numbers of the format. *)
Definition nonneg (x : float) : bool :=
  match x with
  | S754_zero s | S754_infinity s => negb s
  | S754_nan => false
  | S754_finite s m e => negb s && bounded prec emax m e
  end.

(** The scale and the code of a square root. *)
Definition sqrt_exponent (m e : Z) : Z :=
  Z.min (fexp64 ((Zdigits2 m + e + 1) / 2)) (e / 2).

Definition sqrt_code (m' : Z) : Z :=
  let q := Z.sqrt m' in
  let r := m' - q * q in
  4 * q + (if r =? 0 then 0 else if r <=? q then 1 else 3).

(** The scale and the code of a quotient [n / (2 * b)]. *)
Definition div_exponent (m1 e1 m2 e2 : Z) : Z :=
  Z.min (fexp64 (Zdigits2 m1 + e1 - (Zdigits2 m2 + e2))) (e1 - e2).

Definition sticky_div (n b : Z) : Z := 2 * (n / b) + (if n mod b =? 0 then 0 else 1).

(** ** Lemmas *)

(** Digits *)
Lemma digits2_pos_log2 (m : positive) :
  Z.pos (digits2_pos m) = Z.log2 (Z.pos m) + 1.
Proof.
  induction m as [m IH | m IH | ]; simpl digits2_pos.
  - rewrite Pos2Z.inj_succ, IH. 
    change (Z.pos m~1) with (Z.succ_double (Z.pos m)).
    rewrite Z.succ_double_spec, Z.log2_succ_double by lia. lia.
  - rewrite Pos2Z.inj_succ, IH.
    change (Z.pos m~0) with (Z.double (Z.pos m)).
    rewrite Z.double_spec, Z.log2_double by lia. lia.
  - reflexivity.
Qed.

Lemma Zdigits2_log2 (a : Z) : 0 < a -> Zdigits2 a = Z.log2 a + 1.
Proof. destruct a; try lia. intros _. apply digits2_pos_log2. Qed.

Lemma Zdigits2_0 : Zdigits2 0 = 0.
Proof. reflexivity. Qed.

Lemma Zdigits2_nonneg (a : Z) : 0 <= Zdigits2 a.
Proof. destruct a; simpl; lia. Qed.

Lemma Zdigits2_le (a b : Z) : 0 <= a -> a <= b -> Zdigits2 a <= Zdigits2 b.
Proof.
  intros Ha Hab. destruct (Z.eq_dec a 0) as [-> | Hnz].
  - apply Zdigits2_nonneg.
  - rewrite !Zdigits2_log2 by lia. pose proof (Z.log2_le_mono a b Hab). lia.
Qed.

Lemma Zdigits2_bounds (a : Z) :
  0 < a -> 2 ^ (Zdigits2 a - 1) <= a < 2 ^ Zdigits2 a.
Proof.
  intros Ha. rewrite Zdigits2_log2 by lia.
  replace (Z.log2 a + 1 - 1) with (Z.log2 a) by lia.
  replace (Z.log2 a + 1) with (Z.succ (Z.log2 a)) by lia.
  apply Z.log2_spec; lia.
Qed.

Lemma Zdigits2_unique (a d : Z) :
  0 < d -> 2 ^ (d - 1) <= a < 2 ^ d -> Zdigits2 a = d.
Proof.
  intros Hd H. assert (0 < a) by (pose proof (Z.pow_pos_nonneg 2 (d - 1)); lia).
  rewrite Zdigits2_log2 by lia.
  assert (Z.log2 a = d - 1); [ | lia ].
  apply Z.log2_unique; [ lia | ]. replace (Z.succ (d - 1)) with d by lia. exact H.
Qed.

Lemma Zdigits2_lt_pow (a k : Z) : 0 <= a -> 0 <= k -> a < 2 ^ k -> Zdigits2 a <= k.
Proof.
  intros Ha Hk H. destruct (Z.eq_dec a 0) as [-> | Hnz]; [ simpl; lia | ].
  rewrite Zdigits2_log2 by lia.
  assert (Z.log2 a < k) by (apply Z.log2_lt_pow2; lia). lia.
Qed.

Lemma Zdigits2_ge_pow (a k : Z) : 0 <= k -> 2 ^ k <= a -> k + 1 <= Zdigits2 a.
Proof.
  intros Hk H. assert (0 < a) by (pose proof (Z.pow_pos_nonneg 2 k); lia).
  rewrite Zdigits2_log2 by lia.
  assert (k <= Z.log2 a) by (apply Z.log2_le_pow2; lia). lia.
Qed.

Lemma Zdigits2_div_pow (a n : Z) :
  0 <= a -> 0 <= n -> Zdigits2 (a / 2 ^ n) = Z.max 0 (Zdigits2 a - n).
Proof.
  intros Ha Hn. destruct (Z.eq_dec a 0) as [-> | Hnz].
  - rewrite Z.div_0_l by (pose proof (Z.pow_pos_nonneg 2 n); lia). simpl. lia.
  - assert (Hpow : 0 < 2 ^ n) by (apply Z.pow_pos_nonneg; lia).
    destruct (Z_lt_le_dec a (2 ^ n)) as [Hlt | Hge].
    + rewrite Z.div_small by lia. simpl.
      pose proof (Zdigits2_lt_pow a n Ha Hn Hlt). lia.
    + assert (0 < a / 2 ^ n).
      { apply Z.div_str_pos; lia. }
      rewrite !Zdigits2_log2 by lia.
      rewrite <- Z.shiftr_div_pow2 by lia.
      rewrite Z.log2_shiftr by lia.
      assert (n <= Z.log2 a) by (apply Z.log2_le_pow2; lia). lia.
Qed.

Lemma pow2_pos (n : Z) : 0 <= n -> 0 < 2 ^ n.
Proof. intros; apply Z.pow_pos_nonneg; lia. Qed.

Lemma huge_pos : 0 < huge.
Proof. apply pow2_pos. discriminate. Qed.

Lemma pow2_succ (n : Z) : 0 <= n -> 2 ^ (n + 1) = 2 * 2 ^ n.
Proof. intros. rewrite Z.pow_add_r by lia. lia. Qed.

Lemma div_mod_4 (m k : Z) : 0 <= k < 4 -> (4 * m + k) / 4 = m /\ (4 * m + k) mod 4 = k.
Proof.
  intros Hk. split.
  - symmetry. apply (Z.div_unique (4 * m + k) 4 m k); lia.
  - symmetry. apply (Z.mod_unique (4 * m + k) 4 m k); lia.
Qed.

Lemma code_of_loc (m : Z) (l : location) :
  code_of (shr_record_of_loc m l) = 4 * m + loc_code l.
Proof. destruct l as [ | [ | | ]]; unfold code_of; simpl; lia. Qed.

Lemma code_of_div4 (mrs : shr_record) : code_of mrs / 4 = shr_m mrs.
Proof.
  unfold code_of. destruct mrs as [m r s]; cbn [shr_m shr_r shr_s].
  replace (4 * m + (if r then 2 else 0) + (if s then 1 else 0))
    with (4 * m + ((if r then 2 else 0) + (if s then 1 else 0))) by lia.
  apply div_mod_4. destruct r, s; lia.
Qed.

Lemma code_of_mod4 (mrs : shr_record) :
  code_of mrs mod 4 = (if shr_r mrs then 2 else 0) + (if shr_s mrs then 1 else 0).
Proof.
  unfold code_of. destruct mrs as [m r s]; cbn [shr_m shr_r shr_s].
  replace (4 * m + (if r then 2 else 0) + (if s then 1 else 0))
    with (4 * m + ((if r then 2 else 0) + (if s then 1 else 0))) by lia.
  apply div_mod_4. destruct r, s; lia.
Qed.

Lemma rne_code_of (mrs : shr_record) :
  round_nearest_even (shr_m mrs) (loc_of_shr_record mrs) = rne (code_of mrs).
Proof.
  unfold rne. rewrite code_of_div4, code_of_mod4.
  destruct mrs as [m r s]; cbn [shr_m shr_r shr_s].
  destruct r, s; reflexivity.
Qed.

Lemma sticky_shift_0 (c : Z) : sticky_shift c 0 = c.
Proof.
  unfold sticky_shift. change (2 ^ (0 + 1)) with 2.
  pose proof (Z.div_mod c 2 ltac:(lia)). pose proof (Z.mod_pos_bound c 2 ltac:(lia)).
  destruct (Z.eqb_spec (c mod 2) 0); lia.
Qed.

Lemma sticky_shift_add (c a b : Z) :
  0 <= a -> 0 <= b -> sticky_shift (sticky_shift c a) b = sticky_shift c (a + b).
Proof.
  intros Ha Hb. unfold sticky_shift.
  set (P := 2 ^ (a + 1)). set (B := 2 ^ b).
  assert (HP : 0 < P) by (apply pow2_pos; lia).
  assert (HB : 0 < B) by (apply pow2_pos; lia).
  replace (2 ^ (a + b + 1)) with (P * B)
    by (unfold P, B; rewrite <- Z.pow_add_r by lia; f_equal; lia).
  replace (2 ^ (b + 1)) with (2 * B) by (unfold B; rewrite pow2_succ by lia; lia).
  set (Q := c / P). set (R := c mod P).
  set (t := if R =? 0 then 0 else 1).
  assert (Ht : 0 <= t < 2) by (unfold t; destruct (R =? 0); lia).
  assert (HR : 0 <= R < P) by (apply Z.mod_pos_bound; lia).
  rewrite <- (Z.div_div c P B) by lia. fold Q.
  rewrite (Z.rem_mul_r c P B) by lia. fold Q R.
  assert (Hq : (2 * Q + t) / (2 * B) = Q / B).
  { rewrite <- (Z.div_div (2 * Q + t) 2 B) by lia.
    f_equal. symmetry. apply (Z.div_unique (2 * Q + t) 2 Q t); lia. }
  assert (Hm : (2 * Q + t) mod (2 * B) = 2 * (Q mod B) + t).
  { rewrite (Z.rem_mul_r (2 * Q + t) 2 B) by lia.
    assert (Hd2 : (2 * Q + t) / 2 = Q)
      by (symmetry; apply (Z.div_unique (2 * Q + t) 2 Q t); lia).
    assert (Hm2 : (2 * Q + t) mod 2 = t)
      by (symmetry; apply (Z.mod_unique (2 * Q + t) 2 Q t); lia).
    rewrite Hd2, Hm2. lia. }
  rewrite Hq, Hm.
  pose proof (Z.mod_pos_bound Q B HB).
  assert (0 <= P * (Q mod B)) by nia.
  unfold t.
  destruct (Z.eqb_spec R 0); destruct (Z.eqb_spec (2 * (Q mod B) + 0) 0);
    destruct (Z.eqb_spec (R + P * (Q mod B)) 0);
    try destruct (Z.eqb_spec (2 * (Q mod B) + 1) 0); try lia; try nia.
Qed.

Lemma sticky_shift_mono (c1 c2 n : Z) :
  0 <= n -> c1 <= c2 -> sticky_shift c1 n <= sticky_shift c2 n.
Proof.
  intros Hn Hc. unfold sticky_shift.
  set (P := 2 ^ (n + 1)). assert (HP : 0 < P) by (apply pow2_pos; lia).
  pose proof (Z.div_mod c1 P ltac:(lia)). pose proof (Z.div_mod c2 P ltac:(lia)).
  pose proof (Z.mod_pos_bound c1 P HP). pose proof (Z.mod_pos_bound c2 P HP).
  pose proof (Z.div_le_mono c1 c2 P HP Hc).
  destruct (Z.eqb_spec (c1 mod P) 0); destruct (Z.eqb_spec (c2 mod P) 0); try lia; nia.
Qed.

Lemma sticky_shift_nonneg (c n : Z) : 0 <= n -> 0 <= c -> 0 <= sticky_shift c n.
Proof.
  intros Hn Hc. unfold sticky_shift.
  assert (0 <= c / 2 ^ (n + 1)) by (apply Z.div_pos; [ lia | apply pow2_pos; lia ]).
  destruct (_ =? 0); lia.
Qed.

Lemma sticky_shift_div4 (c n : Z) : 0 <= n -> sticky_shift c n / 4 = c / 4 / 2 ^ n.
Proof.
  intros Hn. unfold sticky_shift.
  set (P := 2 ^ (n + 1)). assert (HP : 0 < P) by (apply pow2_pos; lia).
  set (t := if c mod P =? 0 then 0 else 1).
  assert (Ht : 0 <= t < 2) by (unfold t; destruct (_ =? 0); lia).
  assert (HN : 0 < 2 ^ n) by (apply pow2_pos; lia).
  rewrite (Z.div_div c 4 (2 ^ n)) by lia.
  replace (4 * 2 ^ n) with (P * 2) by (unfold P; rewrite pow2_succ by lia; lia).
  rewrite <- (Z.div_div c P 2) by lia.
  change 4 with (2 * 2). rewrite <- (Z.div_div _ 2 2) by lia.
  f_equal. symmetry. apply (Z.div_unique (2 * (c / P) + t) 2 (c / P) t); lia.
Qed.

Lemma sticky_shift_exact (x n : Z) : 0 <= n -> sticky_shift (4 * (x * 2 ^ n)) n = 4 * x.
Proof.
  intros Hn. unfold sticky_shift. rewrite pow2_succ by lia.
  assert (HN : 0 < 2 ^ n) by (apply pow2_pos; lia).
  replace (4 * (x * 2 ^ n)) with ((2 * x) * (2 * 2 ^ n)) by ring.
  rewrite Z.div_mul, Z.mod_mul by lia. change (0 =? 0) with true. cbv iota. lia.
Qed.

Lemma rne_mono (c1 c2 : Z) : c1 <= c2 -> rne c1 <= rne c2.
Proof.
  intros Hc. unfold rne.
  pose proof (Z.div_mod c1 4 ltac:(lia)). pose proof (Z.div_mod c2 4 ltac:(lia)).
  pose proof (Z.mod_pos_bound c1 4 ltac:(lia)). pose proof (Z.mod_pos_bound c2 4 ltac:(lia)).
  destruct (Z.ltb_spec (c1 mod 4) 2); destruct (Z.ltb_spec (c2 mod 4) 2);
    destruct (Z.eqb_spec (c1 mod 4) 2); destruct (Z.eqb_spec (c2 mod 4) 2);
    destruct (Z.even (c1 / 4)) eqn:E1; destruct (Z.even (c2 / 4)) eqn:E2; try lia.
  all: destruct (Z.eq_dec (c1 / 4) (c2 / 4)) as [Heq | Hne]; [ congruence | lia ].
Qed.

Lemma rne_bounds (c : Z) : c / 4 <= rne c <= c / 4 + 1.
Proof.
  unfold rne. destruct (_ <? 2); [ lia | ].
  destruct (_ =? 2); [ destruct (Z.even _); lia | lia ].
Qed.

Lemma rne_exact (x : Z) : rne (4 * x) = x.
Proof.
  unfold rne. replace (4 * x) with (4 * x + 0) by lia.
  destruct (div_mod_4 x 0 ltac:(lia)) as [-> ->]. reflexivity.
Qed.

Lemma shr_1_code (mrs : shr_record) :
  0 <= shr_m mrs ->
  code_of (shr_1 mrs) = sticky_shift (code_of mrs) 1 /\ 0 <= shr_m (shr_1 mrs).
Proof.
  intros Hm. unfold sticky_shift. change (2 ^ (1 + 1)) with 4.
  rewrite code_of_div4, code_of_mod4.
  destruct mrs as [m r s]; cbn [shr_m shr_r shr_s] in *.
  destruct m as [ | [p | p | ] | p]; try lia;
    unfold code_of; cbn [shr_1 shr_m shr_r shr_s];
    destruct r, s; cbn [orb]; split; try lia; reflexivity.
Qed.

Lemma iter_pos_nat {A : Type} (f : A -> A) (p : positive) (x : A) :
  iter_pos f p x = Nat.iter (Pos.to_nat p) f x.
Proof.
  revert x. induction p as [p IH | p IH | ]; intros x; cbn [iter_pos].
  - rewrite !IH, Pos2Nat.inj_xI, Nat.iter_succ.
    replace (2 * Pos.to_nat p)%nat with (Pos.to_nat p + Pos.to_nat p)%nat by lia.
    rewrite Nat.iter_add, <- Nat.iter_swap, <- Nat.iter_swap. reflexivity.
  - rewrite !IH, Pos2Nat.inj_xO.
    replace (2 * Pos.to_nat p)%nat with (Pos.to_nat p + Pos.to_nat p)%nat by lia.
    rewrite Nat.iter_add. reflexivity.
  - reflexivity.
Qed.

Lemma iter_shr_1_code (n : nat) (mrs : shr_record) :
  0 <= shr_m mrs ->
  code_of (Nat.iter n shr_1 mrs) = sticky_shift (code_of mrs) (Z.of_nat n)
  /\ 0 <= shr_m (Nat.iter n shr_1 mrs).
Proof.
  intros Hm. induction n as [ | n [IHc IHm]].
  - cbn [Nat.iter nat_rect]. rewrite sticky_shift_0. auto.
  - rewrite Nat.iter_succ.
    destruct (shr_1_code (Nat.iter n shr_1 mrs) IHm) as [Hc Hm'].
    split; [ | exact Hm' ].
    rewrite Hc, IHc, sticky_shift_add by lia. f_equal. lia.
Qed.

Lemma shr_code (mrs : shr_record) (e n : Z) :
  0 <= shr_m mrs ->
  code_of (fst (shr mrs e n)) = sticky_shift (code_of mrs) (Z.max 0 n)
  /\ snd (shr mrs e n) = e + Z.max 0 n
  /\ 0 <= shr_m (fst (shr mrs e n)).
Proof.
  intros Hm. unfold shr. destruct n as [ | p | p]; cbn [fst snd].
  - rewrite sticky_shift_0. repeat split; lia.
  - rewrite iter_pos_nat.
    destruct (iter_shr_1_code (Pos.to_nat p) mrs Hm) as [Hc Hm'].
    rewrite Hc, positive_nat_Z.
    replace (Z.max 0 (Z.pos p)) with (Z.pos p) by lia. repeat split; auto.
  - replace (Z.max 0 (Z.neg p)) with 0 by lia.
    rewrite sticky_shift_0. repeat split; lia.
Qed.

(** Rounding, on codes *)

Lemma fexp_fexp64 (e : Z) : fexp prec emax e = fexp64 e.
Proof. reflexivity. Qed.

Lemma binary_round_aux_code (s : bool) (m e : Z) (l : location) :
  0 <= m ->
  binary_round_aux prec emax s m e l = round_code s (4 * m + loc_code l) e.
Proof.
  intros Hm. unfold binary_round_aux, shr_fexp, round_code.
  change (fexp prec emax) with fexp64.
  assert (Hc4 : (4 * m + loc_code l) / 4 = m).
  { apply div_mod_4. destruct l as [ | [ | | ]]; simpl; lia. }
  rewrite Hc4.
  set (n := fexp64 (Zdigits2 m + e) - e).
  pose proof (shr_code (shr_record_of_loc m l) e n) as H1.
  rewrite code_of_loc in H1.
  assert (Hm0 : 0 <= shr_m (shr_record_of_loc m l)).
  { destruct l as [ | [ | | ]]; simpl; exact Hm. }
  specialize (H1 Hm0).
  destruct (shr (shr_record_of_loc m l) e n) as [mrs' e'].
  cbn [fst snd] in H1. destruct H1 as (Hc1 & He1 & Hm1).
  rewrite rne_code_of, Hc1. subst e'.
  set (m2 := rne (sticky_shift (4 * m + loc_code l) (Z.max 0 n))).
  set (e1 := e + Z.max 0 n).
  assert (Hm2 : 0 <= m2).
  { unfold m2. rewrite <- Hc1. pose proof (rne_bounds (code_of mrs')) as Hb.
    rewrite code_of_div4 in Hb. lia. }
  set (n2 := fexp64 (Zdigits2 m2 + e1) - e1).
  pose proof (shr_code (shr_record_of_loc m2 loc_Exact) e1 n2 Hm2) as H2.
  rewrite code_of_loc in H2. simpl loc_code in H2. rewrite Z.add_0_r in H2.
  destruct (shr (shr_record_of_loc m2 loc_Exact) e1 n2) as [mrs'' e''].
  cbn [fst snd] in H2. destruct H2 as (Hc2 & He2 & Hm3).
  rewrite <- Hc2, code_of_div4. subst e''.
  unfold pack. destruct (shr_m mrs''); reflexivity.
Qed.

Lemma target_ge (c e : Z) : -1074 <= target c e.
Proof. unfold target, fexp64. lia. Qed.

Lemma target_mono (c1 c2 e : Z) : 0 <= c1 <= c2 -> target c1 e <= target c2 e.
Proof.
  intros H. unfold target, fexp64.
  assert (Zdigits2 (c1 / 4) <= Zdigits2 (c2 / 4)).
  { apply Zdigits2_le; [ apply Z.div_pos; lia | apply Z.div_le_mono; lia ]. }
  lia.
Qed.

Lemma fine_mono (c1 c2 e : Z) : 0 <= c1 <= c2 -> fine c1 e -> fine c2 e.
Proof. unfold fine. intros H H1. pose proof (target_mono c1 c2 e H). lia. Qed.

(** The mantissa kept by the first shift has at most 53 digits, and exactly
    53 above the smallest exponent. *)
Lemma shifted_mantissa (c e : Z) :
  0 <= c -> fine c e ->
  let m1 := sticky_shift c (target c e - e) / 4 in
  0 <= m1 < 2 ^ 53 /\ (-1074 < target c e -> 2 ^ 52 <= m1).
Proof.
  intros Hc Hf m1. unfold fine in Hf.
  assert (Hm : 0 <= c / 4) by (apply Z.div_pos; lia).
  unfold m1. rewrite sticky_shift_div4 by lia.
  set (n := target c e - e) in *. assert (Hn : 0 <= n) by (unfold n; lia).
  pose proof (Zdigits2_div_pow (c / 4) n Hm Hn) as Hd.
  pose proof (Zdigits2_nonneg (c / 4)) as Hd0.
  assert (HN : 0 < 2 ^ n) by (apply pow2_pos; lia).
  assert (Hq : 0 <= c / 4 / 2 ^ n) by (apply Z.div_pos; lia).
  assert (Hle : Zdigits2 (c / 4 / 2 ^ n) <= 53).
  { rewrite Hd. unfold n, target, fexp64 in *. lia. }
  split.
  - split; [ exact Hq | ].
    destruct (Z.eq_dec (c / 4 / 2 ^ n) 0) as [-> | Hnz]; [ reflexivity | ].
    pose proof (Zdigits2_bounds (c / 4 / 2 ^ n) ltac:(lia)) as [_ Hub].
    eapply Z.lt_le_trans; [ exact Hub | ]. apply Z.pow_le_mono_r; lia.
  - intros Hnorm.
    assert (Hd53 : Zdigits2 (c / 4 / 2 ^ n) = 53).
    { rewrite Hd. unfold n, target, fexp64 in *. lia. }
    assert (Hpos : 0 < c / 4 / 2 ^ n).
    { destruct (Z.eq_dec (c / 4 / 2 ^ n) 0) as [Hz | Hnz]; [ | lia ].
      rewrite Hz in Hd53. discriminate. }
    pose proof (Zdigits2_bounds (c / 4 / 2 ^ n) Hpos) as [Hlb _].
    rewrite Hd53 in Hlb. exact Hlb.
Qed.

Lemma rounded_mantissa_bounds (c e : Z) :
  0 <= c -> fine c e ->
  0 <= rounded_mantissa c e <= 2 ^ 53
  /\ (-1074 < target c e -> 2 ^ 52 <= rounded_mantissa c e).
Proof.
  intros Hc Hf. destruct (shifted_mantissa c e Hc Hf) as [Hb Hn].
  unfold rounded_mantissa.
  pose proof (rne_bounds (sticky_shift c (target c e - e))). lia.
Qed.

Lemma round_code_fine (s : bool) (c e : Z) :
  0 <= c -> fine c e ->
  round_code s c e =
  if rounded_mantissa c e =? 2 ^ 53 then pack s (2 ^ 52) (target c e + 1)
  else pack s (rounded_mantissa c e) (target c e).
Proof.
  intros Hc Hf. destruct (rounded_mantissa_bounds c e Hc Hf) as [Hb Hn].
  unfold round_code. fold (target c e).
  unfold fine in Hf. pose proof (target_ge c e) as HE.
  replace (Z.max 0 (target c e - e)) with (target c e - e) by lia.
  fold (rounded_mantissa c e).
  replace (e + (target c e - e)) with (target c e) by lia.
  set (m2 := rounded_mantissa c e) in *. set (E := target c e) in *.
  destruct (Z.eqb_spec m2 (2 ^ 53)) as [Heq | Hne].
  - rewrite Heq. change (Zdigits2 (2 ^ 53)) with 54.
    replace (Z.max 0 (fexp64 (54 + E) - E)) with 1 by (unfold fexp64; lia).
    rewrite sticky_shift_div4 by lia.
    replace (4 * 2 ^ 53 / 4 / 2 ^ 1) with (2 ^ 52) by reflexivity.
    reflexivity.
  - assert (Hd : Zdigits2 m2 <= 53) by (apply Zdigits2_lt_pow; lia).
    pose proof (Zdigits2_nonneg m2).
    replace (Z.max 0 (fexp64 (Zdigits2 m2 + E) - E)) with 0 by (unfold fexp64; lia).
    rewrite sticky_shift_0, Z.add_0_r.
    replace (4 * m2 / 4) with m2; [ reflexivity | ].
    symmetry. rewrite Z.mul_comm. apply Z.div_mul. lia.
Qed.

(** Values *)

Lemma valid_finite_inv (s : bool) (m : positive) (e : Z) :
  valid (S754_finite s m e) = true ->
  -1074 <= e <= 971 /\ Z.pos m < 2 ^ 53 /\ (-1074 < e -> 2 ^ 52 <= Z.pos m)
  /\ fexp64 (Zdigits2 (Z.pos m) + e) = e.
Proof.
  unfold valid, valid_binary, bounded, canonical_mantissa.
  change (fexp prec emax) with fexp64. change (emax - prec) with 971.
  intros H. apply andb_prop in H. destruct H as [Hc Hb].
  apply Z.eqb_eq in Hc. apply Z.leb_le in Hb.
  change (Z.pos (digits2_pos m)) with (Zdigits2 (Z.pos m)) in Hc.
  pose proof (Zdigits2_bounds (Z.pos m) ltac:(lia)) as [Hlb Hub].
  assert (Hd : Zdigits2 (Z.pos m) <= 53) by (unfold fexp64 in Hc; lia).
  repeat split; try (unfold fexp64 in Hc; lia); auto.
  - eapply Z.lt_le_trans; [ exact Hub | apply Z.pow_le_mono_r; lia ].
  - intros Hn. assert (Zdigits2 (Z.pos m) = 53) by (unfold fexp64 in Hc; lia).
    replace 52 with (Zdigits2 (Z.pos m) - 1) by lia. exact Hlb.
Qed.

Lemma pow2_le (a b : Z) : 0 <= a <= b -> 2 ^ a <= 2 ^ b.
Proof. intros. apply Z.pow_le_mono_r; lia. Qed.

Lemma pow2_split (a b : Z) : 0 <= a -> 0 <= b -> 2 ^ (a + b) = 2 ^ a * 2 ^ b.
Proof. intros. apply Z.pow_add_r; lia. Qed.

Lemma val_finite_bound (m e : Z) :
  0 <= m < 2 ^ 53 -> -1074 <= e <= 971 -> m * 2 ^ (e + 1074) < huge.
Proof.
  intros Hm He.
  assert (2 ^ (e + 1074) <= 2 ^ 2045) by (apply pow2_le; lia).
  assert (0 < 2 ^ (e + 1074)) by (apply pow2_pos; lia).
  replace huge with (2 ^ 53 * 2 ^ 2045) by (rewrite <- pow2_split by lia; reflexivity).
  set (B := 2 ^ 2045) in *. nia.
Qed.

Lemma val_bound (x : float) :
  valid x = true -> - huge <= val x <= huge.
Proof.
  intros Hv. assert (0 < huge) by exact huge_pos.
  destruct x as [s | s | | s m e]; cbn [val]; try destruct s; try lia.
  - destruct (valid_finite_inv _ _ _ Hv) as (He & Hm & _).
    pose proof (val_finite_bound (Z.pos m) e ltac:(lia) He).
    assert (0 < 2 ^ (e + 1074)) by (apply pow2_pos; lia). nia.
  - destruct (valid_finite_inv _ _ _ Hv) as (He & Hm & _).
    pose proof (val_finite_bound (Z.pos m) e ltac:(lia) He).
    assert (0 < 2 ^ (e + 1074)) by (apply pow2_pos; lia). nia.
Qed.

Lemma pack_canonical (s : bool) (m e : Z) :
  0 <= m < 2 ^ 53 -> -1074 <= e -> (-1074 < e -> 2 ^ 52 <= m) ->
  valid (pack s m e) = true
  /\ is_nan (pack s m e) = false
  /\ val (pack s m e) = (if s then -1 else 1) * Z.min (m * 2 ^ (e + 1074)) huge.
Proof.
  intros Hm He Hn.
  assert (Hpow : 0 < 2 ^ (e + 1074)) by (apply pow2_pos; lia).
  assert (Hhuge : 0 < huge) by exact huge_pos.
  unfold pack. destruct m as [ | p | p]; try lia.
  - repeat split; try reflexivity. cbn [val]. destruct s; lia.
  - destruct (Z.leb_spec e 971) as [Hle | Hgt].
    + pose proof (val_finite_bound (Z.pos p) e ltac:(lia) ltac:(lia)).
      repeat split; try reflexivity.
      * unfold valid, valid_binary, bounded, canonical_mantissa.
        change (fexp prec emax) with fexp64. change (emax - prec) with 971.
        apply andb_true_intro. split; [ | apply Z.leb_le; lia ].
        apply Z.eqb_eq.
        change (Z.pos (digits2_pos p)) with (Zdigits2 (Z.pos p)).
        assert (Hd : Zdigits2 (Z.pos p) <= 53) by (apply Zdigits2_lt_pow; lia).
        destruct (Z.eq_dec e (-1074)) as [-> | Hne]; [ unfold fexp64; lia | ].
        assert (53 <= Zdigits2 (Z.pos p)).
        { apply (Zdigits2_ge_pow (Z.pos p) 52); [ lia | apply Hn; lia ]. }
        unfold fexp64; lia.
      * cbn [val]. destruct s; lia.
    + repeat split; try reflexivity. cbn [val].
      assert (huge <= Z.pos p * 2 ^ (e + 1074)).
      { assert (2 ^ 2046 <= 2 ^ (e + 1074)) by (apply pow2_le; lia).
        assert (2 ^ 52 <= Z.pos p) by (apply Hn; lia).
        replace huge with (2 ^ 52 * 2 ^ 2046)
          by (rewrite <- pow2_split by lia; reflexivity).
        assert (0 < 2 ^ 2046) by (apply pow2_pos; lia).
        set (B := 2 ^ 2046) in *. nia. }
      destruct s; lia.
Qed.

Lemma round_code_spec (s : bool) (c e : Z) :
  0 <= c -> fine c e ->
  valid (round_code s c e) = true
  /\ is_nan (round_code s c e) = false
  /\ val (round_code s c e) = (if s then -1 else 1) * Z.min (rval c e) huge.
Proof.
  intros Hc Hf. rewrite (round_code_fine s c e Hc Hf).
  destruct (rounded_mantissa_bounds c e Hc Hf) as [Hb Hn].
  pose proof (target_ge c e) as HE. unfold rval.
  destruct (Z.eqb_spec (rounded_mantissa c e) (2 ^ 53)) as [Heq | Hne].
  - rewrite Heq.
    replace (2 ^ 53 * 2 ^ (target c e + 1074))
      with (2 ^ 52 * 2 ^ (target c e + 1 + 1074)).
    + apply pack_canonical; [ split; [ apply Z.lt_le_incl, pow2_pos; lia | reflexivity ] | lia | lia ].
    + replace (target c e + 1 + 1074) with (1 + (target c e + 1074)) by lia.
      rewrite (pow2_split 1) by lia. change (2 ^ 1) with 2. change (2 ^ 53) with (2 ^ 52 * 2). ring.
  - apply pack_canonical; [ lia | lia | exact Hn ].
Qed.

Lemma rval_nonneg (c e : Z) : 0 <= c -> fine c e -> 0 <= rval c e.
Proof.
  intros Hc Hf. destruct (rounded_mantissa_bounds c e Hc Hf) as [Hb _].
  pose proof (target_ge c e). unfold rval.
  assert (0 < 2 ^ (target c e + 1074)) by (apply pow2_pos; lia). nia.
Qed.

(** Rounding is monotone on codes of one scale. *)
Lemma rval_mono (c1 c2 e : Z) :
  0 <= c1 <= c2 -> fine c1 e -> rval c1 e <= rval c2 e.
Proof.
  intros Hc Hf1. pose proof (fine_mono c1 c2 e Hc Hf1) as Hf2.
  destruct (rounded_mantissa_bounds c1 e ltac:(lia) Hf1) as [Hb1 Hn1].
  destruct (rounded_mantissa_bounds c2 e ltac:(lia) Hf2) as [Hb2 Hn2].
  pose proof (target_mono c1 c2 e Hc) as HE.
  pose proof (target_ge c1 e) as HE1.
  unfold rval.
  destruct (Z.eq_dec (target c1 e) (target c2 e)) as [Heq | Hne].
  - rewrite <- Heq.
    assert (rounded_mantissa c1 e <= rounded_mantissa c2 e).
    { unfold rounded_mantissa. rewrite <- Heq.
      apply rne_mono, sticky_shift_mono; [ unfold fine in Hf1; lia | lia ]. }
    assert (0 < 2 ^ (target c1 e + 1074)) by (apply pow2_pos; lia). nia.
  - assert (Hlt : target c1 e + 1 <= target c2 e) by lia.
    assert (H52 : 2 ^ 52 <= rounded_mantissa c2 e) by (apply Hn2; lia).
    assert (Hp : 2 * 2 ^ (target c1 e + 1074) <= 2 ^ (target c2 e + 1074)).
    { replace (2 * 2 ^ (target c1 e + 1074)) with (2 ^ (target c1 e + 1 + 1074)).
      - apply pow2_le; lia.
      - replace (target c1 e + 1 + 1074) with (1 + (target c1 e + 1074)) by lia.
        rewrite (pow2_split 1) by lia. reflexivity. }
    assert (0 < 2 ^ (target c1 e + 1074)) by (apply pow2_pos; lia).
    change (2 ^ 53) with (2 * 2 ^ 52) in Hb1.
    assert (0 < 2 ^ 52) by reflexivity.
    nia.
Qed.

Lemma round_code_mono (c1 c2 e : Z) :
  0 <= c1 <= c2 -> fine c1 e ->
  val (round_code false c1 e) <= val (round_code false c2 e).
Proof.
  intros Hc Hf1. pose proof (fine_mono c1 c2 e Hc Hf1) as Hf2.
  destruct (round_code_spec false c1 e ltac:(lia) Hf1) as (_ & _ & ->).
  destruct (round_code_spec false c2 e ltac:(lia) Hf2) as (_ & _ & ->).
  pose proof (rval_mono c1 c2 e Hc Hf1). lia.
Qed.

(** A code may be moved to a coarser scale, up to the scale of the result. *)
Lemma round_code_rescale (s : bool) (c e k : Z) :
  0 <= c -> 0 <= k -> e + k <= target c e ->
  round_code s c e = round_code s (sticky_shift c k) (e + k).
Proof.
  intros Hc Hk Hle.
  assert (Ht : target (sticky_shift c k) (e + k) = target c e).
  { unfold target in *. rewrite sticky_shift_div4 by lia.
    rewrite Zdigits2_div_pow by (try apply Z.div_pos; lia).
    pose proof (Zdigits2_nonneg (c / 4)).
    unfold fexp64 in *. lia. }
  assert (Hf : fine c e) by (unfold fine; lia).
  assert (Hf' : fine (sticky_shift c k) (e + k)) by (unfold fine; lia).
  rewrite (round_code_fine s c e Hc Hf).
  rewrite (round_code_fine s _ _ (sticky_shift_nonneg c k Hk Hc) Hf').
  unfold rounded_mantissa. rewrite Ht.
  rewrite sticky_shift_add by lia.
  replace (k + (target c e - (e + k))) with (target c e - e) by lia.
  reflexivity.
Qed.

Lemma Zdigits2_mul_pow (m k : Z) :
  0 < m -> 0 <= k -> Zdigits2 (m * 2 ^ k) = Zdigits2 m + k.
Proof.
  intros Hm Hk. assert (0 < 2 ^ k) by (apply pow2_pos; lia).
  rewrite !Zdigits2_log2 by nia. rewrite Z.log2_mul_pow2 by lia. lia.
Qed.

Lemma sticky_shift_zero (n : Z) : sticky_shift 0 n = 0.
Proof. unfold sticky_shift. rewrite Zdiv_0_l, Zmod_0_l. reflexivity. Qed.

Lemma round_code_zero (s : bool) (e : Z) : round_code s 0 e = S754_zero s.
Proof.
  unfold round_code. change (0 / 4) with 0.
  rewrite sticky_shift_zero. change (rne 0) with 0. change (4 * 0) with 0.
  rewrite sticky_shift_zero. reflexivity.
Qed.

Lemma round_code_refine (s : bool) (m e k : Z) :
  0 <= m -> 0 <= k -> fine (4 * m) e ->
  round_code s (4 * (m * 2 ^ k)) (e - k) = round_code s (4 * m) e.
Proof.
  intros Hm Hk Hf.
  assert (HK : 0 < 2 ^ k) by (apply pow2_pos; lia).
  destruct (Z.eq_dec m 0) as [-> | Hnz].
  - rewrite Z.mul_0_l. change (4 * 0) with 0. now rewrite !round_code_zero.
  - rewrite (round_code_rescale s (4 * (m * 2 ^ k)) (e - k) k); try nia.
    + rewrite sticky_shift_exact by lia. f_equal. lia.
    + unfold fine, target in *.
      rewrite !(Z.mul_comm 4), !Z.div_mul in * by lia.
      rewrite Zdigits2_mul_pow by lia.
      replace (Zdigits2 m + k + (e - k)) with (Zdigits2 m + e) by lia. lia.
Qed.

(** A number of the format rounds to itself. *)
Lemma round_code_valid (s : bool) (m : positive) (e : Z) :
  valid (S754_finite s m e) = true ->
  round_code s (4 * Z.pos m) e = S754_finite s m e /\ fine (4 * Z.pos m) e.
Proof.
  intros Hv. destruct (valid_finite_inv s m e Hv) as (He & Hm & Hn & Hc).
  assert (Ht : target (4 * Z.pos m) e = e).
  { unfold target. rewrite (Z.mul_comm 4), Z.div_mul by lia. exact Hc. }
  assert (Hf : fine (4 * Z.pos m) e) by (unfold fine; lia).
  split; [ | exact Hf ].
  rewrite (round_code_fine s (4 * Z.pos m) e ltac:(lia) Hf).
  unfold rounded_mantissa. rewrite Ht, Z.sub_diag, sticky_shift_0, rne_exact.
  destruct (Z.eqb_spec (Z.pos m) (2 ^ 53)); [ lia | ].
  unfold pack. destruct (Z.leb_spec e 971); [ reflexivity | lia ].
Qed.

Lemma finite_val_order (m1 m2 : positive) (e1 e2 : Z) :
  valid (S754_finite false m1 e1) = true ->
  valid (S754_finite false m2 e2) = true ->
  (match e1 ?= e2 with
   | Lt => Lt
   | Gt => Gt
   | Eq => Pos.compare_cont Eq m1 m2
   end) = (Z.pos m1 * 2 ^ (e1 + 1074) ?= Z.pos m2 * 2 ^ (e2 + 1074)).
Proof.
  intros H1 H2.
  destruct (valid_finite_inv _ _ _ H1) as (He1 & Hm1 & Hn1 & _).
  destruct (valid_finite_inv _ _ _ H2) as (He2 & Hm2 & Hn2 & _).
  assert (Hp1 : 0 < 2 ^ (e1 + 1074)) by (apply pow2_pos; lia).
  assert (Hp2 : 0 < 2 ^ (e2 + 1074)) by (apply pow2_pos; lia).
  assert (Hstep : forall a b ma mb, a < b -> -1074 <= a -> 0 < ma < 2 ^ 53 ->
             2 ^ 52 <= mb -> ma * 2 ^ (a + 1074) < mb * 2 ^ (b + 1074)).
  { intros a b ma mb Hab Ha Hma Hmb.
    assert (2 * 2 ^ (a + 1074) <= 2 ^ (b + 1074)).
    { replace (2 * 2 ^ (a + 1074)) with (2 ^ (1 + (a + 1074)))
        by (rewrite (pow2_split 1) by lia; reflexivity).
      apply pow2_le; lia. }
    assert (0 < 2 ^ (a + 1074)) by (apply pow2_pos; lia).
    change (2 ^ 53) with (2 * 2 ^ 52) in Hma. assert (0 < 2 ^ 52) by reflexivity. nia. }
  destruct (Z.compare_spec e1 e2) as [Heq | Hlt | Hgt].
  - subst e2. change (Pos.compare_cont Eq m1 m2) with (Z.pos m1 ?= Z.pos m2).
    destruct (Z.compare_spec (Z.pos m1) (Z.pos m2)) as [Hm | Hm | Hm]; symmetry.
    + apply Z.compare_eq_iff. rewrite Hm. reflexivity.
    + apply Z.compare_lt_iff. nia.
    + apply Z.compare_gt_iff. nia.
  - symmetry. apply Z.compare_lt_iff. apply Hstep; lia.
  - symmetry. apply Z.compare_gt_iff. apply Hstep; lia.
Qed.

(** On numbers, the comparison of the format is the comparison of values. *)
Lemma SFcompare_val (x y : float) :
  valid x = true -> valid y = true -> is_nan x = false -> is_nan y = false ->
  SFcompare x y = Some (val x ?= val y).
Proof.
  intros Hx Hy Nx Ny.
  pose proof (val_bound x Hx) as Bx. pose proof (val_bound y Hy) as By.
  assert (Hhuge : 0 < huge) by exact huge_pos.
  assert (Hfin : forall s m e, valid (S754_finite s m e) = true ->
             0 < Z.pos m * 2 ^ (e + 1074) < huge).
  { intros s m e Hv. destruct (valid_finite_inv _ _ _ Hv) as (He & Hm & _).
    pose proof (val_finite_bound (Z.pos m) e ltac:(lia) He).
    assert (0 < 2 ^ (e + 1074)) by (apply pow2_pos; lia). nia. }
  destruct x as [sx | sx | | sx mx ex]; try discriminate;
    destruct y as [sy | sy | | sy my ey]; try discriminate;
    cbn [SFcompare val]; f_equal.
  - destruct sy; symmetry;
      [ apply Z.compare_gt_iff | apply Z.compare_lt_iff ]; lia.
  - pose proof (Hfin _ _ _ Hy).
    destruct sy; symmetry;
      [ apply Z.compare_gt_iff | apply Z.compare_lt_iff ]; lia.
  - destruct sx; symmetry;
      [ apply Z.compare_lt_iff | apply Z.compare_gt_iff ]; lia.
  - destruct sx, sy; symmetry;
      first [ apply Z.compare_eq_iff; lia | apply Z.compare_lt_iff; lia
            | apply Z.compare_gt_iff; lia ].
  - pose proof (Hfin _ _ _ Hy).
    destruct sx, sy; symmetry;
      first [ apply Z.compare_lt_iff; lia | apply Z.compare_gt_iff; lia ].
  - pose proof (Hfin _ _ _ Hx).
    destruct sx; symmetry;
      [ apply Z.compare_lt_iff | apply Z.compare_gt_iff ]; lia.
  - pose proof (Hfin _ _ _ Hx).
    destruct sx, sy; symmetry;
      first [ apply Z.compare_lt_iff; lia | apply Z.compare_gt_iff; lia ].
  - pose proof (Hfin _ _ _ Hx). pose proof (Hfin _ _ _ Hy).
    assert (Hvx : valid (S754_finite false mx ex) = true) by exact Hx.
    assert (Hvy : valid (S754_finite false my ey) = true) by exact Hy.
    destruct sx, sy.
    + rewrite Z.compare_opp.
      rewrite <- (finite_val_order my mx ey ex Hvy Hvx).
      rewrite (Z.compare_antisym ey ex).
      destruct (ey ?= ex); cbn [CompOpp]; try reflexivity.
      rewrite (Pos.compare_cont_antisym mx my Eq). reflexivity.
    + symmetry. apply Z.compare_lt_iff. lia.
    + symmetry. apply Z.compare_gt_iff. lia.
    + apply finite_val_order; assumption.
Qed.

Lemma SFltb_val (x y : float) :
  valid x = true -> valid y = true -> is_nan x = false -> is_nan y = false ->
  SFltb x y = (val x <? val y).
Proof.
  intros. unfold SFltb. rewrite SFcompare_val by assumption.
  unfold Z.ltb. destruct (val x ?= val y); reflexivity.
Qed.

Lemma SFleb_val (x y : float) :
  valid x = true -> valid y = true -> is_nan x = false -> is_nan y = false ->
  SFleb x y = (val x <=? val y).
Proof.
  intros. unfold SFleb. rewrite SFcompare_val by assumption.
  unfold Z.leb. destruct (val x ?= val y); reflexivity.
Qed.

(** Rounding a dyadic number m * 2^e *)

Lemma iter_xO_pow (m d : positive) : Z.pos (Pos.iter xO m d) = Z.pos m * 2 ^ Z.pos d.
Proof.
  induction d as [ | d IH] using Pos.peano_ind.
  - cbn [Pos.iter]. rewrite Pos2Z.inj_xO. change (2 ^ 1) with 2. lia.
  - rewrite Pos.iter_succ, Pos2Z.inj_xO, IH, Pos2Z.inj_succ.
    unfold Z.succ. rewrite pow2_succ by lia. ring.
Qed.

Lemma fine_dyadic (m e j : Z) :
  0 < m -> align m e <= j -> fine (4 * (m * 2 ^ j)) (e - j).
Proof.
  intros Hm Hj. assert (0 <= j) by (unfold align in Hj; lia).
  unfold fine, target. rewrite (Z.mul_comm 4), Z.div_mul by lia.
  rewrite Zdigits2_mul_pow by lia.
  replace (Zdigits2 m + j + (e - j)) with (Zdigits2 m + e) by lia.
  unfold align in Hj. lia.
Qed.

Lemma round_dyadic_any (s : bool) (m e j : Z) :
  0 < m -> align m e <= j ->
  round_code s (4 * (m * 2 ^ j)) (e - j) = round_dyadic s m e.
Proof.
  intros Hm Hj. unfold round_dyadic.
  set (k := align m e) in *. assert (Hk : 0 <= k) by (unfold k, align; lia).
  assert (0 < 2 ^ k) by (apply pow2_pos; lia).
  replace (m * 2 ^ j) with (m * 2 ^ k * 2 ^ (j - k)).
  - replace (e - j) with (e - k - (j - k)) by lia.
    apply round_code_refine; [ nia | lia | ].
    apply fine_dyadic; [ exact Hm | fold k; lia ].
  - rewrite <- Z.mul_assoc, <- pow2_split by lia. do 2 f_equal. lia.
Qed.

Lemma binary_round_dyadic (s : bool) (m : positive) (e : Z) :
  binary_round prec emax s m e = round_dyadic s (Z.pos m) e.
Proof.
  unfold binary_round, shl_align, round_dyadic, align.
  change (fexp prec emax) with fexp64.
  change (Z.pos (digits2_pos m)) with (Zdigits2 (Z.pos m)).
  set (T := fexp64 (Zdigits2 (Z.pos m) + e)).
  destruct (T - e) as [ | d | d] eqn:Hd.
  - rewrite binary_round_aux_code by lia. cbn [loc_code].
    replace (Z.max 0 (e - T)) with 0 by lia.
    rewrite Z.add_0_r, Z.sub_0_r. change (2 ^ 0) with 1. rewrite Z.mul_1_r. reflexivity.
  - rewrite binary_round_aux_code by lia. cbn [loc_code].
    replace (Z.max 0 (e - T)) with 0 by lia.
    rewrite Z.add_0_r, Z.sub_0_r. change (2 ^ 0) with 1. rewrite Z.mul_1_r. reflexivity.
  - rewrite binary_round_aux_code by lia. cbn [loc_code].
    rewrite iter_xO_pow.
    replace (Z.max 0 (e - T)) with (Z.pos d) by lia.
    rewrite Z.add_0_r. f_equal. lia.
Qed.

Lemma round_dyadic_spec (s : bool) (m e : Z) :
  0 < m ->
  valid (round_dyadic s m e) = true /\ is_nan (round_dyadic s m e) = false
  /\ (0 <= (if s then -1 else 1) * val (round_dyadic s m e)).
Proof.
  intros Hm. unfold round_dyadic.
  assert (Hk : 0 <= align m e) by (unfold align; lia).
  assert (0 < 2 ^ align m e) by (apply pow2_pos; lia).
  assert (Hf : fine (4 * (m * 2 ^ align m e)) (e - align m e))
    by (apply fine_dyadic; lia).
  assert (Hc : 0 <= 4 * (m * 2 ^ align m e)) by nia.
  destruct (round_code_spec s _ _ Hc Hf) as (Hv & Hn & Hval).
  repeat split; try assumption.
  rewrite Hval.
  pose proof (rval_nonneg _ _ Hc Hf).
  assert (0 < huge) by exact huge_pos.
  destruct s; lia.
Qed.

Lemma round_dyadic_mono (m1 e1 m2 e2 e0 : Z) :
  0 < m1 -> 0 < m2 -> e0 <= e1 -> e0 <= e2 ->
  m1 * 2 ^ (e1 - e0) <= m2 * 2 ^ (e2 - e0) ->
  val (round_dyadic false m1 e1) <= val (round_dyadic false m2 e2).
Proof.
  intros Hm1 Hm2 He1 He2 Hle.
  set (f := Z.min e0 (Z.min (e1 - align m1 e1) (e2 - align m2 e2))).
  assert (Hk1 : 0 <= align m1 e1) by (unfold align; lia).
  assert (Hk2 : 0 <= align m2 e2) by (unfold align; lia).
  rewrite <- (round_dyadic_any false m1 e1 (e1 - f)) by (unfold f; lia).
  rewrite <- (round_dyadic_any false m2 e2 (e2 - f)) by (unfold f; lia).
  replace (e1 - (e1 - f)) with f by lia. replace (e2 - (e2 - f)) with f by lia.
  assert (Hp : 0 < 2 ^ (e0 - f)) by (apply pow2_pos; unfold f; lia).
  assert (H1 : m1 * 2 ^ (e1 - f) = m1 * 2 ^ (e1 - e0) * 2 ^ (e0 - f)).
  { rewrite <- Z.mul_assoc, <- pow2_split by (unfold f; lia). do 2 f_equal. lia. }
  assert (H2 : m2 * 2 ^ (e2 - f) = m2 * 2 ^ (e2 - e0) * 2 ^ (e0 - f)).
  { rewrite <- Z.mul_assoc, <- pow2_split by (unfold f; lia). do 2 f_equal. lia. }
  assert (0 < 2 ^ (e1 - e0)) by (apply pow2_pos; lia).
  apply round_code_mono.
  - rewrite H1, H2. nia.
  - replace f with (e1 - (e1 - f)) at 2 by lia.
    apply fine_dyadic; [ exact Hm1 | unfold f; lia ].
Qed.

Lemma round_dyadic_valid (s : bool) (m : positive) (e : Z) :
  valid (S754_finite s m e) = true ->
  round_dyadic s (Z.pos m) e = S754_finite s m e.
Proof.
  intros Hv. destruct (valid_finite_inv s m e Hv) as (He & Hm & Hn & Hc).
  unfold round_dyadic, align. rewrite Hc, Z.sub_diag.
  change (Z.max 0 0) with 0. change (2 ^ 0) with 1.
  rewrite Z.mul_1_r, Z.sub_0_r. apply round_code_valid, Hv.
Qed.

(** Numbers that are not negative: +0, +infinity and the positive finite ones. *)

Lemma nonneg_inv (x : float) :
  nonneg x = true ->
  valid x = true /\ is_nan x = false /\ 0 <= val x
  /\ (x = S754_zero false \/ x = S754_infinity false
      \/ exists m e, x = S754_finite false m e /\ valid x = true /\ 0 < val x).
Proof.
  assert (Hhuge : 0 < huge) by exact huge_pos.
  destruct x as [s | s | | s m e]; cbn [nonneg val is_nan]; try discriminate.
  - destruct s; try discriminate. intros _. repeat split; try lia; auto.
  - destruct s; try discriminate. intros _. repeat split; try lia; auto.
  - destruct s; try discriminate. cbn [negb andb]. intros Hb.
    assert (Hv : valid (S754_finite false m e) = true) by exact Hb.
    destruct (valid_finite_inv _ _ _ Hv) as (He & _).
    assert (0 < 2 ^ (e + 1074)) by (apply pow2_pos; lia).
    repeat split; try nia; auto.
    right; right. exists m, e. repeat split; auto. cbn [val]. nia.
Qed.

Lemma valid_nonneg (x : float) :
  valid x = true -> is_nan x = false -> 0 < val x -> nonneg x = true.
Proof.
  assert (Hhuge : 0 < huge) by exact huge_pos.
  destruct x as [s | s | | s m e]; cbn [val is_nan nonneg]; try discriminate; try lia.
  - destruct s; [ lia | reflexivity ].
  - intros Hv _ Hpos. destruct (valid_finite_inv _ _ _ Hv) as (He & _).
    assert (0 < 2 ^ (e + 1074)) by (apply pow2_pos; lia).
    destruct s; [ nia | exact Hv ].
Qed.

Lemma round_dyadic_nonneg (m e : Z) : 0 < m -> nonneg (round_dyadic false m e) = true.
Proof.
  intros Hm. destruct (round_dyadic_spec false m e Hm) as (Hv & Hn & Hs).
  destruct (round_dyadic false m e) as [s | s | | s m' e'] eqn:Hr;
    try discriminate.
  - unfold round_dyadic, round_code, pack in Hr.
    destruct (_ / 4) in Hr; try discriminate; try (destruct (_ <=? 971) in Hr; discriminate).
    now inversion Hr.
  - unfold round_dyadic, round_code, pack in Hr.
    destruct (_ / 4) in Hr; try discriminate.
    destruct (_ <=? 971) in Hr; try discriminate. now inversion Hr.
  - unfold round_dyadic, round_code, pack in Hr.
    destruct (_ / 4) in Hr; try discriminate.
    destruct (_ <=? 971) in Hr; try discriminate. inversion Hr; subst.
    exact Hv.
Qed.

Lemma Zdigits2_mul_ge (a b : Z) :
  0 < a -> 0 < b -> Zdigits2 a + Zdigits2 b - 1 <= Zdigits2 (a * b).
Proof.
  intros Ha Hb.
  pose proof (Zdigits2_bounds a Ha) as [Ha1 _].
  pose proof (Zdigits2_bounds b Hb) as [Hb1 _].
  assert (Hda : 1 <= Zdigits2 a) by (rewrite Zdigits2_log2 by lia; pose proof (Z.log2_nonneg a); lia).
  assert (Hdb : 1 <= Zdigits2 b) by (rewrite Zdigits2_log2 by lia; pose proof (Z.log2_nonneg b); lia).
  assert (H : 2 ^ (Zdigits2 a - 1 + (Zdigits2 b - 1)) <= a * b).
  { rewrite pow2_split by lia.
    assert (0 < 2 ^ (Zdigits2 a - 1)) by (apply pow2_pos; lia).
    assert (0 < 2 ^ (Zdigits2 b - 1)) by (apply pow2_pos; lia). nia. }
  pose proof (Zdigits2_ge_pow (a * b) (Zdigits2 a - 1 + (Zdigits2 b - 1)) ltac:(lia) H). lia.
Qed.

Lemma mul_finite (sx sy : bool) (mx my : positive) (ex ey : Z) :
  valid (S754_finite sx mx ex) = true -> valid (S754_finite sy my ey) = true ->
  mul (S754_finite sx mx ex) (S754_finite sy my ey)
  = round_dyadic (xorb sx sy) (Z.pos mx * Z.pos my) (ex + ey).
Proof.
  intros Hx Hy. unfold mul. cbn [SFmul].
  rewrite binary_round_aux_code by lia. cbn [loc_code]. rewrite Z.add_0_r.
  rewrite <- (round_dyadic_any _ _ _ 0) by
    (try lia;
     destruct (valid_finite_inv _ _ _ Hx) as (Hex & Hmx & Hnx & Hcx);
     destruct (valid_finite_inv _ _ _ Hy) as (Hey & Hmy & Hny & Hcy);
     pose proof (Zdigits2_mul_ge (Z.pos mx) (Z.pos my) ltac:(lia) ltac:(lia));
     pose proof (Zdigits2_bounds (Z.pos mx) ltac:(lia));
     pose proof (Zdigits2_bounds (Z.pos my) ltac:(lia));
     assert (1 <= Zdigits2 (Z.pos mx)) by (apply (Zdigits2_ge_pow _ 0); lia);
     assert (1 <= Zdigits2 (Z.pos my)) by (apply (Zdigits2_ge_pow _ 0); lia);
     unfold align, fexp64 in *; lia).
  change (2 ^ 0) with 1. rewrite Z.mul_1_r, Z.sub_0_r. reflexivity.
Qed.

Lemma shl_align_fst (m : positive) (e e' : Z) :
  e' <= e -> Z.pos (fst (shl_align m e e')) = Z.pos m * 2 ^ (e - e').
Proof.
  intros Hle. unfold shl_align. destruct (e' - e) as [ | d | d] eqn:Hd; cbn [fst].
  - replace (e - e') with 0 by lia. change (2 ^ 0) with 1. lia.
  - lia.
  - rewrite iter_xO_pow. do 2 f_equal. lia.
Qed.

Lemma add_finite_pos (mx my : positive) (ex ey : Z) :
  add (S754_finite false mx ex) (S754_finite false my ey)
  = round_dyadic false
      (Z.pos mx * 2 ^ (ex - Z.min ex ey) + Z.pos my * 2 ^ (ey - Z.min ex ey))
      (Z.min ex ey).
Proof.
  unfold add. cbn [SFadd cond_Zopp].
  rewrite !shl_align_fst by lia.
  set (M := Z.pos mx * 2 ^ (ex - Z.min ex ey) + Z.pos my * 2 ^ (ey - Z.min ex ey)).
  assert (0 < 2 ^ (ex - Z.min ex ey)) by (apply pow2_pos; lia).
  assert (0 < 2 ^ (ey - Z.min ex ey)) by (apply pow2_pos; lia).
  assert (HM : 0 < M) by (unfold M; nia).
  unfold binary_normalize. destruct M as [ | pm | pm]; try lia.
  apply binary_round_dyadic.
Qed.

Lemma round_code_nonneg (c e : Z) :
  0 <= c -> fine c e -> nonneg (round_code false c e) = true.
Proof.
  intros Hc Hf. destruct (round_code_spec false c e Hc Hf) as (Hv & Hn & _).
  rewrite (round_code_fine false c e Hc Hf) in *.
  destruct (rounded_mantissa_bounds c e Hc Hf) as [Hb _].
  destruct (_ =? 2 ^ 53).
  - unfold pack in *. change (2 ^ 52) with 4503599627370496 in *.
    destruct (_ <=? 971); [ exact Hv | reflexivity ].
  - unfold pack in *. destruct (rounded_mantissa c e) as [ | p | p]; try lia.
    + reflexivity.
    + destruct (_ <=? 971); [ exact Hv | reflexivity ].
Qed.

Lemma nonneg_zero_le (x : float) : nonneg x = true -> SFleb (S754_zero false) x = true.
Proof.
  destruct x as [s | s | | s m e]; cbn [nonneg]; try discriminate;
    destruct s; try discriminate; reflexivity.
Qed.

(** Values of a valid number below and above a rounded dyadic. *)
Lemma round_dyadic_ge (m e e0 : Z) (my : positive) (ey : Z) :
  0 < m -> valid (S754_finite false my ey) = true -> e0 <= e -> e0 <= ey ->
  Z.pos my * 2 ^ (ey - e0) <= m * 2 ^ (e - e0) ->
  val (S754_finite false my ey) <= val (round_dyadic false m e).
Proof.
  intros Hm Hv He Hey Hle.
  rewrite <- (round_dyadic_valid false my ey Hv) at 1.
  apply (round_dyadic_mono _ _ _ _ e0); try lia.
Qed.

Lemma round_dyadic_le (m e e0 : Z) (my : positive) (ey : Z) :
  0 < m -> valid (S754_finite false my ey) = true -> e0 <= e -> e0 <= ey ->
  m * 2 ^ (e - e0) <= Z.pos my * 2 ^ (ey - e0) ->
  val (round_dyadic false m e) <= val (S754_finite false my ey).
Proof.
  intros Hm Hv He Hey Hle.
  rewrite <- (round_dyadic_valid false my ey Hv).
  apply (round_dyadic_mono _ _ _ _ e0); try lia.
Qed.

Lemma add_nonneg (a r : float) :
  nonneg a = true -> nonneg r = true ->
  nonneg (add a r) = true /\ val a <= val (add a r) /\ val r <= val (add a r).
Proof.
  intros Ha Hr.
  destruct (nonneg_inv a Ha) as (Hva & _ & H0a & Hca).
  destruct (nonneg_inv r Hr) as (Hvr & _ & H0r & Hcr).
  pose proof (val_bound a Hva) as Ba. pose proof (val_bound r Hvr) as Br.
  destruct Hca as [-> | [-> | (ma & ea & -> & Hfa & Hpa)]];
    destruct Hcr as [-> | [-> | (mr & er & -> & Hfr & Hpr)]];
    try (unfold add; cbn [SFadd val] in *; repeat split; solve [ assumption | reflexivity | lia ]).
  rewrite add_finite_pos.
  set (ez := Z.min ea er).
  assert (0 < 2 ^ (ea - ez)) by (apply pow2_pos; lia).
  assert (0 < 2 ^ (er - ez)) by (apply pow2_pos; lia).
  set (M := Z.pos ma * 2 ^ (ea - ez) + Z.pos mr * 2 ^ (er - ez)).
  assert (HM : 0 < M) by (unfold M; nia).
  repeat split.
  - apply round_dyadic_nonneg; exact HM.
  - apply (round_dyadic_ge M ez ez ma ea); try assumption; try lia.
    rewrite Z.sub_diag. change (2 ^ 0) with 1. unfold M. nia.
  - apply (round_dyadic_ge M ez ez mr er); try assumption; try lia.
    rewrite Z.sub_diag. change (2 ^ 0) with 1. unfold M. nia.
Qed.

(** Rounding to nearest: the error is at most half a unit. *)
Lemma rne_shift_nearest (x n : Z) :
  0 <= x -> 0 <= n ->
  2 * x - 2 ^ n <= 2 * (rne (sticky_shift (4 * x) n) * 2 ^ n) <= 2 * x + 2 ^ n.
Proof.
  intros Hx Hn.
  assert (HN : 0 < 2 ^ n) by (apply pow2_pos; lia).
  set (c := sticky_shift (4 * x) n).
  assert (Hq : c / 4 = x / 2 ^ n).
  { unfold c. rewrite sticky_shift_div4 by lia.
    rewrite (Z.mul_comm 4), Z.div_mul by lia. reflexivity. }
  pose proof (Z.div_mod x (2 ^ n) ltac:(lia)) as Hdm.
  pose proof (Z.mod_pos_bound x (2 ^ n) HN) as Hr.
  set (Q := x / 2 ^ n) in *. set (r := x mod 2 ^ n) in *.
  assert (Hc : c = 4 * Q + (if 2 * r <? 2 ^ n then 0 else 2)
                   + (if (r =? 0) || (2 * r =? 2 ^ n) then 0 else 1)).
  { unfold c, sticky_shift. rewrite pow2_succ by lia.
    replace (4 * x) with (2 * (2 * x)) by lia.
    rewrite Z.mul_mod_distr_l, Z.div_mul_cancel_l by lia.
    assert (H2x : 2 * x = 2 ^ n * (2 * Q) + 2 * r) by lia.
    destruct (Z.ltb_spec (2 * r) (2 ^ n)) as [Hlt | Hge].
    - assert (Hd : 2 * x / 2 ^ n = 2 * Q)
        by (symmetry; apply (Z.div_unique _ _ _ (2 * r)); lia).
      assert (Hm : (2 * x) mod 2 ^ n = 2 * r)
        by (symmetry; apply (Z.mod_unique _ _ (2 * Q) (2 * r)); lia).
      rewrite Hd, Hm.
      destruct (Z.eqb_spec r 0); destruct (Z.eqb_spec (2 * r) (2 ^ n));
        destruct (Z.eqb_spec (2 * (2 * r)) 0); cbn [orb]; lia.
    - assert (Hd : 2 * x / 2 ^ n = 2 * Q + 1)
        by (symmetry; apply (Z.div_unique _ _ _ (2 * r - 2 ^ n)); lia).
      assert (Hm : (2 * x) mod 2 ^ n = 2 * r - 2 ^ n)
        by (symmetry; apply (Z.mod_unique _ _ (2 * Q + 1) (2 * r - 2 ^ n)); lia).
      rewrite Hd, Hm.
      destruct (Z.eqb_spec r 0); destruct (Z.eqb_spec (2 * r) (2 ^ n));
        destruct (Z.eqb_spec (2 * (2 * r - 2 ^ n)) 0); cbn [orb]; lia. }
  assert (Hbounds := rne_bounds c). rewrite Hq in Hbounds. fold Q in Hbounds.
  assert (Hup : 2 ^ n < 2 * r -> rne c = Q + 1).
  { intros Hgt. unfold rne. rewrite Hq. fold Q.
    assert (Hm4 : c mod 4 = 3).
    { rewrite Hc. destruct (Z.ltb_spec (2 * r) (2 ^ n)); try lia.
      destruct (Z.eqb_spec r 0); try lia. destruct (Z.eqb_spec (2 * r) (2 ^ n)); try lia.
      cbn [orb]. replace (4 * Q + 2 + 1) with (4 * Q + 3) by lia.
      apply div_mod_4. lia. }
    rewrite Hm4. reflexivity. }
  assert (Hdown : 2 * r < 2 ^ n -> rne c = Q).
  { intros Hlt. unfold rne. rewrite Hq. fold Q.
    assert (Hm4 : c mod 4 < 2).
    { rewrite Hc. destruct (Z.ltb_spec (2 * r) (2 ^ n)); try lia.
      destruct ((r =? 0) || (2 * r =? 2 ^ n)).
      - replace (4 * Q + 0 + 0) with (4 * Q + 0) by lia.
        destruct (div_mod_4 Q 0 ltac:(lia)) as [_ ->]. lia.
      - replace (4 * Q + 0 + 1) with (4 * Q + 1) by lia.
        destruct (div_mod_4 Q 1 ltac:(lia)) as [_ ->]. lia. }
    destruct (Z.ltb_spec (c mod 4) 2); [ reflexivity | lia ]. }
  destruct (Z.lt_trichotomy (2 * r) (2 ^ n)) as [Hlt | [Heq | Hgt]].
  - rewrite (Hdown Hlt). nia.
  - nia.
  - rewrite (Hup Hgt). nia.
Qed.

(** The square of a normal number *)
Lemma mul_self_bound (m : positive) (e : Z) :
  valid (S754_finite false m e) = true -> 2 ^ 52 <= Z.pos m -> -563 <= e ->
  let pp := mul (S754_finite false m e) (S754_finite false m e) in
  nonneg pp = true
  /\ (val pp = huge
      \/ (Z.pos m * Z.pos m - 2 ^ 52) * 2 ^ (2 * e + 1126) <= 2 ^ 52 * val pp
         /\ (Z.pos m = 2 ^ 52 -> Z.pos m * Z.pos m * 2 ^ (2 * e + 1126) <= 2 ^ 52 * val pp)).
Proof.
  intros Hv Hnorm He pp.
  destruct (valid_finite_inv _ _ _ Hv) as (Hev & Hm & _ & _).
  unfold pp. rewrite mul_finite by assumption. cbn [xorb].
  set (x := Z.pos m * Z.pos m).
  assert (Hx : 2 ^ 104 <= x < 2 ^ 106).
  { unfold x. change (2 ^ 104) with (2 ^ 52 * 2 ^ 52).
    change (2 ^ 106) with (2 ^ 53 * 2 ^ 53).
    assert (0 < 2 ^ 52) by reflexivity. nia. }
  assert (Hd : 105 <= Zdigits2 x <= 106).
  { split.
    - apply (Zdigits2_ge_pow x 104); lia.
    - apply Zdigits2_lt_pow; lia. }
  split; [ apply round_dyadic_nonneg; lia | ].
  assert (Hal : align x (e + e) = 0) by (unfold align, fexp64; lia).
  unfold round_dyadic. rewrite Hal. change (2 ^ 0) with 1.
  rewrite Z.mul_1_r, Z.sub_0_r.
  assert (Ht : target (4 * x) (e + e) = Zdigits2 x + 2 * e - 53).
  { unfold target. rewrite (Z.mul_comm 4), Z.div_mul by lia. unfold fexp64. lia. }
  assert (Hf : fine (4 * x) (e + e)) by (unfold fine; lia).
  destruct (round_code_spec false (4 * x) (e + e) ltac:(lia) Hf) as (_ & _ & Hval).
  rewrite Hval. unfold rval, rounded_mantissa. rewrite Ht.
  set (n := Zdigits2 x + 2 * e - 53 - (e + e)).
  assert (Hn : 52 <= n <= 53) by (unfold n; lia).
  pose proof (rne_shift_nearest x n ltac:(lia) ltac:(lia)) as [Hlo _].
  set (R := rne (sticky_shift (4 * x) n)) in *.
  assert (HN : 2 ^ n <= 2 ^ 53) by (apply pow2_le; lia).
  assert (Hpow : 2 ^ 52 * 2 ^ (Zdigits2 x + 2 * e - 53 + 1074) = 2 ^ n * 2 ^ (2 * e + 1126)).
  { rewrite <- !pow2_split by lia. f_equal. unfold n. lia. }
  assert (HP : 0 < 2 ^ (2 * e + 1126)) by (apply pow2_pos; lia).
  assert (Hhuge : 0 < huge) by exact huge_pos.
  destruct (Z_le_gt_dec (R * 2 ^ (Zdigits2 x + 2 * e - 53 + 1074)) huge) as [Hle | Hgt].
  - right. rewrite Z.min_l by lia. rewrite Z.mul_1_l.
    change (2 ^ 53) with (2 * 2 ^ 52) in HN.
    split.
    + replace (2 ^ 52 * (R * 2 ^ (Zdigits2 x + 2 * e - 53 + 1074)))
        with (R * (2 ^ 52 * 2 ^ (Zdigits2 x + 2 * e - 53 + 1074))) by ring.
      rewrite Hpow, Z.mul_assoc.
      apply Z.mul_le_mono_nonneg_r; lia.
    + intros Hm52.
      assert (Hx' : x = 2 ^ 104) by (unfold x; rewrite Hm52; reflexivity).
      assert (Hn52 : n = 52).
      { unfold n. rewrite Hx'. change (Zdigits2 (2 ^ 104)) with 105. lia. }
      assert (HR : R = 2 ^ 52).
      { unfold R. rewrite Hn52, Hx'. change (2 ^ 104) with (2 ^ 52 * 2 ^ 52).
        rewrite sticky_shift_exact by lia. apply rne_exact. }
      replace (2 ^ 52 * (R * 2 ^ (Zdigits2 x + 2 * e - 53 + 1074)))
        with (R * (2 ^ 52 * 2 ^ (Zdigits2 x + 2 * e - 53 + 1074))) by ring.
      rewrite Hpow, HR, Hn52, Hx'. change (2 ^ 104) with (2 ^ 52 * 2 ^ 52). lia.
  - left. rewrite Z.min_r by lia. lia.
Qed.

(** Square roots *)

Lemma sqrt_finite (m : positive) (e : Z) :
  let e' := sqrt_exponent (Z.pos m) e in
  sqrt (S754_finite false m e)
  = round_code false (sqrt_code (Z.pos m * 2 ^ (e - 2 * e'))) e'.
Proof.
  intros e'. unfold sqrt. cbn [SFsqrt]. unfold SFsqrt_core_binary.
  change (fexp prec emax) with fexp64.
  rewrite !Z.div2_div. fold (sqrt_exponent (Z.pos m) e). fold e'.
  assert (Hs : 0 <= e - 2 * e').
  { unfold e', sqrt_exponent. pose proof (Z.div_mod e 2 ltac:(lia)).
    pose proof (Z.mod_pos_bound e 2 ltac:(lia)). lia. }
  set (m' := match e - 2 * e' with
             | 0 => Z.pos m
             | Z.pos _ => Z.shiftl (Z.pos m) (e - 2 * e')
             | Z.neg _ => 0
             end).
  assert (Hm' : m' = Z.pos m * 2 ^ (e - 2 * e')).
  { unfold m'. destruct (e - 2 * e') as [ | p | p] eqn:Hp.
    - change (2 ^ 0) with 1. lia.
    - rewrite Z.shiftl_mul_pow2 by lia. reflexivity.
    - lia. }
  rewrite Hm'. set (x := Z.pos m * 2 ^ (e - 2 * e')).
  assert (0 < 2 ^ (e - 2 * e')) by (apply pow2_pos; lia).
  assert (Hx : 0 <= x) by (unfold x; nia).
  pose proof (Z.sqrtrem_spec x Hx) as Hspec.
  pose proof (Z.sqrtrem_sqrt x) as Hfst.
  destruct (Z.sqrtrem x) as [q r]. cbn [fst] in Hfst. destruct Hspec as [Hxq Hr].
  unfold sqrt_code. rewrite <- Hfst.
  replace (x - q * q) with r by lia.
  assert (Hq : 0 <= q) by (rewrite Hfst; apply Z.sqrt_nonneg).
  rewrite binary_round_aux_code by exact Hq.
  f_equal. f_equal.
  destruct (Z.eqb_spec r 0); [ reflexivity | ].
  destruct (r <=? q); reflexivity.
Qed.

Lemma sqrt_code_bounds (x g : Z) :
  0 <= x -> 0 <= g ->
  (g * g <= x -> 4 * g <= sqrt_code x)
  /\ (g * g < x -> 4 * g + 1 <= sqrt_code x)
  /\ (g * g + g < x -> 4 * g + 3 <= sqrt_code x)
  /\ 0 <= sqrt_code x /\ sqrt_code x / 4 = Z.sqrt x.
Proof.
  intros Hx Hg. unfold sqrt_code.
  pose proof (Z.sqrt_spec x Hx) as Hs. pose proof (Z.sqrt_nonneg x) as Hq.
  set (q := Z.sqrt x) in *. unfold Z.succ in Hs.
  set (t := if x - q * q =? 0 then 0 else if x - q * q <=? q then 1 else 3).
  assert (Ht : 0 <= t < 4).
  { unfold t. destruct (_ =? 0); [ lia | ]. destruct (_ <=? q); lia. }
  repeat split.
  - intros H. assert (g <= q) by nia. lia.
  - intros H. assert (g <= q) by nia.
    destruct (Z.eq_dec g q) as [-> | Hne]; [ | lia ].
    unfold t. destruct (Z.eqb_spec (x - q * q) 0); [ lia | ].
    destruct (_ <=? q); lia.
  - intros H. assert (g <= q) by nia.
    destruct (Z.eq_dec g q) as [-> | Hne]; [ | lia ].
    unfold t. destruct (Z.eqb_spec (x - q * q) 0); [ lia | ].
    destruct (Z.leb_spec (x - q * q) q); lia.
  - lia.
  - apply div_mod_4. exact Ht.
Qed.

Lemma sqrt_fine (m : positive) (e : Z) :
  let e' := sqrt_exponent (Z.pos m) e in
  fine (sqrt_code (Z.pos m * 2 ^ (e - 2 * e'))) e'.
Proof.
  intros e'.
  assert (Hs : 0 <= e - 2 * e').
  { unfold e', sqrt_exponent. pose proof (Z.div_mod e 2 ltac:(lia)).
    pose proof (Z.mod_pos_bound e 2 ltac:(lia)). lia. }
  set (s := e - 2 * e') in *. set (x := Z.pos m * 2 ^ s).
  assert (HS : 0 < 2 ^ s) by (apply pow2_pos; lia).
  assert (Hx : 0 < x) by (unfold x; nia).
  destruct (sqrt_code_bounds x 0 ltac:(lia) ltac:(lia)) as (_ & _ & _ & _ & Hq).
  unfold fine, target. rewrite Hq.
  set (d := Zdigits2 (Z.pos m)).
  assert (Hd : 1 <= d) by (apply (Zdigits2_ge_pow _ 0); lia).
  pose proof (Zdigits2_bounds (Z.pos m) ltac:(lia)) as [Hlb _]. fold d in Hlb.
  (* the root has at least (d + s + 1) / 2 digits *)
  set (h := (d - 1 + s) / 2).
  assert (Hh : 0 <= h) by (apply Z.div_pos; lia).
  pose proof (Z.div_mod (d - 1 + s) 2 ltac:(lia)) as Hdm.
  pose proof (Z.mod_pos_bound (d - 1 + s) 2 ltac:(lia)) as Hmb. fold h in Hdm.
  assert (Hroot : 2 ^ h <= Z.sqrt x).
  { apply Z.sqrt_le_square; try lia. 
    rewrite <- pow2_split by lia.
    apply Z.le_trans with (2 ^ (d - 1 + s)); [ apply pow2_le; lia | ].
    unfold x. rewrite pow2_split by lia. nia. }
  pose proof (Zdigits2_ge_pow (Z.sqrt x) h Hh Hroot) as Hdig.
  assert (Hhalf : (d + e + 1) / 2 = h + 1 + e').
  { unfold h. replace (d + e + 1) with (d - 1 + s + (1 + e') * 2) by (unfold s; lia).
    rewrite Z.div_add by lia. lia. }
  unfold e' at 1. unfold sqrt_exponent. fold d. rewrite Hhalf. fold e'.
  unfold fexp64. lia.
Qed.

Lemma round_code_above_mid (m : positive) (e : Z) :
  valid (S754_finite false m e) = true -> 2 ^ 52 < Z.pos m ->
  round_code false (4 * (Z.pos m - 1) + 3) e = S754_finite false m e
  /\ fine (4 * (Z.pos m - 1) + 3) e.
Proof.
  intros Hv Hm. destruct (valid_finite_inv _ _ _ Hv) as (He & Hm53 & _ & _).
  set (c0 := 4 * (Z.pos m - 1) + 3).
  destruct (div_mod_4 (Z.pos m - 1) 3 ltac:(lia)) as [Hd4 Hm4]. fold c0 in Hd4, Hm4.
  assert (Hdig : Zdigits2 (Z.pos m - 1) = 53) by (apply Zdigits2_unique; lia).
  assert (Ht : target c0 e = e).
  { unfold target. rewrite Hd4, Hdig. unfold fexp64. lia. }
  assert (Hf : fine c0 e) by (unfold fine; lia).
  split; [ | exact Hf ].
  assert (Hc0 : 0 <= c0) by (unfold c0; lia).
  rewrite (round_code_fine false c0 e Hc0 Hf).
  assert (HR : rounded_mantissa c0 e = Z.pos m).
  { unfold rounded_mantissa. rewrite Ht, Z.sub_diag, sticky_shift_0.
    unfold rne. rewrite Hd4, Hm4. change (3 <? 2) with false.
    change (3 =? 2) with false. cbv iota. lia. }
  rewrite HR, Ht. destruct (Z.eqb_spec (Z.pos m) (2 ^ 53)); [ lia | ].
  unfold pack. destruct (Z.leb_spec e 971); [ reflexivity | lia ].
Qed.

Lemma sqrt_ge (m : positive) (e : Z) (ms : positive) (es : Z) :
  valid (S754_finite false m e) = true -> 2 ^ 52 <= Z.pos m ->
  2 * e <= es ->
  (if Z.pos m =? 2 ^ 52 then Z.pos m * Z.pos m <= Z.pos ms * 2 ^ (es - 2 * e)
   else Z.pos m * Z.pos m - Z.pos m + 1 <= Z.pos ms * 2 ^ (es - 2 * e)) ->
  val (S754_finite false m e) <= val (sqrt (S754_finite false ms es)).
Proof.
  intros Hv Hnorm Hes HX.
  destruct (valid_finite_inv _ _ _ Hv) as (He & Hm53 & _ & _).
  rewrite sqrt_finite. pose proof (sqrt_fine ms es) as Hf. cbv zeta in Hf.
  set (e' := sqrt_exponent (Z.pos ms) es) in *.
  set (x := Z.pos ms * 2 ^ (es - 2 * e')) in *.
  set (c := sqrt_code x) in *.
  set (X := Z.pos ms * 2 ^ (es - 2 * e)) in *.
  assert (H52 : 0 < 2 ^ 52) by reflexivity.
  assert (HX104 : 2 ^ 52 * 2 ^ 52 <= X).
  { destruct (Z.eqb_spec (Z.pos m) (2 ^ 52)); nia. }
  assert (Hs' : 0 <= es - 2 * e').
  { unfold e', sqrt_exponent. pose proof (Z.div_mod es 2 ltac:(lia)).
    pose proof (Z.mod_pos_bound es 2 ltac:(lia)). lia. }
  assert (Hx0 : 0 <= x) by (unfold x; pose proof (pow2_pos (es - 2 * e') Hs'); nia).
  destruct (sqrt_code_bounds x 0 Hx0 ltac:(lia)) as (_ & _ & _ & Hc0 & Hq).
  fold c in Hc0, Hq.
  destruct (round_code_spec false c e' Hc0 Hf) as (_ & _ & Hval).
  assert (Hvp : val (S754_finite false m e) = Z.pos m * 2 ^ (e + 1074)) by reflexivity.
  assert (Hpe : 0 < 2 ^ (e + 1074)) by (apply pow2_pos; lia).
  pose proof (val_finite_bound (Z.pos m) e ltac:(lia) He) as Hpb.
  destruct (Z_lt_le_dec e e') as [Hgt | Hle].
  - (* the root lies in a higher binade *)
    rewrite Hval, Hvp, Z.mul_1_l. apply Z.min_glb; [ | lia ].
    unfold rval. destruct (rounded_mantissa_bounds c e' Hc0 Hf) as [_ Hn].
    unfold fine in Hf. specialize (Hn ltac:(lia)).
    assert (2 * 2 ^ (e + 1074) <= 2 ^ (target c e' + 1074)).
    { replace (2 * 2 ^ (e + 1074)) with (2 ^ (1 + (e + 1074)))
        by (rewrite (pow2_split 1) by lia; reflexivity).
      apply pow2_le; lia. }
    change (2 ^ 53) with (2 * 2 ^ 52) in Hm53. nia.
  - set (k := e - e').
    assert (Hk : 0 <= k) by (unfold k; lia).
    assert (HK : 0 < 2 ^ k) by (apply pow2_pos; lia).
    assert (Hxk : x = X * (2 ^ k * 2 ^ k)).
    { unfold x, X. rewrite <- Z.mul_assoc, <- !pow2_split by lia.
      do 2 f_equal. unfold k. lia. }
    assert (Hroot : 2 ^ (52 + k) <= Z.sqrt x).
    { assert (0 < 2 ^ (52 + k)) by (apply pow2_pos; lia).
      apply Z.sqrt_le_square; try lia.
      rewrite (pow2_split 52 k) by lia. rewrite Hxk. nia. }
    assert (Htar : e' + k <= target c e').
    { unfold target. rewrite Hq.
      pose proof (Zdigits2_ge_pow (Z.sqrt x) (52 + k) ltac:(lia) Hroot).
      unfold fexp64. lia. }
    rewrite (round_code_rescale false c e' k Hc0 Hk Htar).
    replace (e' + k) with e by (unfold k; lia).
    destruct (Z.eqb_spec (Z.pos m) (2 ^ 52)) as [Heq | Hne].
    + (* the square is exact *)
      destruct (round_code_valid false m e Hv) as [Hid Hfm].
      rewrite <- Hid at 1. apply round_code_mono; [ | exact Hfm ].
      split; [ lia | ].
      rewrite <- (sticky_shift_exact (Z.pos m) k Hk).
      apply sticky_shift_mono; [ exact Hk | ].
      destruct (sqrt_code_bounds x (Z.pos m * 2 ^ k) Hx0 ltac:(nia)) as (Hb & _).
      apply Hb. rewrite Hxk. nia.
    + destruct (round_code_above_mid m e Hv ltac:(lia)) as [Hid Hfm].
      rewrite <- Hid at 1. apply round_code_mono; [ | exact Hfm ].
      split; [ lia | ].
      destruct (Z.eq_dec k 0) as [Hk0 | Hk0].
      * rewrite Hk0, sticky_shift_0.
        destruct (sqrt_code_bounds x (Z.pos m - 1) Hx0 ltac:(lia)) as (_ & _ & Hb & _).
        apply Hb. rewrite Hxk, Hk0. change (2 ^ 0) with 1. nia.
      * set (G := (2 * Z.pos m - 1) * 2 ^ (k - 1)).
        assert (HK1 : 0 < 2 ^ (k - 1)) by (apply pow2_pos; lia).
        assert (HKs : 2 ^ k = 2 * 2 ^ (k - 1)).
        { replace k with (1 + (k - 1)) at 1 by lia.
          rewrite (pow2_split 1) by lia. reflexivity. }
        assert (HG : G * G < x).
        { rewrite Hxk. unfold G. rewrite HKs. nia. }
        destruct (sqrt_code_bounds x G Hx0 ltac:(unfold G; nia)) as (_ & Hb & _).
        specialize (Hb HG).
        apply Z.le_trans with (sticky_shift (4 * G + 1) k);
          [ | apply sticky_shift_mono; [ exact Hk | exact Hb ] ].
        unfold sticky_shift.
        assert (HP : 2 ^ (k + 1) = 4 * 2 ^ (k - 1)).
        { rewrite pow2_succ by lia. lia. }
        assert (H4G : 4 * G + 1 = 2 ^ (k + 1) * (2 * Z.pos m - 1) + 1).
        { unfold G. rewrite HP. ring. }
        assert (Hd : (4 * G + 1) / 2 ^ (k + 1) = 2 * Z.pos m - 1).
        { symmetry. apply (Z.div_unique _ _ _ 1); lia. }
        assert (Hmo : (4 * G + 1) mod 2 ^ (k + 1) = 1).
        { symmetry. apply (Z.mod_unique _ _ (2 * Z.pos m - 1) 1); lia. }
        rewrite Hd, Hmo. change (1 =? 0) with false. cbv iota. lia.
Qed.

Lemma sqrt_nonneg (s : float) : nonneg s = true -> nonneg (sqrt s) = true.
Proof.
  intros Hs. destruct (nonneg_inv s Hs) as (_ & _ & _ & [-> | [-> | (m & e & -> & _ & _)]]);
    try reflexivity.
  rewrite sqrt_finite. apply round_code_nonneg; [ | apply sqrt_fine ].
  assert (Hs' : 0 <= e - 2 * sqrt_exponent (Z.pos m) e).
  { unfold sqrt_exponent. pose proof (Z.div_mod e 2 ltac:(lia)).
    pose proof (Z.mod_pos_bound e 2 ltac:(lia)). lia. }
  pose proof (pow2_pos _ Hs').
  apply (sqrt_code_bounds (Z.pos m * 2 ^ (e - 2 * sqrt_exponent (Z.pos m) e)) 0); nia.
Qed.

Lemma mul_pos_nonneg (x y : float) :
  nonneg x = true -> nonneg y = true -> 0 < val x -> 0 < val y ->
  nonneg (mul x y) = true.
Proof.
  intros Hx Hy Px Py.
  destruct (nonneg_inv x Hx) as (_ & _ & _ & [-> | [-> | (mx & ex & -> & Hvx & _)]]);
    destruct (nonneg_inv y Hy) as (_ & _ & _ & [-> | [-> | (my & ey & -> & Hvy & _)]]);
    cbn [val] in Px, Py; try lia; try reflexivity.
  rewrite mul_finite by assumption. apply round_dyadic_nonneg. lia.
Qed.

(** A number above zero is +infinity or a positive finite number. *)
Lemma positive_inv (x : float) :
  valid x = true -> SFltb (S754_zero false) x = true ->
  nonneg x = true /\ 0 < val x
  /\ (x = S754_infinity false \/ exists m e, x = S754_finite false m e).
Proof.
  intros Hv Hpos. assert (Hhuge : 0 < huge) by exact huge_pos.
  destruct x as [s | s | | s m e]; try discriminate;
    destruct s; try discriminate.
  - repeat split; auto. 
  - destruct (valid_finite_inv _ _ _ Hv) as (He & _).
    assert (0 < 2 ^ (e + 1074)) by (apply pow2_pos; lia).
    repeat split; [ exact Hv | cbn [val]; nia | right; eauto ].
Qed.

(** The effective length is at least the pivot-to-spindle distance when the
    square of the latter does not underflow. *)
Lemma sqrt_sum_ge (p r : float) :
  valid p = true -> SFltb (S754_zero false) p = true ->
  2 ^ 563 <= val p -> nonneg r = true ->
  val p <= val (sqrt (add (mul p p) r)).
Proof.
  intros Hv Hpos Hbig Hr.
  destruct (positive_inv p Hv Hpos) as (Hnn & Hp0 & [-> | (m & e & ->)]).
  - destruct (nonneg_inv r Hr) as (_ & _ & _ & [-> | [-> | (mr & er & -> & _ & _)]]);
      cbn; lia.
  - destruct (valid_finite_inv _ _ _ Hv) as (He & Hm53 & Hn & _).
    cbn [val] in Hbig, Hp0.
    assert (He563 : -563 <= e).
    { destruct (Z_lt_le_dec e (-563)) as [Hlt | Hge]; [ exfalso | exact Hge ].
      assert (2 ^ (e + 1074) <= 2 ^ 510) by (apply pow2_le; lia).
      change (2 ^ 563) with (2 ^ 53 * 2 ^ 510) in Hbig.
      assert (0 < 2 ^ 510) by reflexivity.
      set (B := 2 ^ 510) in *. nia. }
    assert (Hnorm : 2 ^ 52 <= Z.pos m) by (apply Hn; lia).
    destruct (mul_self_bound m e Hv Hnorm He563) as [Hpp Hbound].
    set (pp := mul (S754_finite false m e) (S754_finite false m e)) in *.
    destruct (add_nonneg pp r Hpp Hr) as (Hs & Hge & _).
    set (s := add pp r) in *.
    assert (HP : 0 < 2 ^ (2 * e + 1126)) by (apply pow2_pos; lia).
    assert (H52 : 0 < 2 ^ 52) by reflexivity.
    assert (Hhuge : 0 < huge) by exact huge_pos.
    pose proof (val_finite_bound (Z.pos m) e ltac:(lia) He) as Hpb.
    assert (Hm2 : 2 ^ 52 * 2 ^ 52 <= Z.pos m * Z.pos m) by nia.
    destruct (nonneg_inv s Hs) as (_ & _ & _ & [Hz | [Hi | (ms & es & Hfin & Hvs & Hps)]]).
    + exfalso. rewrite Hz in Hge. cbn [val] in Hge. destruct Hbound as [Hb | [Hb _]]; nia.
    + rewrite Hi. cbn [sqrt SFsqrt val]. lia.
    + rewrite Hfin in *. cbn [val] in Hge, Hps.
      destruct (valid_finite_inv _ _ _ Hvs) as (Hes & Hms53 & _ & _).
      pose proof (val_finite_bound (Z.pos ms) es ltac:(lia) Hes) as Hsb.
      destruct Hbound as [Hb | [Hb Hbx]]; [ lia | ].
      assert (Hes2 : 2 * e <= es).
      { destruct (Z_lt_le_dec es (2 * e)) as [Hlt | Hge2]; [ exfalso | exact Hge2 ].
        assert (Hpw : 2 ^ (es + 1074) * 2 ^ 53 <= 2 ^ (2 * e + 1126)).
        { rewrite <- pow2_split by lia. apply pow2_le; lia. }
        assert (0 < 2 ^ (es + 1074)) by (apply pow2_pos; lia).
        assert (Hlt1 : Z.pos ms * 2 ^ (es + 1074) < 2 ^ 53 * 2 ^ (es + 1074))
          by (apply Z.mul_lt_mono_pos_r; lia).
        assert (Hlt2 : (Z.pos m * Z.pos m - 2 ^ 52) * 2 ^ (2 * e + 1126)
                       < 2 ^ 52 * 2 ^ (2 * e + 1126)).
        { eapply Z.le_lt_trans; [ exact Hb | ].
          apply Z.mul_lt_mono_pos_l; [ exact H52 | ]. lia. }
        apply Z.mul_lt_mono_pos_r in Hlt2; [ | exact HP ].
        change (2 ^ 52 * 2 ^ 52) with (2 ^ 104) in Hm2.
        assert (2 ^ 52 < 2 ^ 103) by reflexivity. lia. }
      assert (Hsplit : 2 ^ 52 * (Z.pos ms * 2 ^ (es + 1074))
                       = Z.pos ms * 2 ^ (es - 2 * e) * 2 ^ (2 * e + 1126)).
      { rewrite <- (Z.mul_assoc (Z.pos ms)), <- pow2_split by lia.
        replace (es - 2 * e + (2 * e + 1126)) with (52 + (es + 1074)) by lia.
        rewrite (pow2_split 52) by lia. ring. }
      apply sqrt_ge; try assumption.
      destruct (Z.eqb_spec (Z.pos m) (2 ^ 52)) as [Heq | Hne].
      * specialize (Hbx Heq). nia.
      * nia.
Qed.

(** Division: the code of a quotient n / b *)

Lemma sticky_div_shift (n b j : Z) :
  0 < b -> 0 <= j -> sticky_shift (sticky_div n b) j = sticky_div n (b * 2 ^ j).
Proof.
  intros Hb Hj. unfold sticky_shift, sticky_div.
  set (B := 2 ^ j). assert (HB : 0 < B) by (apply pow2_pos; lia).
  replace (2 ^ (j + 1)) with (2 * B) by (unfold B; rewrite pow2_succ by lia; lia).
  set (Q := n / b). set (R := n mod b).
  set (t := if R =? 0 then 0 else 1).
  assert (Ht : 0 <= t < 2) by (unfold t; destruct (R =? 0); lia).
  assert (HR : 0 <= R < b) by (apply Z.mod_pos_bound; lia).
  rewrite <- (Z.div_div n b B) by lia. fold Q.
  rewrite (Z.rem_mul_r n b B) by lia. fold Q R.
  assert (Hq : (2 * Q + t) / (2 * B) = Q / B).
  { rewrite <- (Z.div_div (2 * Q + t) 2 B) by lia.
    f_equal. symmetry. apply (Z.div_unique (2 * Q + t) 2 Q t); lia. }
  assert (Hm : (2 * Q + t) mod (2 * B) = 2 * (Q mod B) + t).
  { rewrite (Z.rem_mul_r (2 * Q + t) 2 B) by lia.
    assert (Hd2 : (2 * Q + t) / 2 = Q)
      by (symmetry; apply (Z.div_unique (2 * Q + t) 2 Q t); lia).
    assert (Hm2 : (2 * Q + t) mod 2 = t)
      by (symmetry; apply (Z.mod_unique (2 * Q + t) 2 Q t); lia).
    rewrite Hd2, Hm2. lia. }
  rewrite Hq, Hm.
  pose proof (Z.mod_pos_bound Q B HB).
  assert (0 <= b * (Q mod B)) by nia.
  unfold t.
  destruct (Z.eqb_spec R 0); destruct (Z.eqb_spec (2 * (Q mod B) + 0) 0);
    destruct (Z.eqb_spec (R + b * (Q mod B)) 0);
    try destruct (Z.eqb_spec (2 * (Q mod B) + 1) 0); try lia; try nia.
Qed.

Lemma sticky_div_scale (n b j : Z) :
  0 < b -> 0 <= j -> sticky_div (n * 2 ^ j) (b * 2 ^ j) = sticky_div n b.
Proof.
  intros Hb Hj. assert (HB : 0 < 2 ^ j) by (apply pow2_pos; lia).
  unfold sticky_div. rewrite Z.div_mul_cancel_r, Z.mul_mod_distr_r by lia.
  destruct (Z.eqb_spec (n mod b) 0) as [-> | Hne].
  - rewrite Z.mul_0_l. reflexivity.
  - destruct (Z.eqb_spec (n mod b * 2 ^ j) 0); [ nia | reflexivity ].
Qed.

Lemma sticky_div_mono (n1 n2 b : Z) :
  0 < b -> n1 <= n2 -> sticky_div n1 b <= sticky_div n2 b.
Proof.
  intros Hb Hn. unfold sticky_div.
  pose proof (Z.div_mod n1 b ltac:(lia)). pose proof (Z.div_mod n2 b ltac:(lia)).
  pose proof (Z.mod_pos_bound n1 b Hb). pose proof (Z.mod_pos_bound n2 b Hb).
  pose proof (Z.div_le_mono n1 n2 b Hb Hn).
  destruct (Z.eqb_spec (n1 mod b) 0); destruct (Z.eqb_spec (n2 mod b) 0); try lia; nia.
Qed.

Lemma sticky_div_div4 (a b : Z) : 0 < b -> sticky_div (2 * a) b / 4 = a / b.
Proof.
  intros Hb. unfold sticky_div.
  set (t := if (2 * a) mod b =? 0 then 0 else 1).
  assert (Ht : 0 <= t < 2) by (unfold t; destruct (_ =? 0); lia).
  change 4 with (2 * 2). rewrite <- Z.div_div by lia.
  replace ((2 * (2 * a / b) + t) / 2) with (2 * a / b)
    by (apply (Z.div_unique _ 2 _ t); lia).
  rewrite Z.div_div by lia. rewrite (Z.mul_comm b 2).
  apply Z.div_mul_cancel_l; lia.
Qed.

Lemma new_location_code (b r : Z) :
  0 < b -> 0 <= r < b ->
  loc_code (new_location b r)
  = if r =? 0 then 0 else if 2 * r <? b then 1 else if 2 * r =? b then 2 else 3.
Proof.
  intros Hb Hr. unfold new_location, new_location_even, new_location_odd.
  destruct (Z.even b) eqn:Heven.
  - destruct (Z.eqb_spec r 0); [ reflexivity | ].
    destruct (Z.compare_spec (2 * r) b); cbn [loc_code];
      destruct (Z.ltb_spec (2 * r) b); destruct (Z.eqb_spec (2 * r) b); lia.
  - destruct (Z.eqb_spec r 0); [ reflexivity | ].
    assert (Hodd : Z.odd b = true) by (rewrite <- Z.negb_even, Heven; reflexivity).
    apply Z.odd_spec in Hodd. destruct Hodd as [k Hk].
    destruct (Z.compare_spec (2 * r + 1) b); cbn [loc_code];
      destruct (Z.ltb_spec (2 * r) b); destruct (Z.eqb_spec (2 * r) b); lia.
Qed.

Lemma div_code_sticky (a b : Z) :
  0 <= a -> 0 < b ->
  4 * (a / b) + loc_code (new_location b (a mod b)) = sticky_div (2 * a) b.
Proof.
  intros Ha Hb.
  pose proof (Z.div_mod a b ltac:(lia)) as Hdm.
  pose proof (Z.mod_pos_bound a b Hb) as Hr.
  rewrite (new_location_code b (a mod b) Hb Hr).
  set (q := a / b) in *. set (r := a mod b) in *. unfold sticky_div.
  destruct (Z.ltb_spec (2 * r) b) as [Hlt | Hge].
  - assert (Hd : 2 * a / b = 2 * q)
      by (symmetry; apply (Z.div_unique _ _ _ (2 * r)); lia).
    assert (Hm : (2 * a) mod b = 2 * r)
      by (symmetry; apply (Z.mod_unique _ _ (2 * q) (2 * r)); lia).
    rewrite Hd, Hm.
    destruct (Z.eqb_spec r 0); destruct (Z.eqb_spec (2 * r) 0); lia.
  - assert (Hd : 2 * a / b = 2 * q + 1)
      by (symmetry; apply (Z.div_unique _ _ _ (2 * r - b)); lia).
    assert (Hm : (2 * a) mod b = 2 * r - b)
      by (symmetry; apply (Z.mod_unique _ _ (2 * q + 1) (2 * r - b)); lia).
    rewrite Hd, Hm.
    destruct (Z.eqb_spec r 0); destruct (Z.eqb_spec (2 * r) b);
      destruct (Z.eqb_spec (2 * r - b) 0); lia.
Qed.

Lemma div_finite (sx sy : bool) (mx my : positive) (ex ey : Z) :
  let e' := div_exponent (Z.pos mx) ex (Z.pos my) ey in
  div (S754_finite sx mx ex) (S754_finite sy my ey)
  = round_code (xorb sx sy)
      (sticky_div (2 * (Z.pos mx * 2 ^ (ex - ey - e'))) (Z.pos my)) e'.
Proof.
  intros e'. unfold div. cbn [SFdiv]. unfold SFdiv_core_binary.
  change (fexp prec emax) with fexp64.
  fold (div_exponent (Z.pos mx) ex (Z.pos my) ey). fold e'.
  assert (Hs : 0 <= ex - ey - e') by (unfold e', div_exponent; lia).
  set (m' := match ex - ey - e' with
             | 0 => Z.pos mx
             | Z.pos _ => Z.shiftl (Z.pos mx) (ex - ey - e')
             | Z.neg _ => 0
             end).
  assert (Hm' : m' = Z.pos mx * 2 ^ (ex - ey - e')).
  { unfold m'. destruct (ex - ey - e') as [ | p | p] eqn:Hp.
    - change (2 ^ 0) with 1. lia.
    - rewrite Z.shiftl_mul_pow2 by lia. reflexivity.
    - lia. }
  rewrite Hm'. set (a := Z.pos mx * 2 ^ (ex - ey - e')).
  assert (0 < 2 ^ (ex - ey - e')) by (apply pow2_pos; lia).
  assert (Ha : 0 <= a) by (unfold a; nia).
  pose proof (Z_div_mod_full a (Z.pos my) ltac:(lia)) as Hspec.
  unfold Z.div, Z.modulo in *.
  pose proof (div_code_sticky a (Z.pos my) Ha ltac:(lia)) as Hcode.
  unfold Z.div, Z.modulo in Hcode.
  destruct (Z.div_eucl a (Z.pos my)) as [q r].
  destruct Hspec as [Hq Hr]. 
  assert (Hq0 : 0 <= q).
  { destruct Hr as [Hr | Hr]; [ | lia ]. nia. }
  rewrite binary_round_aux_code by exact Hq0.
  f_equal. exact Hcode.
Qed.

Lemma div_fine (mx my : positive) (ex ey : Z) :
  let e' := div_exponent (Z.pos mx) ex (Z.pos my) ey in
  forall j, 0 <= j ->
  e' <= target (sticky_div (2 * (Z.pos mx * 2 ^ (ex - ey - e' + j))) (Z.pos my)) (e' - j).
Proof.
  intros e' j Hj.
  assert (Hs : 0 <= ex - ey - e') by (unfold e', div_exponent; lia).
  set (s := ex - ey - e') in *.
  assert (HS : 0 < 2 ^ (s + j)) by (apply pow2_pos; lia).
  unfold target. rewrite sticky_div_div4 by lia.
  set (a := Z.pos mx * 2 ^ (s + j)).
  set (d1 := Zdigits2 (Z.pos mx)). set (d2 := Zdigits2 (Z.pos my)).
  assert (Hd1 : 1 <= d1) by (apply (Zdigits2_ge_pow _ 0); lia).
  assert (Hd2 : 1 <= d2) by (apply (Zdigits2_ge_pow _ 0); lia).
  pose proof (Zdigits2_bounds (Z.pos mx) ltac:(lia)) as [Hlb1 _]. fold d1 in Hlb1.
  pose proof (Zdigits2_bounds (Z.pos my) ltac:(lia)) as [_ Hub2]. fold d2 in Hub2.
  pose proof (Zdigits2_nonneg (a / Z.pos my)) as Hdq.
  assert (He' : e' <= fexp64 (d1 + ex - (d2 + ey))) by (unfold e', div_exponent, d1, d2; lia).
  destruct (Z_lt_le_dec (d1 - 1 + s + j - d2) 0) as [Hsmall | Hbig].
  - unfold fexp64 in *. unfold s in *. lia.
  - assert (Hquot : 2 ^ (d1 - 1 + s + j - d2) <= a / Z.pos my).
    { apply Z.div_le_lower_bound; [ lia | ].
      apply Z.le_trans with (2 ^ d2 * 2 ^ (d1 - 1 + s + j - d2)).
      - assert (0 < 2 ^ (d1 - 1 + s + j - d2)) by (apply pow2_pos; lia). nia.
      - rewrite <- pow2_split by lia.
        replace (d2 + (d1 - 1 + s + j - d2)) with (d1 - 1 + (s + j)) by lia.
        rewrite pow2_split by lia. unfold a.
        assert (0 < 2 ^ (d1 - 1)) by (apply pow2_pos; lia). nia. }
    pose proof (Zdigits2_ge_pow (a / Z.pos my) _ Hbig Hquot) as Hdig.
    unfold fexp64 in *. unfold s in *. lia.
Qed.

Lemma sticky_div_nonneg (n b : Z) : 0 <= n -> 0 < b -> 0 <= sticky_div n b.
Proof.
  intros Hn Hb. unfold sticky_div.
  assert (0 <= n / b) by (apply Z.div_pos; lia). destruct (_ =? 0); lia.
Qed.

Lemma div_at_scale (mx my : positive) (ex ey j : Z) :
  0 <= j ->
  let e' := div_exponent (Z.pos mx) ex (Z.pos my) ey in
  div (S754_finite false mx ex) (S754_finite false my ey)
  = round_code false
      (sticky_div (2 * (Z.pos mx * 2 ^ (ex - ey - e' + j))) (Z.pos my)) (e' - j).
Proof.
  intros Hj e'. rewrite div_finite. fold e'. cbn [xorb].
  assert (Hs : 0 <= ex - ey - e') by (unfold e', div_exponent; lia).
  set (s := ex - ey - e') in *.
  assert (HS : 0 < 2 ^ (s + j)) by (apply pow2_pos; lia).
  pose proof (div_fine mx my ex ey j Hj) as Hfine. cbv zeta in Hfine.
  fold e' in Hfine. fold s in Hfine.
  set (cf := sticky_div (2 * (Z.pos mx * 2 ^ (s + j))) (Z.pos my)) in *.
  assert (Hcf : 0 <= cf) by (apply sticky_div_nonneg; nia).
  rewrite (round_code_rescale false cf (e' - j) j Hcf Hj ltac:(lia)).
  replace (e' - j + j) with e' by lia. f_equal.
  unfold cf. rewrite sticky_div_shift by lia.
  replace (2 * (Z.pos mx * 2 ^ (s + j))) with (2 * (Z.pos mx * 2 ^ s) * 2 ^ j)
    by (rewrite pow2_split by lia; ring).
  rewrite sticky_div_scale by lia. reflexivity.
Qed.

Lemma div_finite_nonneg (mx my : positive) (ex ey : Z) :
  nonneg (div (S754_finite false mx ex) (S754_finite false my ey)) = true.
Proof.
  rewrite (div_at_scale mx my ex ey 0 ltac:(lia)).
  set (e' := div_exponent (Z.pos mx) ex (Z.pos my) ey).
  assert (Hs : 0 <= ex - ey - e') by (unfold e', div_exponent; lia).
  pose proof (pow2_pos (ex - ey - e' + 0) ltac:(lia)).
  apply round_code_nonneg.
  - apply sticky_div_nonneg; nia.
  - pose proof (div_fine mx my ex ey 0 ltac:(lia)) as Hf. cbv zeta in Hf.
    fold e' in Hf. unfold fine. lia.
Qed.

(** Division is monotone in its first argument. *)
Lemma div_mono (m1 m2 my : positive) (e1 e2 ey : Z) :
  -1074 <= e1 -> -1074 <= e2 ->
  val (S754_finite false m1 e1) <= val (S754_finite false m2 e2) ->
  val (div (S754_finite false m1 e1) (S754_finite false my ey))
  <= val (div (S754_finite false m2 e2) (S754_finite false my ey)).
Proof.
  intros He1 He2 Hle. cbn [val] in Hle.
  set (e'1 := div_exponent (Z.pos m1) e1 (Z.pos my) ey).
  set (e'2 := div_exponent (Z.pos m2) e2 (Z.pos my) ey).
  set (f := Z.min (Z.min e'1 e'2) (- ey - 1074)).
  rewrite (div_at_scale m1 my e1 ey (e'1 - f) ltac:(unfold f; lia)).
  rewrite (div_at_scale m2 my e2 ey (e'2 - f) ltac:(unfold f; lia)).
  fold e'1 e'2.
  replace (e'1 - (e'1 - f)) with f by lia. replace (e'2 - (e'2 - f)) with f by lia.
  replace (e1 - ey - e'1 + (e'1 - f)) with (e1 + 1074 + (- ey - f - 1074)) by lia.
  replace (e2 - ey - e'2 + (e'2 - f)) with (e2 + 1074 + (- ey - f - 1074)) by lia.
  assert (Hd : 0 <= - ey - f - 1074) by (unfold f; lia).
  rewrite (pow2_split (e1 + 1074) (- ey - f - 1074)) by lia.
  rewrite (pow2_split (e2 + 1074) (- ey - f - 1074)) by lia.
  assert (0 < 2 ^ (- ey - f - 1074)) by (apply pow2_pos; lia).
  assert (0 < 2 ^ (e1 + 1074)) by (apply pow2_pos; lia).
  assert (0 < 2 ^ (e2 + 1074)) by (apply pow2_pos; lia).
  assert (Hmul : Z.pos m1 * (2 ^ (e1 + 1074) * 2 ^ (- ey - f - 1074))
                 <= Z.pos m2 * (2 ^ (e2 + 1074) * 2 ^ (- ey - f - 1074))).
  { rewrite !Z.mul_assoc. apply Z.mul_le_mono_nonneg_r; lia. }
  assert (0 < Z.pos m1 * (2 ^ (e1 + 1074) * 2 ^ (- ey - f - 1074))) by nia.
  apply round_code_mono.
  - split; [ apply sticky_div_nonneg; lia | apply sticky_div_mono; lia ].
  - pose proof (div_fine m1 my e1 ey (e'1 - f) ltac:(unfold f; lia)) as Hf.
    cbv zeta in Hf. fold e'1 in Hf.
    replace (e'1 - (e'1 - f)) with f in Hf by lia.
    replace (e1 - ey - e'1 + (e'1 - f)) with (e1 + 1074 + (- ey - f - 1074)) in Hf by lia.
    rewrite (pow2_split (e1 + 1074) (- ey - f - 1074)) in Hf by lia.
    unfold fine. unfold f in *. lia.
Qed.

Lemma div_self (s : bool) (m : positive) (e : Z) :
  div (S754_finite s m e) (S754_finite s m e) = n_1.
Proof.
  rewrite div_finite. unfold div_exponent.
  replace (Zdigits2 (Z.pos m) + e - (Zdigits2 (Z.pos m) + e)) with 0 by lia.
  replace (e - e) with 0 by lia.
  change (Z.min (fexp64 0) 0) with (-53). change (0 - -53) with 53.
  replace (sticky_div (2 * (Z.pos m * 2 ^ 53)) (Z.pos m)) with (4 * 2 ^ 53).
  - destruct s; reflexivity.
  - unfold sticky_div.
    replace (2 * (Z.pos m * 2 ^ 53)) with (2 * 2 ^ 53 * Z.pos m) by ring.
    rewrite Z.div_mul, Z.mod_mul by lia. reflexivity.
Qed.

(** Subtraction of a smaller positive number *)
Lemma sub_nonneg (x y : float) :
  nonneg x = true -> valid y = true -> (exists m e, y = S754_finite false m e) ->
  val y <= val x -> SFleb (S754_zero false) (sub x y) = true.
Proof.
  intros Hx Hvy (my & ey & ->) Hle.
  destruct (valid_finite_inv _ _ _ Hvy) as (Hey & _).
  assert (0 < 2 ^ (ey + 1074)) by (apply pow2_pos; lia).
  destruct (nonneg_inv x Hx) as (_ & _ & _ & [-> | [-> | (mx & ex & -> & Hvx & _)]]).
  - cbn [val] in Hle. nia.
  - reflexivity.
  - destruct (valid_finite_inv _ _ _ Hvx) as (Hex & _).
    unfold sub. cbn [SFsub cond_Zopp]. rewrite !shl_align_fst by lia.
    set (ez := Z.min ex ey).
    set (M := Z.pos mx * 2 ^ (ex - ez) - Z.pos my * 2 ^ (ey - ez)).
    assert (HM : 0 <= M).
    { cbn [val] in Hle. unfold M.
      assert (Hx' : 2 ^ (ex + 1074) = 2 ^ (ex - ez) * 2 ^ (ez + 1074))
        by (rewrite <- pow2_split by lia; f_equal; lia).
      assert (Hy' : 2 ^ (ey + 1074) = 2 ^ (ey - ez) * 2 ^ (ez + 1074))
        by (rewrite <- pow2_split by lia; f_equal; lia).
      assert (0 < 2 ^ (ez + 1074)) by (apply pow2_pos; lia).
      rewrite Hx', Hy' in Hle. nia. }
    unfold binary_normalize. destruct M as [ | pm | pm]; try lia.
    + reflexivity.
    + rewrite binary_round_dyadic. apply nonneg_zero_le, round_dyadic_nonneg. lia.
Qed.

(** Multiplication by a positive number is monotone. *)
Lemma mul_mono (m1 m2 mk : positive) (e1 e2 ek : Z) :
  valid (S754_finite false m1 e1) = true -> valid (S754_finite false m2 e2) = true ->
  valid (S754_finite false mk ek) = true ->
  val (S754_finite false m1 e1) <= val (S754_finite false m2 e2) ->
  val (mul (S754_finite false m1 e1) (S754_finite false mk ek))
  <= val (mul (S754_finite false m2 e2) (S754_finite false mk ek)).
Proof.
  intros H1 H2 Hk Hle. rewrite !mul_finite by assumption. cbn [xorb].
  destruct (valid_finite_inv _ _ _ H1) as (He1 & _).
  destruct (valid_finite_inv _ _ _ H2) as (He2 & _).
  cbn [val] in Hle.
  apply (round_dyadic_mono _ _ _ _ (-1074 + ek)); try lia.
  replace (e1 + ek - (-1074 + ek)) with (e1 + 1074) by lia.
  replace (e2 + ek - (-1074 + ek)) with (e2 + 1074) by lia.
  nia.
Qed.

(** The linear offset of two positive numbers is positive. *)
Lemma linear_offset_pos (i o : float) :
  valid i = true -> valid o = true ->
  SFltb (S754_zero false) i = true -> SFltb (S754_zero false) o = true ->
  nonneg (mul n_0_5 (add i o)) = true /\ 1 <= val (mul n_0_5 (add i o)).
Proof.
  intros Hvi Hvo Hi Ho.
  destruct (positive_inv i Hvi Hi) as (Hni & Hpi & Hci).
  destruct (positive_inv o Hvo Ho) as (Hno & Hpo & Hco).
  destruct (add_nonneg i o Hni Hno) as (Hs & Hsi & Hso).
  set (s := add i o) in *.
  assert (Hhuge : 2 <= huge) by (apply Z.leb_le; reflexivity).
  destruct (nonneg_inv s Hs) as (_ & _ & _ & [Hz | [Hinf | (ms & es & Hfin & Hvs & Hps)]]).
  - rewrite Hz in Hsi. cbn [val] in Hsi. lia.
  - rewrite Hinf. split; [ reflexivity | change (1 <= huge); lia ].
  - rewrite Hfin in *. unfold n_0_5.
    assert (Hvh : valid (S754_finite false 4503599627370496 (-53)) = true) by reflexivity.
    rewrite mul_finite by assumption. cbn [xorb].
    split; [ apply round_dyadic_nonneg; lia | ].
    destruct (valid_finite_inv _ _ _ Hvs) as (Hes & _).
    assert (H1 : valid (S754_finite false 1 (-1074)) = true) by reflexivity.
    change 1 with (val (S754_finite false 1 (-1074))) at 1.
    apply (round_dyadic_ge _ _ (-1074 - 53)); try assumption; try lia.
    replace (-53 + es - (-1074 - 53)) with (es + 1074) by lia.
    change (-1074 - (-1074 - 53)) with 53.
    cbn [val] in Hps. change (Z.pos 4503599627370496) with (2 ^ 52).
    change (2 ^ 53) with (2 ^ 52 * 2). 
    assert (2 <= Z.pos ms * 2 ^ (es + 1074)).
    { (* the sum of two positive numbers is at least two units *)
      destruct Hci as [-> | (mi & ei & ->)]; [ cbn [val] in Hsi; cbn [val]; lia | ].
      destruct Hco as [-> | (mo & eo & ->)]; [ cbn [val] in Hso; cbn [val]; lia | ].
      unfold s in Hfin. rewrite add_finite_pos in Hfin.
      destruct (valid_finite_inv _ _ _ Hvi) as (Hei & _).
      destruct (valid_finite_inv _ _ _ Hvo) as (Heo & _).
      assert (H2 : valid (S754_finite false 2 (-1074)) = true) by reflexivity.
      change 2 with (val (S754_finite false 2 (-1074))) at 1.
      change (Z.pos ms * 2 ^ (es + 1074)) with (val (S754_finite false ms es)).
      rewrite <- Hfin.
      assert (0 < 2 ^ (ei - Z.min ei eo)) by (apply pow2_pos; lia).
      assert (0 < 2 ^ (eo - Z.min ei eo)) by (apply pow2_pos; lia).
      assert (0 < 2 ^ (Z.min ei eo - -1074)) by (apply pow2_pos; lia).
      apply (round_dyadic_ge _ _ (-1074)); try assumption; try lia; nia. }
    assert (0 < 2 ^ 52) by reflexivity. nia.
Qed.

(** * Properties of the calculator *)

(** ** Comparisons *)

Lemma SFcompare_swap (x y : float) :
  SFcompare y x = option_map CompOpp (SFcompare x y).
Proof.
  destruct x as [sx | sx | | sx mx ex], y as [sy | sy | | sy my ey];
    simpl; try reflexivity;
    try (destruct sx; reflexivity); try (destruct sy; reflexivity);
    try (destruct sx, sy; reflexivity).
  destruct sx, sy; simpl; try reflexivity;
    rewrite (Z.compare_antisym ex ey);
    destruct (ex ?= ey) eqn:He; simpl; try reflexivity;
    rewrite (Pos.compare_cont_antisym mx my Eq); reflexivity.
Qed.

Lemma lt_not_ge (x y : float) : (x < y)%js = true -> (x >= y)%js = false.
Proof.
  unfold lt, ge, SFltb, SFleb. rewrite (SFcompare_swap x y).
  destruct (SFcompare x y) as [[ | | ] | ]; simpl; congruence.
Qed.

Lemma le_not_gt (x y : float) : (x <= y)%js = true -> (x > y)%js = false.
Proof.
  unfold le, gt, SFltb, SFleb. rewrite (SFcompare_swap x y).
  destruct (SFcompare x y) as [[ | | ] | ]; simpl; congruence.
Qed.

(** Two finite numbers that compare equal are the same number. *)
Lemma eq_finite_same (s1 s2 : bool) (m1 m2 : positive) (e1 e2 : Z) :
  eq (S754_finite s1 m1 e1) (S754_finite s2 m2 e2) = true ->
  S754_finite s1 m1 e1 = S754_finite s2 m2 e2.
Proof.
  unfold eq, SFeqb; simpl.
  destruct s1, s2; try discriminate;
    destruct (e1 ?= e2) eqn:He; try discriminate;
    apply Z.compare_eq in He; subst e2;
    destruct (Pos.compare_cont Eq m1 m2) eqn:Hm; try discriminate;
    apply Pos.compare_eq in Hm; subst m2; reflexivity.
Qed.

Lemma le_val (x y : float) :
  valid x = true -> valid y = true -> (x <= y)%js = true ->
  is_nan x = false /\ is_nan y = false /\ val x <= val y.
Proof.
  intros Hx Hy Hle.
  assert (Nx : is_nan x = false) by (destruct x; try reflexivity; discriminate).
  assert (Ny : is_nan y = false)
    by (destruct y; try reflexivity; destruct x; discriminate).
  unfold le in Hle. rewrite SFleb_val in Hle by assumption.
  apply Z.leb_le in Hle. auto.
Qed.

Lemma nonneg_valid (x : float) : nonneg x = true -> valid x = true /\ is_nan x = false.
Proof. intros H. destruct (nonneg_inv x H) as (Hv & Hn & _). auto. Qed.

Lemma nonneg_cases (x : float) :
  nonneg x = true ->
  x = S754_zero false \/ x = S754_infinity false
  \/ exists m e, x = S754_finite false m e /\ valid x = true /\ 0 < val x.
Proof. intros H. destruct (nonneg_inv x H) as (_ & _ & _ & Hc). exact Hc. Qed.

Lemma val_lt_huge_finite (x : float) :
  nonneg x = true -> val x < huge -> isFinite x = true.
Proof.
  intros Hx Hlt. destruct (nonneg_cases x Hx) as [-> | [-> | (m & e & -> & _)]];
    try reflexivity. cbn [val] in Hlt. lia.
Qed.

Lemma finite_val_lt_huge (x : float) :
  valid x = true -> isFinite x = true -> val x < huge.
Proof.
  intros Hv Hf. assert (0 < huge) by exact huge_pos.
  destruct x as [s | s | | s m e]; try discriminate; cbn [val]; try lia.
  destruct (valid_finite_inv _ _ _ Hv) as (He & Hm & _).
  pose proof (val_finite_bound (Z.pos m) e ltac:(lia) He).
  assert (0 < 2 ^ (e + 1074)) by (apply pow2_pos; lia).
  destruct s; nia.
Qed.

Lemma positive_above (i o : float) :
  valid i = true -> valid o = true ->
  (i > zero)%js = true -> (i < o)%js = true -> (o > zero)%js = true.
Proof.
  intros Hvi Hvo Hi Hio. unfold gt, lt in *.
  assert (Hni : is_nan i = false) by (destruct i; try reflexivity; discriminate).
  assert (Hno : is_nan o = false)
    by (destruct o; try reflexivity; destruct i; discriminate).
  rewrite SFltb_val in * by (try assumption; reflexivity).
  apply Z.ltb_lt in Hi, Hio. apply Z.ltb_lt. lia.
Qed.

(** ** Angles *)

Lemma div_by_finite_nonneg (t : float) (m : positive) (e : Z) :
  nonneg t = true -> nonneg (t / S754_finite false m e)%js = true.
Proof.
  intros Ht. destruct (nonneg_cases t Ht) as [-> | [-> | (mt & et & -> & _ & _)]];
    try reflexivity. apply div_finite_nonneg.
Qed.

(** The conversion to degrees is monotone. *)
Lemma to_degrees_mono (a b : float) :
  nonneg a = true -> nonneg b = true -> isFinite b = true -> val a <= val b ->
  nonneg (to_degrees a) = true /\ nonneg (to_degrees b) = true
  /\ val (to_degrees a) <= val (to_degrees b).
Proof.
  intros Ha Hb Hfb Hle.
  assert (Hk : valid n_180 = true) by reflexivity.
  assert (Hpi : valid Math_PI = true) by reflexivity.
  assert (Hdeg : forall m e, valid (S754_finite false m e) = true ->
            nonneg (to_degrees (S754_finite false m e)) = true).
  { intros m e Hv. unfold to_degrees, n_180.
    assert (Ht : nonneg (S754_finite false m e * S754_finite false 6333186975989760 (-45))%js = true).
    { rewrite mul_finite by assumption. apply round_dyadic_nonneg. lia. }
    destruct (nonneg_cases _ Ht) as [-> | [-> | (mt & et & -> & _ & _)]];
      try reflexivity.
    apply div_finite_nonneg. }
  destruct (nonneg_inv b Hb) as (Hvb & _ & _ & _).
  pose proof (finite_val_lt_huge b Hvb Hfb) as Hbh.
  destruct (nonneg_cases b Hb) as [-> | [-> | (mb & eb & -> & Hvb' & Hpb)]];
    try discriminate.
  - (* b = 0 *)
    destruct (nonneg_cases a Ha) as [-> | [-> | (ma & ea & -> & _ & Hpa)]];
      cbn [val] in *; try lia.
    repeat split; try reflexivity; lia.
  - destruct (nonneg_cases a Ha) as [-> | [-> | (ma & ea & -> & Hva & Hpa)]].
    + pose proof (Hdeg mb eb Hvb') as Hnb.
      destruct (nonneg_inv _ Hnb) as (_ & _ & H0 & _).
      repeat split; try assumption; reflexivity.
    + cbn [val] in Hle, Hbh. lia.
    + pose proof (Hdeg ma ea Hva) as Hna. pose proof (Hdeg mb eb Hvb') as Hnb.
      repeat split; try assumption.
      unfold to_degrees, n_180, Math_PI.
      pose proof (mul_mono ma mb 6333186975989760 ea eb (-45) Hva Hvb' Hk Hle) as Hmul.
      assert (Hta : nonneg (S754_finite false ma ea * S754_finite false 6333186975989760 (-45))%js = true).
      { rewrite mul_finite by assumption. apply round_dyadic_nonneg. lia. }
      assert (Htb : nonneg (S754_finite false mb eb * S754_finite false 6333186975989760 (-45))%js = true).
      { rewrite mul_finite by assumption. apply round_dyadic_nonneg. lia. }
      set (ta := (S754_finite false ma ea * S754_finite false 6333186975989760 (-45))%js) in *.
      set (tb := (S754_finite false mb eb * S754_finite false 6333186975989760 (-45))%js) in *.
      assert (Hhuge : 0 < huge) by exact huge_pos.
      pose proof (div_by_finite_nonneg tb 7074237752028440 (-51) Htb) as Hqb.
      destruct (nonneg_inv _ Hqb) as (Hvqb & _ & H0qb & _).
      destruct (nonneg_cases ta Hta) as [Hza | [Hia | (mta & eta & Hfa & Hvta & Hpta)]].
      * rewrite Hza. exact H0qb.
      * rewrite Hia in Hmul. cbn [val] in Hmul.
        destruct (nonneg_cases tb Htb) as [Hzb | [Hib | (mtb & etb & Hfb' & Hvtb & _)]].
        -- rewrite Hzb in Hmul. cbn [val] in Hmul. lia.
        -- rewrite Hia, Hib. lia.
        -- rewrite Hfb' in Hmul, Hvtb.
           pose proof (finite_val_lt_huge _ Hvtb eq_refl). lia.
      * rewrite Hfa in *.
        destruct (nonneg_cases tb Htb) as [Hzb | [Hib | (mtb & etb & Hfb' & Hvtb & _)]].
        -- rewrite Hzb in Hmul. cbn [val] in Hmul, Hpta. lia.
        -- rewrite Hib.
           pose proof (div_by_finite_nonneg _ 7074237752028440 (-51) Hta) as Hqa.
           destruct (nonneg_inv _ Hqa) as (Hvqa & _ & _ & _).
           pose proof (val_bound _ Hvqa) as Hbound.
           change (val (S754_infinity false / S754_finite false 7074237752028440 (-51))%js)
             with huge. lia.
        -- rewrite Hfb' in *.
           destruct (valid_finite_inv _ _ _ Hvta) as (Heta & _).
           destruct (valid_finite_inv _ _ _ Hvtb) as (Hetb & _).
           apply div_mono; solve [ lia | exact Hmul ].
Qed.

(** The quotient of a finite positive number by a number that is not
    smaller lies between 0 and 1. *)
Lemma quotient_range (l e : float) :
  nonneg l = true -> isFinite l = true -> 1 <= val l ->
  nonneg e = true -> val l <= val e ->
  valid (l / e)%js = true /\ (zero <= l / e)%js = true /\ (l / e <= n_1)%js = true.
Proof.
  intros Hl Hfl Hl1 He Hle.
  destruct (nonneg_cases l Hl) as [-> | [-> | (ml & el & -> & Hvl & _)]];
    try discriminate; [ cbn [val] in Hl1; lia | ].
  destruct (nonneg_cases e He) as [-> | [-> | (me & ee & -> & Hve & _)]].
  - cbn [val] in Hle, Hl1. lia.
  - repeat split; reflexivity.
  - pose proof (div_finite_nonneg ml me el ee) as Hq.
    destruct (nonneg_inv _ Hq) as (Hvq & Hnq & H0 & _).
    destruct (valid_finite_inv _ _ _ Hvl) as (Hel & _).
    destruct (valid_finite_inv _ _ _ Hve) as (Hee & _).
    pose proof (div_mono ml me me el ee ee ltac:(lia) ltac:(lia) Hle) as Hmono.
    rewrite div_self in Hmono.
    repeat split; [ exact Hvq | apply nonneg_zero_le, Hq | ].
    unfold le. rewrite SFleb_val by (try assumption; reflexivity).
    apply Z.leb_le. exact Hmono.
Qed.

(** An angle between 0 and the double nearest pi/2 is between 0 and 90
    degrees. *)
Lemma angle_range (a : float) :
  valid a = true -> (zero <= a)%js = true -> (a <= half_PI)%js = true ->
  (zero <= to_degrees a)%js = true /\ (to_degrees a <= n_90)%js = true.
Proof.
  intros Hv H0 Hhi.
  destruct a as [s | s | | s m e]; try discriminate.
  - destruct s; split; reflexivity.
  - destruct s; discriminate.
  - destruct s; try discriminate.
    assert (Hna : nonneg (S754_finite false m e) = true) by exact Hv.
    assert (Hnh : nonneg half_PI = true) by reflexivity.
    unfold le in Hhi. rewrite SFleb_val in Hhi by (try assumption; reflexivity).
    apply Z.leb_le in Hhi.
    destruct (to_degrees_mono _ _ Hna Hnh eq_refl Hhi) as (Hda & _ & Hle).
    destruct (nonneg_inv _ Hda) as (Hvd & Hnd & _).
    split; [ apply nonneg_zero_le, Hda | ].
    unfold le. rewrite SFleb_val by (try assumption; reflexivity).
    apply Z.leb_le. exact Hle.
Qed.

(** The identity maps the numbers of [0, 1] into [0, pi/2]. *)
Lemma asin_identity_range (x : float) :
  valid x = true -> (zero <= x)%js = true -> (x <= n_1)%js = true ->
  valid (asin_identity x) = true
  /\ (zero <= asin_identity x)%js = true
  /\ (asin_identity x <= half_PI)%js = true.
Proof.
  intros Hv H0 H1. unfold asin_identity. repeat split; try assumption.
  destruct (le_val x n_1 Hv eq_refl H1) as (Nx & _ & Hle).
  unfold le. rewrite SFleb_val by (try assumption; reflexivity).
  apply Z.leb_le. eapply Z.le_trans; [ exact Hle | ].
  apply Z.leb_le. vm_compute. reflexivity.
Qed.

(** ** The geometry calculation *)

Section GeometryFacts.

Variable Math_asin : float -> float.

(** A call whose checks pass returns the record of the algorithm. *)
Lemma calculateGeometry_passes (p i o : float) :
  (p > zero)%js = true ->
  (i > zero)%js = true ->
  (o > zero)%js = true ->
  (i < o)%js = true ->
  (linearOffset_of i o <= effectiveLength_of p i o)%js = true ->
  calculateGeometry Math_asin p i o =
  inr (mkGeometry p i o (effectiveLength_of p i o)
         (to_degrees (Math_asin (linearOffset_of i o / effectiveLength_of p i o)%js))
         (effectiveLength_of p i o - p)%js (linearOffset_of i o)).
Proof.
  intros Hp Hi Ho Hio Hle.
  unfold calculateGeometry.
  rewrite Hp, Hi, Ho; cbn [negb andb].
  rewrite (lt_not_ge _ _ Hio).
  unfold linearOffset_of, effectiveLength_of in *.
  cbv zeta.
  rewrite (le_not_gt _ _ Hle).
  reflexivity.
Qed.

(** What a returned record says about the call. *)
Lemma calculateGeometry_returns (p i o : float) (g : Geometry) :
  calculateGeometry Math_asin p i o = inr g ->
  (p > zero)%js = true /\ (i > zero)%js = true /\ (o > zero)%js = true
  /\ (i >= o)%js = false
  /\ (linearOffset_of i o > effectiveLength_of p i o)%js = false
  /\ g = mkGeometry p i o (effectiveLength_of p i o)
           (to_degrees (Math_asin (linearOffset_of i o / effectiveLength_of p i o)%js))
           (effectiveLength_of p i o - p)%js (linearOffset_of i o).
Proof.
  unfold calculateGeometry, linearOffset_of, effectiveLength_of. cbv zeta.
  destruct (p > zero)%js; cbn [negb]; try discriminate.
  destruct (i > zero)%js; cbn [negb andb]; try discriminate.
  destruct (o > zero)%js; cbn [negb andb]; try discriminate.
  destruct (i >= o)%js; try discriminate.
  destruct (n_0_5 * (i + o) > sqrt (p * p + i * o))%js; try discriminate.
  intros H. inversion H. repeat split; reflexivity.
Qed.

(** The quantities of a call on positive numbers. *)
Lemma quantities_nonneg (p i o : float) :
  valid p = true -> valid i = true -> valid o = true ->
  (p > zero)%js = true -> (i > zero)%js = true -> (o > zero)%js = true ->
  nonneg (i * o)%js = true
  /\ nonneg (effectiveLength_of p i o) = true
  /\ nonneg (linearOffset_of i o) = true
  /\ 1 <= val (linearOffset_of i o).
Proof.
  intros Hvp Hvi Hvo Hp Hi Ho.
  destruct (positive_inv p Hvp Hp) as (Hnp & Hpp & _).
  destruct (positive_inv i Hvi Hi) as (Hni & Hpi & _).
  destruct (positive_inv o Hvo Ho) as (Hno & Hpo & _).
  pose proof (mul_pos_nonneg i o Hni Hno Hpi Hpo) as Hr.
  pose proof (mul_pos_nonneg p p Hnp Hnp Hpp Hpp) as Hsq.
  destruct (add_nonneg _ _ Hsq Hr) as (Hsum & _).
  destruct (linear_offset_pos i o Hvi Hvo Hi Ho) as [Hl1 Hl2].
  repeat split; try assumption.
  unfold effectiveLength_of. apply sqrt_nonneg. exact Hsum.
Qed.

(** C1: on every input that passes the checks (pivotToSpindle > 0,
    innerNull > 0, outerNull > 0, innerNull < outerNull and
    linearOffset <= effectiveLength), [calculateGeometry] returns the record
    whose effectiveLength is sqrt(p*p + i*o), whose linearOffset is
    0.5*(i + o), whose offsetAngleDeg is asin(linearOffset/effectiveLength)
    * 180 / PI and whose overhang is effectiveLength - p. *)
Theorem calculateGeometry_follows_the_algorithm (p i o : float) :
  (p > zero)%js = true ->
  (i > zero)%js = true ->
  (o > zero)%js = true ->
  (i < o)%js = true ->
  (n_0_5 * (i + o) <= sqrt (p * p + i * o))%js = true ->
  calculateGeometry Math_asin p i o =
  inr {| pivotToSpindle := p;
         innerNull := i;
         outerNull := o;
         effectiveLength := sqrt (p * p + i * o)%js;
         offsetAngleDeg :=
           (Math_asin (n_0_5 * (i + o) / sqrt (p * p + i * o)) * n_180 / Math_PI)%js;
         overhang := (sqrt (p * p + i * o) - p)%js;
         linearOffset := (n_0_5 * (i + o))%js |}.
Proof.
  intros Hp Hi Ho Hio Hle.
  exact (calculateGeometry_passes p i o Hp Hi Ho Hio Hle).
Qed.

(** C2: [calculateGeometry] throws one of its four errors exactly when
    pivotToSpindle is not strictly positive, or innerNull or outerNull is
    not strictly positive, or innerNull >= outerNull, or the computed
    linearOffset strictly exceeds the computed effectiveLength; on every
    other input it returns a record. *)
Theorem calculateGeometry_fails_iff (p i o : float) :
  ((exists message,
      calculateGeometry Math_asin p i o = inl message /\ InvalidGeometry message)
   <->
   ((p > zero)%js = false \/
    ((i > zero)%js = false \/ (o > zero)%js = false) \/
    (i >= o)%js = true \/
    (linearOffset_of i o > effectiveLength_of p i o)%js = true))
  /\
  ((exists geometry, calculateGeometry Math_asin p i o = inr geometry)
   <->
   ((p > zero)%js = true /\
    ((i > zero)%js = true /\ (o > zero)%js = true) /\
    (i >= o)%js = false /\
    (linearOffset_of i o > effectiveLength_of p i o)%js = false)).
Proof.
  unfold calculateGeometry, linearOffset_of, effectiveLength_of, InvalidGeometry.
  cbv zeta.
  destruct (p > zero)%js, (i > zero)%js, (o > zero)%js, (i >= o)%js;
    cbn [negb andb];
    try destruct (n_0_5 * (i + o) > sqrt (p * p + i * o))%js;
    (split; split; intros H);
    first
      [ destruct H as [message [Hthrown Hkind]]; discriminate
      | destruct H as [geometry Hreturned]; discriminate
      | eexists; split; [ reflexivity | simpl; tauto ]
      | eexists; reflexivity
      | intuition congruence ].
Qed.

(** C4, as amended: on valid numbers with pivotToSpindle > 0 and
    0 < innerNull < outerNull, the effectiveLength of a returned record is
    positive, and it is at least pivotToSpindle whenever pivotToSpindle is
    at least 2^-511, that is, whenever its square does not underflow. *)
Theorem effectiveLength_bounds (p i o : float) (g : Geometry) :
  valid p = true -> valid i = true -> valid o = true ->
  (p > zero)%js = true -> (i > zero)%js = true -> (i < o)%js = true ->
  calculateGeometry Math_asin p i o = inr g ->
  (effectiveLength g > zero)%js = true
  /\ ((p >= dyadic 1 (-511))%js = true -> (effectiveLength g >= p)%js = true).
Proof.
  intros Hvp Hvi Hvo Hp Hi Hio Hret.
  destruct (calculateGeometry_returns p i o g Hret) as (_ & _ & Ho & _ & Hcheck & ->).
  cbn [effectiveLength].
  destruct (quantities_nonneg p i o Hvp Hvi Hvo Hp Hi Ho) as (Hr & He & Hl & Hl1).
  destruct (nonneg_valid _ He) as [Hve Hne].
  destruct (nonneg_valid _ Hl) as [Hvl Hnl].
  unfold gt, lt in Hcheck.
  rewrite (SFltb_val _ _ Hve Hvl Hne Hnl) in Hcheck. apply Z.ltb_ge in Hcheck.
  split.
  - unfold gt, lt, zero. rewrite SFltb_val by (try assumption; reflexivity).
    apply Z.ltb_lt. cbn [val]. lia.
  - intros Hbig. unfold ge, le in *.
    assert (Hnp : is_nan p = false) by (destruct p; try reflexivity; discriminate).
    rewrite SFleb_val in Hbig by (try assumption; reflexivity).
    apply Z.leb_le in Hbig.
    rewrite SFleb_val by assumption. apply Z.leb_le.
    unfold effectiveLength_of. apply sqrt_sum_ge; try assumption.
Qed.

(** C10, as amended: a returned record echoes its three inputs; on valid
    numbers, its offsetAngleDeg is between 0 and 90 whenever its
    linearOffset is finite (for a [Math.asin] that maps the numbers of
    [0, 1] into [0, pi/2]), and its overhang is not negative whenever
    pivotToSpindle is finite and at least 2^-511. *)
Theorem returned_record_invariants (p i o : float) (g : Geometry) :
  valid p = true -> valid i = true -> valid o = true ->
  (forall x, valid x = true -> (zero <= x)%js = true -> (x <= n_1)%js = true ->
             valid (Math_asin x) = true
             /\ (zero <= Math_asin x)%js = true
             /\ (Math_asin x <= half_PI)%js = true) ->
  calculateGeometry Math_asin p i o = inr g ->
  (pivotToSpindle g = p /\ innerNull g = i /\ outerNull g = o)
  /\ (isFinite (linearOffset g) = true ->
      (zero <= offsetAngleDeg g)%js = true /\ (offsetAngleDeg g <= n_90)%js = true)
  /\ (isFinite p = true -> (p >= dyadic 1 (-511))%js = true ->
      (overhang g >= zero)%js = true).
Proof.
  intros Hvp Hvi Hvo Hasin Hret.
  destruct (calculateGeometry_returns p i o g Hret)
    as (Hp & Hi & Ho & _ & Hcheck & ->).
  cbn [pivotToSpindle innerNull outerNull linearOffset offsetAngleDeg overhang].
  destruct (quantities_nonneg p i o Hvp Hvi Hvo Hp Hi Ho) as (Hr & He & Hl & Hl1).
  destruct (nonneg_valid _ He) as [Hve Hne].
  destruct (nonneg_valid _ Hl) as [Hvl Hnl].
  unfold gt, lt in Hcheck.
  rewrite (SFltb_val _ _ Hve Hvl Hne Hnl) in Hcheck. apply Z.ltb_ge in Hcheck.
  split; [ repeat split | split ].
  - intros Hfin.
    destruct (quotient_range _ _ Hl Hfin Hl1 He Hcheck) as (Hvq & Hq0 & Hq1).
    destruct (Hasin _ Hvq Hq0 Hq1) as (Hva & Ha0 & Ha1).
    exact (angle_range _ Hva Ha0 Ha1).
  - intros Hfin Hbig.
    assert (Hnp : is_nan p = false) by (destruct p; try reflexivity; discriminate).
    unfold ge, le in *.
    rewrite SFleb_val in Hbig by (try assumption; reflexivity).
    apply Z.leb_le in Hbig.
    pose proof (sqrt_sum_ge p (i * o)%js Hvp Hp Hbig Hr) as Hge.
    apply sub_nonneg; try assumption.
    destruct p as [s | s | | s m e]; try discriminate.
    destruct s; try discriminate. eauto.
Qed.

(** C6, as amended: on valid numbers with pivotToSpindle > 0 and
    0 < innerNull < outerNull whose computed linearOffset equals the
    computed effectiveLength and is finite, the call returns a record whose
    offsetAngleDeg is 90 (for a [Math.asin] that gives the double nearest
    pi/2 at 1). *)
Theorem equal_offset_gives_90_degrees (p i o : float) :
  valid p = true -> valid i = true -> valid o = true ->
  (p > zero)%js = true -> (i > zero)%js = true -> (i < o)%js = true ->
  eq (linearOffset_of i o) (effectiveLength_of p i o) = true ->
  isFinite (linearOffset_of i o) = true ->
  Math_asin n_1 = half_PI ->
  exists g, calculateGeometry Math_asin p i o = inr g /\ offsetAngleDeg g = n_90.
Proof.
  intros Hvp Hvi Hvo Hp Hi Hio Heq Hfin Hasin.
  pose proof (positive_above i o Hvi Hvo Hi Hio) as Ho.
  destruct (quantities_nonneg p i o Hvp Hvi Hvo Hp Hi Ho) as (_ & He & Hl & Hl1).
  assert (Hsame : effectiveLength_of p i o = linearOffset_of i o
                  /\ exists m e, linearOffset_of i o = S754_finite false m e).
  { destruct (nonneg_cases _ Hl) as [Hz | [Hinf | (m & e & Hf & _)]].
    - rewrite Hz in Hl1. cbn [val] in Hl1. lia.
    - rewrite Hinf in Hfin. discriminate.
    - rewrite Hf in *.
      destruct (effectiveLength_of p i o) as [s' | s' | | s' m' e'];
        try (destruct s'; discriminate); try discriminate.
      split; [ symmetry; apply eq_finite_same, Heq | eauto ]. }
  destruct Hsame as [Hsame (m & e & Hf)].
  assert (Hcheck : (linearOffset_of i o > effectiveLength_of p i o)%js = false).
  { rewrite Hsame, Hf. unfold gt, lt, SFltb. cbn [SFcompare].
    rewrite Z.compare_refl, Pos.compare_cont_refl. reflexivity. }
  unfold calculateGeometry. rewrite Hp, Hi, Ho. cbn [negb andb].
  rewrite (lt_not_ge _ _ Hio). cbv zeta.
  fold (linearOffset_of i o). fold (effectiveLength_of p i o).
  rewrite Hcheck. eexists; split; [ reflexivity | ].
  cbn [offsetAngleDeg]. rewrite Hsame, Hf, div_self, Hasin. reflexivity.
Qed.

(** C3, as amended: with pivotToSpindle = 212 and the null points of
    "Löfgren A / Baerwald" (66.0 and 120.9) the call returns a record whose
    effectiveLength is 230.05 mm and whose overhang is 18.05 mm to two
    decimal places; its offsetAngleDeg is 23.97 degrees to two decimal
    places for a [Math.asin] whose result at linearOffset/effectiveLength
    (0.40621451447349094) lies between 0.4183 and 0.4184. *)
Theorem scenario_1_values :
  valid (Math_asin scenario_quotient) = true ->
  (decimal 4183 10000 <= Math_asin scenario_quotient)%js = true ->
  (Math_asin scenario_quotient <= decimal 4184 10000)%js = true ->
  lookup_scheme "Löfgren A / Baerwald" SCHEMES = Some (n_66, n_120_9)
  /\ exists g,
       calculateGeometry Math_asin n_212 n_66 n_120_9 = inr g
       /\ near (effectiveLength g) 23005 2 = true
       /\ near (offsetAngleDeg g) 2397 2 = true
       /\ near (overhang g) 1805 2 = true.
Proof.
  intros Hv Hlo Hhi. split; [ reflexivity | ].
  eexists. split.
  - apply calculateGeometry_passes; vm_compute; reflexivity.
  - cbn [effectiveLength offsetAngleDeg overhang].
    split; [ vm_compute; reflexivity | split; [ | vm_compute; reflexivity ] ].
    change (linearOffset_of n_66 n_120_9 / effectiveLength_of n_212 n_66 n_120_9)%js
      with scenario_quotient.
    set (a := Math_asin scenario_quotient) in *.
    assert (Hvlo : valid (decimal 4183 10000) = true) by reflexivity.
    assert (Hvhi : valid (decimal 4184 10000) = true) by reflexivity.
    destruct (le_val _ _ Hvlo Hv Hlo) as (_ & Na & Hle1).
    destruct (le_val _ _ Hv Hvhi Hhi) as (_ & _ & Hle2).
    assert (Hpos : 0 < val a).
    { eapply Z.lt_le_trans; [ | exact Hle1 ]. reflexivity. }
    pose proof (valid_nonneg a Hv Na Hpos) as Hna.
    assert (Hfa : isFinite a = true).
    { apply val_lt_huge_finite; [ exact Hna | ].
      eapply Z.le_lt_trans; [ exact Hle2 | reflexivity ]. }
    destruct (to_degrees_mono (decimal 4183 10000) a eq_refl Hna Hfa Hle1)
      as (_ & Hda & Hd1).
    destruct (to_degrees_mono a (decimal 4184 10000) Hna eq_refl eq_refl Hle2)
      as (_ & _ & Hd2).
    assert (Hfd : isFinite (to_degrees a) = true).
    { apply val_lt_huge_finite; [ exact Hda | ].
      eapply Z.le_lt_trans; [ exact Hd2 | reflexivity ]. }
    unfold near. rewrite Hfd. cbn [andb].
    apply andb_true_intro; split; apply Z.leb_le.
    + eapply Z.le_trans;
        [ | apply Z.mul_le_mono_nonneg_l; [ | exact Hd1 ]; discriminate ].
      apply Z.leb_le. vm_compute. reflexivity.
    + eapply Z.le_trans;
        [ apply Z.mul_le_mono_nonneg_l; [ | exact Hd2 ]; discriminate | ].
      apply Z.leb_le. vm_compute. reflexivity.
Qed.

End GeometryFacts.

(** C9: a NaN argument is rejected: when pivotToSpindle, innerNull or
    outerNull is NaN, [calculateGeometry] throws, and returns no record. *)
Theorem calculateGeometry_rejects_NaN
  (Math_asin : float -> float) (p i o : float) :
  p = NaN \/ i = NaN \/ o = NaN ->
  exists message,
    calculateGeometry Math_asin p i o = inl message /\ InvalidGeometry message.
Proof.
  intros Hnan. unfold calculateGeometry, InvalidGeometry.
  destruct (p > zero)%js eqn:Hp; cbn [negb].
  2: { eexists; split; [ reflexivity | simpl; tauto ]. }
  destruct ((i > zero)%js && (o > zero)%js) eqn:Hio; cbn [negb].
  2: { eexists; split; [ reflexivity | simpl; tauto ]. }
  exfalso. apply andb_prop in Hio. destruct Hio as [Hi Ho].
  destruct Hnan as [-> | [-> | ->]]; discriminate.
Qed.

(** ** Examples and counterexamples of the geometry calculation *)

Lemma calculateGeometry_follows_the_algorithm_witness :
  exists geometry,
    calculateGeometry asin_identity n_212 n_66 n_120_9 = inr geometry
    /\ effectiveLength geometry = S754_finite false 8094195196257371 (-45).
Proof.
  eexists; split.
  - apply (calculateGeometry_follows_the_algorithm asin_identity n_212 n_66 n_120_9);
      vm_compute; reflexivity.
  - vm_compute; reflexivity.
Defined.

Lemma calculateGeometry_rejects_NaN_witness :
  exists message,
    calculateGeometry asin_identity n_212 NaN n_120 = inl message
    /\ InvalidGeometry message.
Proof.
  apply (calculateGeometry_rejects_NaN asin_identity n_212 NaN n_120).
  right; left; reflexivity.
Defined.

(** C3, counterexample: the scheme's null points are 66.0 and 120.9, and
    with them and 212 the effectiveLength is not 224.34 and the overhang is
    not 12.34 to two decimal places, whatever [Math.asin] is. *)
Lemma scenario_1_is_not_224_34 :
  lookup_scheme "Löfgren A / Baerwald" SCHEMES = Some (n_66, n_120_9)
  /\ forall Math_asin : float -> float,
       exists g,
         calculateGeometry Math_asin n_212 n_66 n_120_9 = inr g
         /\ near (effectiveLength g) 22434 2 = false
         /\ near (overhang g) 1234 2 = false.
Proof.
  split; [ reflexivity | ]. intros Math_asin. eexists. split.
  - apply calculateGeometry_passes; vm_compute; reflexivity.
  - split; vm_compute; reflexivity.
Qed.

Lemma scenario_1_values_witness :
  lookup_scheme "Löfgren A / Baerwald" SCHEMES = Some (n_66, n_120_9)
  /\ exists g,
       calculateGeometry asin_scenario n_212 n_66 n_120_9 = inr g
       /\ near (effectiveLength g) 23005 2 = true
       /\ near (offsetAngleDeg g) 2397 2 = true
       /\ near (overhang g) 1805 2 = true.
Proof.
  apply (scenario_1_values asin_scenario); reflexivity.
Defined.

(** C4, counterexample: with pivotToSpindle = 9 * 2^-540, innerNull =
    2^-600 and outerNull = 2^-599 the square of pivotToSpindle rounds to
    2^-1074 and the product of the null points to 0, so the call returns
    effectiveLength = 2^-537, which is below pivotToSpindle. *)
Lemma effectiveLength_below_pivot :
  (valid tiny_pivot = true /\ valid tiny_inner = true /\ valid tiny_outer = true)
  /\ ((tiny_pivot > zero)%js = true /\ (tiny_inner > zero)%js = true
      /\ (tiny_inner < tiny_outer)%js = true)
  /\ forall Math_asin : float -> float,
       exists g,
         calculateGeometry Math_asin tiny_pivot tiny_inner tiny_outer = inr g
         /\ effectiveLength g = S754_finite false 4503599627370496 (-589)
         /\ (effectiveLength g >= tiny_pivot)%js = false.
Proof.
  split; [ repeat split | split; [ repeat split | ] ].
  intros Math_asin. eexists. split.
  - apply calculateGeometry_passes; vm_compute; reflexivity.
  - split; vm_compute; reflexivity.
Qed.

Lemma effectiveLength_bounds_witness :
  exists g,
    calculateGeometry asin_identity n_212 n_66 n_120_9 = inr g
    /\ (effectiveLength g > zero)%js = true
    /\ (effectiveLength g >= n_212)%js = true.
Proof.
  eexists. split; [ vm_compute; reflexivity | ].
  match goal with |- (effectiveLength ?g > _)%js = true /\ _ =>
    destruct (effectiveLength_bounds asin_identity n_212 n_66 n_120_9 g
                eq_refl eq_refl eq_refl eq_refl eq_refl eq_refl eq_refl)
      as [Hpos Hge]
  end.
  split; [ exact Hpos | apply Hge; reflexivity ].
Defined.

(** C6, counterexample: with the finite inputs pivotToSpindle = 2^700,
    innerNull = 2^1023 and outerNull = 3 * 2^1022 both linearOffset and
    effectiveLength overflow to +infinity: they are equal, the call
    returns, and offsetAngleDeg is asin(NaN) * 180 / PI, which is NaN, not
    90, for a [Math.asin] that is NaN at NaN. *)
Lemma equal_infinite_offset_gives_NaN :
  ((huge_pivot > zero)%js = true /\ (huge_inner > zero)%js = true
   /\ (huge_inner < huge_outer)%js = true)
  /\ (isFinite huge_pivot = true /\ isFinite huge_inner = true
      /\ isFinite huge_outer = true)
  /\ eq (linearOffset_of huge_inner huge_outer)
        (effectiveLength_of huge_pivot huge_inner huge_outer) = true
  /\ forall Math_asin : float -> float,
       Math_asin NaN = NaN ->
       exists g,
         calculateGeometry Math_asin huge_pivot huge_inner huge_outer = inr g
         /\ offsetAngleDeg g = NaN
         /\ eq (offsetAngleDeg g) n_90 = false.
Proof.
  split; [ repeat split | split; [ repeat split | split; [ reflexivity | ] ] ].
  intros Math_asin Hnan. eexists. split.
  - apply calculateGeometry_passes; vm_compute; reflexivity.
  - cbn [offsetAngleDeg].
    change (linearOffset_of huge_inner huge_outer
            / effectiveLength_of huge_pivot huge_inner huge_outer)%js with NaN.
    rewrite Hnan. split; reflexivity.
Qed.

Lemma equal_offset_gives_90_degrees_witness :
  exists g,
    calculateGeometry asin_constant n_1 n_3 n_5 = inr g /\ offsetAngleDeg g = n_90.
Proof.
  apply (equal_offset_gives_90_degrees asin_constant n_1 n_3 n_5); reflexivity.
Defined.

(** C10, counterexample: with pivotToSpindle = 10^9, innerNull = 1 and
    outerNull = 2 the product of the null points is absorbed by the square
    of pivotToSpindle: the call returns effectiveLength = 10^9 and
    overhang = 0, which is not positive. *)
Lemma overhang_can_be_zero :
  ((n_1e9 > zero)%js = true /\ (n_1 > zero)%js = true /\ (n_1 < n_2)%js = true)
  /\ forall Math_asin : float -> float,
       exists g,
         calculateGeometry Math_asin n_1e9 n_1 n_2 = inr g
         /\ overhang g = zero
         /\ (overhang g > zero)%js = false.
Proof.
  split; [ repeat split | ].
  intros Math_asin. eexists. split.
  - apply calculateGeometry_passes; vm_compute; reflexivity.
  - split; vm_compute; reflexivity.
Qed.

Lemma returned_record_invariants_witness :
  exists g,
    calculateGeometry asin_identity n_212 n_66 n_120_9 = inr g
    /\ (pivotToSpindle g = n_212 /\ innerNull g = n_66 /\ outerNull g = n_120_9)
    /\ ((zero <= offsetAngleDeg g)%js = true /\ (offsetAngleDeg g <= n_90)%js = true)
    /\ (overhang g >= zero)%js = true.
Proof.
  eexists. split; [ vm_compute; reflexivity | ].
  match goal with |- (pivotToSpindle ?g = _ /\ _) /\ _ =>
    destruct (returned_record_invariants asin_identity n_212 n_66 n_120_9 g
                eq_refl eq_refl eq_refl asin_identity_range eq_refl)
      as (Hecho & Hangle & Hover)
  end.
  split; [ exact Hecho | split; [ apply Hangle; reflexivity | apply Hover; reflexivity ] ].
Defined.

(** ** The command line *)

Section CommandLineFacts.

Variable Math_asin : float -> float.
Variable parseFloat : string -> float.
Variable Number_toString : float -> string.
Variable toFixed : float -> nat -> string.

(** The loop goes turn by turn. *)
Lemma parse_loop_turn (args : Args) (token : string) (rest : list string) :
  parse_loop parseFloat args (token :: rest)
  = match loop_turn parseFloat args token rest with
    | inl message => inl message
    | inr (args', rest') => parse_loop parseFloat args' rest'
    end.
Proof.
  unfold loop_turn. cbn [parse_loop]. unfold loop_body.
  destruct (String.eqb token "--scheme").
  { destruct (scheme_or_nulls args); [ reflexivity | ].
    destruct rest as [ | name rest1]; [ reflexivity | ].
    destruct (String.eqb name EmptyString); reflexivity. }
  destruct (String.eqb token "--nulls").
  { destruct (scheme_or_nulls args); [ reflexivity | ].
    destruct rest as [ | a [ | b rest2]];
      match goal with |- context [ if ?c then _ else _ ] => destruct c end;
      reflexivity. }
  destruct (String.eqb token "--list-schemes"); [ reflexivity | ].
  destruct (String.prefix "--" token); [ reflexivity | ].
  destruct (args_pivotToSpindle args); [ reflexivity | ].
  destruct (negb (isFinite (parseFloat token))); reflexivity.
Qed.

(** What a turn that does not throw does to [args]. *)
Lemma loop_turn_inv (args args' : Args) (token : string) (rest rest' : list string) :
  loop_turn parseFloat args token rest = inr (args', rest') ->
  (token = "--scheme" -> scheme_or_nulls args' = true)
  /\ (token = "--nulls" -> scheme_or_nulls args' = true)
  /\ (token = "--list-schemes" -> args_listSchemes args' = true)
  /\ (scheme_or_nulls args = true ->
      scheme_or_nulls args' = true /\ token <> "--scheme" /\ token <> "--nulls")
  /\ (args_listSchemes args = true -> args_listSchemes args' = true).
Proof.
  unfold loop_turn, loop_body.
  destruct (String.eqb_spec token "--scheme") as [-> | Hs].
  { destruct (scheme_or_nulls args) eqn:Hson; [ discriminate | ].
    destruct rest as [ | name rest1]; [ discriminate | ].
    destruct (String.eqb name EmptyString) eqn:Hname; [ discriminate | ].
    intros H; inversion H; subst; clear H.
    unfold scheme_or_nulls; cbn [args_scheme args_nulls args_listSchemes].
    rewrite Hname. repeat split; auto; try discriminate. }
  destruct (String.eqb_spec token "--nulls") as [-> | Hn].
  { destruct (scheme_or_nulls args) eqn:Hson; [ discriminate | ].
    destruct rest as [ | a [ | b rest2]];
      match goal with |- context [ if ?c then _ else _ ] => destruct c end;
      try discriminate;
      intros H; inversion H; subst; clear H;
      unfold scheme_or_nulls; cbn [args_scheme args_nulls args_listSchemes];
      rewrite orb_true_r; repeat split; auto; try discriminate. }
  destruct (String.eqb_spec token "--list-schemes") as [-> | Hl].
  { intros H; inversion H; subst; clear H.
    unfold scheme_or_nulls; cbn [args_scheme args_nulls args_listSchemes].
    repeat split; auto; try discriminate. }
  destruct (String.prefix "--" token); [ discriminate | ].
  destruct (args_pivotToSpindle args); [ discriminate | ].
  destruct (negb (isFinite (parseFloat token))); [ discriminate | ].
  intros H; inversion H; subst; clear H.
  unfold scheme_or_nulls; cbn [args_scheme args_nulls args_listSchemes].
  repeat split; auto; try contradiction.
Qed.

(** Once one of the two options is set, reading either flag throws. *)
Lemma second_flag_throws (args : Args) (rest : list string) (flag : string) :
  flag = "--scheme" \/ flag = "--nulls" ->
  scheme_or_nulls args = true ->
  reads parseFloat args rest flag ->
  parse_loop parseFloat args rest = inl choose_only_one.
Proof.
  intros Hflag Hset Hreads.
  induction Hreads as [args token rest | args token rest args' rest' t Hturn Hreads IH].
  - cbn [parse_loop]. unfold loop_body. rewrite Hset.
    destruct Hflag as [-> | ->]; reflexivity.
  - rewrite parse_loop_turn, Hturn.
    destruct (loop_turn_inv _ _ _ _ _ Hturn) as (_ & _ & _ & Hkeep & _).
    apply IH; [ exact Hflag | apply Hkeep, Hset ].
Qed.

Lemma both_flags_throw (args : Args) (rest : list string) :
  reads parseFloat args rest "--scheme" -> reads parseFloat args rest "--nulls" ->
  parse_loop parseFloat args rest = inl choose_only_one.
Proof.
  intros Hs. remember "--scheme" as flag eqn:Hflag.
  induction Hs as [args token rest | args token rest args' rest' t Hturn Hs IH];
    intros Hn; subst.
  - inversion Hn; subst.
    match goal with H : loop_turn parseFloat _ _ _ = inr _ |- _ =>
      rewrite parse_loop_turn, H;
      destruct (loop_turn_inv _ _ _ _ _ H) as (Hset & _) end.
    apply (second_flag_throws _ _ "--nulls"); auto.
  - rewrite parse_loop_turn, Hturn.
    inversion Hn; subst.
    + destruct (loop_turn_inv _ _ _ _ _ Hturn) as (_ & Hset & _).
      apply (second_flag_throws args' rest' "--scheme"); auto.
    + match goal with H : loop_turn parseFloat _ _ _ = inr _ |- _ =>
        rewrite Hturn in H; inversion H; subst end.
      apply IH; [ reflexivity | assumption ].
Qed.

(** A turn that does not throw moves on along the layout of the command
    line, and leaves fewer tokens. *)
Lemma loop_turn_layout (args args' : Args) (token : string) (rest rest' : list string) :
  loop_turn parseFloat args token rest = inr (args', rest') ->
  option_tokens (token :: rest) = token :: option_tokens rest'
  /\ (List.length rest' <= List.length rest)%nat.
Proof.
  unfold loop_turn, loop_body. cbn [option_tokens].
  destruct (String.eqb token "--scheme").
  { destruct (scheme_or_nulls args); [ discriminate | ].
    destruct rest as [ | name rest1]; [ discriminate | ].
    destruct (String.eqb name EmptyString); [ discriminate | ].
    intros H; inversion H; subst. cbn [List.length]. split; [ reflexivity | lia ]. }
  destruct (String.eqb token "--nulls").
  { destruct (scheme_or_nulls args); [ discriminate | ].
    destruct rest as [ | a [ | b rest2]];
      match goal with |- context [ if ?c then _ else _ ] => destruct c end;
      try discriminate;
      intros H; inversion H; subst; cbn [List.length]; (split; [ reflexivity | lia ]). }
  destruct (String.eqb token "--list-schemes").
  { intros H; inversion H; subst. split; [ reflexivity | lia ]. }
  destruct (String.prefix "--" token); [ discriminate | ].
  destruct (args_pivotToSpindle args); [ discriminate | ].
  destruct (negb (isFinite (parseFloat token))); [ discriminate | ].
  intros H; inversion H; subst. split; [ reflexivity | lia ].
Qed.

(** Once one of the two options is set, a later [--scheme] or [--nulls]
    in option position makes the parse fail. *)
Lemma later_option_fails (n : nat) :
  forall (args : Args) (rest : list string) (flag : string),
    (List.length rest <= n)%nat ->
    flag = "--scheme" \/ flag = "--nulls" ->
    scheme_or_nulls args = true ->
    In flag (option_tokens rest) ->
    exists message, parse_loop parseFloat args rest = inl message.
Proof.
  induction n as [ | n IH]; intros args rest flag Hlen Hflag Hset Hin;
    (destruct rest as [ | token rest]; [ destruct Hin | ]).
  - cbn [List.length] in Hlen. lia.
  - rewrite parse_loop_turn.
    destruct (loop_turn parseFloat args token rest) as [message | [args' rest']] eqn:Hturn;
      [ eexists; reflexivity | ].
    destruct (loop_turn_layout _ _ _ _ _ Hturn) as [Hlayout Hshort].
    destruct (loop_turn_inv _ _ _ _ _ Hturn) as (_ & _ & _ & Hkeep & _).
    destruct (Hkeep Hset) as (Hset' & Hns & Hnn).
    rewrite Hlayout in Hin. destruct Hin as [Heq | Hin].
    + subst flag. destruct Hflag; contradiction.
    + apply (IH args' rest' flag); try assumption.
      cbn [List.length] in Hlen. lia.
Qed.

(** Both options in option position make the parse fail. *)
Lemma both_options_fail (n : nat) :
  forall (args : Args) (rest : list string),
    (List.length rest <= n)%nat ->
    In "--scheme" (option_tokens rest) ->
    In "--nulls" (option_tokens rest) ->
    exists message, parse_loop parseFloat args rest = inl message.
Proof.
  induction n as [ | n IH]; intros args rest Hlen Hs Hn;
    (destruct rest as [ | token rest]; [ destruct Hs | ]).
  - cbn [List.length] in Hlen. lia.
  - rewrite parse_loop_turn.
    destruct (loop_turn parseFloat args token rest) as [message | [args' rest']] eqn:Hturn;
      [ eexists; reflexivity | ].
    destruct (loop_turn_layout _ _ _ _ _ Hturn) as [Hlayout Hshort].
    destruct (loop_turn_inv _ _ _ _ _ Hturn) as (Hsets & Hsetn & _).
    cbn [List.length] in Hlen.
    rewrite Hlayout in Hs, Hn.
    destruct Hs as [Hs | Hs]; destruct Hn as [Hn | Hn].
    + rewrite Hs in Hn. discriminate.
    + apply (later_option_fails (List.length rest') args' rest' "--nulls");
        auto using Nat.le_refl.
    + apply (later_option_fails (List.length rest') args' rest' "--scheme");
        auto using Nat.le_refl.
    + apply (IH args' rest'); try assumption. lia.
Qed.

(** C8: when both [--scheme] and [--nulls] are supplied, that is, stand in
    option position on the command line, [parseArgs] throws a usage error;
    [main] prints it to standard error and exits with code 1, and
    [calculateGeometry] is never invoked.  When the loop reaches both
    flags, the error is the one of the conflict. *)
Theorem scheme_and_nulls_is_a_usage_error (argv : list string) :
  In "--scheme" (option_tokens argv) ->
  In "--nulls" (option_tokens argv) ->
  exists message,
    parseArgs parseFloat argv = inl message
    /\ main Math_asin parseFloat Number_toString toFixed argv
       = [ Stderr ("error: " ++ message); Exit 1 ]
    /\ (reads parseFloat (mkArgs None None None false) argv "--scheme" ->
        reads parseFloat (mkArgs None None None false) argv "--nulls" ->
        message = choose_only_one).
Proof.
  intros Hs Hn.
  destruct (both_options_fail (List.length argv) (mkArgs None None None false) argv
              (Nat.le_refl _) Hs Hn) as [message Hthrow].
  exists message. split; [ exact Hthrow | split ].
  - unfold main, parseArgs. rewrite Hthrow. reflexivity.
  - intros Hrs Hrn. pose proof (both_flags_throw _ _ Hrs Hrn) as Hboth.
    rewrite Hthrow in Hboth. inversion Hboth. reflexivity.
Qed.

(** A flag that was read stays set until the loop ends. *)
Lemma list_flag_stays (args : Args) (rest : list string) (result : Args) :
  args_listSchemes args = true ->
  parse_loop parseFloat args rest = inr result ->
  args_listSchemes result = true.
Proof.
  remember (List.length rest) as n eqn:Hlen.
  revert args rest Hlen.
  induction n as [n IH] using (well_founded_induction Wf_nat.lt_wf).
  intros args rest Hlen Hflag Hparse.
  destruct rest as [ | token rest].
  - cbn in Hparse. inversion Hparse; subst. exact Hflag.
  - rewrite parse_loop_turn in Hparse.
    destruct (loop_turn parseFloat args token rest) as [message | [args' rest']] eqn:Hturn;
      [ discriminate | ].
    destruct (loop_turn_inv _ _ _ _ _ Hturn) as (_ & _ & _ & _ & Hkeep).
    assert (Hshort : (List.length rest' <= List.length rest)%nat).
    { revert Hturn. unfold loop_turn, loop_body.
      repeat match goal with
             | |- context [ if ?c then _ else _ ] => destruct c
             | |- context [ match ?l with [] => _ | _ :: _ => _ end ] => destruct l
             | |- context [ match ?o with Some _ => _ | None => _ end ] => destruct o
             end;
        try discriminate; intros H; inversion H; subst; cbn [List.length]; lia. }
    apply (IH (List.length rest')) with (args := args') (rest := rest');
      [ subst n; cbn [List.length]; lia | reflexivity | apply Hkeep, Hflag | exact Hparse ].
Qed.

Lemma read_list_flag_is_set (args : Args) (rest : list string) (result : Args) :
  reads parseFloat args rest "--list-schemes" ->
  parse_loop parseFloat args rest = inr result ->
  args_listSchemes result = true.
Proof.
  intros Hreads. remember "--list-schemes" as flag eqn:Hflag.
  induction Hreads as [args token rest | args token rest args' rest' t Hturn Hreads IH];
    intros Hparse; subst; rewrite parse_loop_turn in Hparse.
  - destruct (loop_turn parseFloat args "--list-schemes" rest) as [message | [args' rest']] eqn:Hturn;
      [ discriminate | ].
    destruct (loop_turn_inv _ _ _ _ _ Hturn) as (_ & _ & Hset & _).
    apply (list_flag_stays args' rest'); auto.
  - rewrite Hturn in Hparse. apply IH; [ reflexivity | exact Hparse ].
Qed.

(** C7, as amended: when all the arguments parse and the loop reads
    [--list-schemes] as a flag, the program prints the five schemes with
    their null points, one line each, and exits with code 0, whatever else
    was given and whether or not the positional argument is there. *)
Theorem list_schemes_prints_the_five_schemes (argv : list string) (args : Args) :
  parseArgs parseFloat argv = inr args ->
  reads parseFloat (mkArgs None None None false) argv "--list-schemes" ->
  main Math_asin parseFloat Number_toString toFixed argv
  = [ Stdout ("Löfgren A / Baerwald: " ++ Number_toString n_66 ++ " mm / "
                ++ Number_toString n_120_9 ++ " mm");
      Stdout ("Löfgren B: " ++ Number_toString n_70_3 ++ " mm / "
                ++ Number_toString n_116_6 ++ " mm");
      Stdout ("Stevenson: " ++ Number_toString n_60 ++ " mm / "
                ++ Number_toString n_117 ++ " mm");
      Stdout ("Rega (factory): " ++ Number_toString n_60 ++ " mm / "
                ++ Number_toString n_120 ++ " mm");
      Stdout ("Technics (JIS-based): " ++ Number_toString n_60 ++ " mm / "
                ++ Number_toString n_116 ++ " mm");
      Exit 0 ].
Proof.
  intros Hparse Hreads.
  pose proof (read_list_flag_is_set _ _ _ Hreads Hparse) as Hflag.
  unfold main. rewrite Hparse, Hflag. reflexivity.
Qed.

End CommandLineFacts.

(** C7, counterexample: an invocation with [--list-schemes] and an unknown
    flag prints no scheme: it prints the error of the unknown flag and exits
    with code 1. *)
Lemma list_schemes_with_unknown_flag_fails :
  In "--list-schemes" [ "--list-schemes"; "--bogus" ]
  /\ forall (Math_asin : float -> float) (parseFloat : string -> float)
            (Number_toString : float -> string) (toFixed : float -> nat -> string),
       main Math_asin parseFloat Number_toString toFixed [ "--list-schemes"; "--bogus" ]
       = [ Stderr "error: Unknown flag: --bogus"; Exit 1 ].
Proof.
  split; [ left; reflexivity | ]. intros. reflexivity.
Qed.

Lemma list_schemes_prints_the_five_schemes_witness :
  main asin_identity parseFloat_NaN toString_empty toFixed_empty [ "--list-schemes" ]
  = [ Stdout "Löfgren A / Baerwald:  mm /  mm";
      Stdout "Löfgren B:  mm /  mm";
      Stdout "Stevenson:  mm /  mm";
      Stdout "Rega (factory):  mm /  mm";
      Stdout "Technics (JIS-based):  mm /  mm";
      Exit 0 ].
Proof.
  apply (list_schemes_prints_the_five_schemes asin_identity parseFloat_NaN
           toString_empty toFixed_empty [ "--list-schemes" ]
           (mkArgs None None None true)).
  - reflexivity.
  - apply reads_now.
Defined.

Lemma scheme_and_nulls_is_a_usage_error_witness :
  exists message,
    parseArgs parseFloat_NaN [ "--scheme"; "Stevenson"; "--nulls"; "60"; "117" ]
    = inl message
    /\ main asin_identity parseFloat_NaN toString_empty toFixed_empty
         [ "--scheme"; "Stevenson"; "--nulls"; "60"; "117" ]
       = [ Stderr ("error: " ++ message); Exit 1 ]
    /\ (reads parseFloat_NaN (mkArgs None None None false)
          [ "--scheme"; "Stevenson"; "--nulls"; "60"; "117" ] "--scheme" ->
        reads parseFloat_NaN (mkArgs None None None false)
          [ "--scheme"; "Stevenson"; "--nulls"; "60"; "117" ] "--nulls" ->
        message = choose_only_one).
Proof.
  apply (scheme_and_nulls_is_a_usage_error asin_identity parseFloat_NaN
           toString_empty toFixed_empty).
  - left; reflexivity.
  - right; left; reflexivity.
Defined.

(** * Further properties of the calculator *)

(** ** The geometry calculation *)

(** Two numbers, neither a NaN, are ordered one way or the other. *)
Lemma not_ge_lt (x y : float) :
  (x > zero)%js = true -> (y > zero)%js = true ->
  (x >= y)%js = false -> (x < y)%js = true.
Proof.
  unfold gt, ge, lt, SFltb, SFleb. rewrite (SFcompare_swap x y).
  intros Hx Hy.
  assert (Hc : exists c, SFcompare x y = Some c).
  { destruct x as [sx | sx | | sx mx ex]; try discriminate;
      destruct y as [sy | sy | | sy my ey]; try discriminate;
      cbn [SFcompare]; eauto. }
  destruct Hc as [c ->]. destruct c; cbn; congruence.
Qed.

Lemma infinity_plus_nonneg (r : float) :
  nonneg r = true -> (infinity + r)%js = infinity.
Proof.
  intros Hr. destruct (nonneg_cases r Hr) as [-> | [-> | (m & e & -> & _)]]; reflexivity.
Qed.

(** The null points of the table: finite, positive, the inner one below the
    outer one, and their linear offset below 120.9. *)
Lemma scheme_table_facts (name : string) (inner outer : float) :
  lookup_scheme name SCHEMES = Some (inner, outer) ->
  (valid inner = true /\ valid outer = true)
  /\ (isFinite inner = true /\ isFinite outer = true)
  /\ (inner > zero)%js = true /\ (inner < outer)%js = true
  /\ val (linearOffset_of inner outer) <= val n_120_9.
Proof.
  unfold SCHEMES. cbn [lookup_scheme].
  repeat match goal with
         | |- context [ if ?c then _ else _ ] => destruct c
         end;
    intros H; inversion H; subst; clear H;
    repeat split; try reflexivity; apply Z.leb_le; vm_compute; reflexivity.
Qed.

Section MoreGeometryFacts.

Variable Math_asin : float -> float.

(** A distance that is not below the linear offset passes the last check. *)
Lemma long_arm_passes (p i o : float) :
  valid p = true -> valid i = true -> valid o = true ->
  (i > zero)%js = true -> (i < o)%js = true ->
  2 ^ 563 <= val p -> is_nan p = false ->
  val (linearOffset_of i o) <= val p ->
  calculateGeometry Math_asin p i o =
  inr (mkGeometry p i o (effectiveLength_of p i o)
         (to_degrees (Math_asin (linearOffset_of i o / effectiveLength_of p i o)%js))
         (effectiveLength_of p i o - p)%js (linearOffset_of i o)).
Proof.
  intros Hvp Hvi Hvo Hi Hio Hbig Hnp Hlp.
  pose proof (positive_above i o Hvi Hvo Hi Hio) as Ho.
  assert (Hp : (p > zero)%js = true).
  { unfold gt, lt. rewrite SFltb_val by (try assumption; reflexivity).
    apply Z.ltb_lt. eapply Z.lt_le_trans; [ | exact Hbig ]. reflexivity. }
  destruct (quantities_nonneg p i o Hvp Hvi Hvo Hp Hi Ho) as (Hr & He & Hl & Hl1).
  destruct (nonneg_valid _ He) as [Hve Hne].
  destruct (nonneg_valid _ Hl) as [Hvl Hnl].
  pose proof (sqrt_sum_ge p (i * o)%js Hvp Hp Hbig Hr) as Hge.
  apply calculateGeometry_passes; try assumption.
  unfold le. rewrite SFleb_val by assumption. apply Z.leb_le.
  unfold effectiveLength_of. lia.
Qed.

(** X1: a pivot-to-spindle distance that is not below the computed linear
    offset (and not below 2^-511) is always accepted: with 0 < innerNull <
    outerNull the call returns a record. *)
Theorem long_arm_is_accepted (p i o : float) :
  valid p = true -> valid i = true -> valid o = true ->
  (i > zero)%js = true -> (i < o)%js = true ->
  (p >= dyadic 1 (-511))%js = true ->
  (linearOffset_of i o <= p)%js = true ->
  exists g, calculateGeometry Math_asin p i o = inr g.
Proof.
  intros Hvp Hvi Hvo Hi Hio Hbig Hlp.
  pose proof (positive_above i o Hvi Hvo Hi Hio) as Ho.
  destruct (le_val (dyadic 1 (-511)) p eq_refl Hvp Hbig) as (_ & Hnp & Hbig').
  assert (Hl : nonneg (linearOffset_of i o) = true)
    by (apply linear_offset_pos; assumption).
  destruct (nonneg_valid _ Hl) as [Hvl Hnl].
  destruct (le_val _ _ Hvl Hvp Hlp) as (_ & _ & Hlp').
  eexists. apply long_arm_passes; assumption.
Qed.

(** X2: what the checks leave true of a returned record: pivotToSpindle
    and innerNull are positive, innerNull is below outerNull, and
    linearOffset is positive and not above effectiveLength. *)
Theorem returned_record_is_consistent (p i o : float) (g : Geometry) :
  valid p = true -> valid i = true -> valid o = true ->
  calculateGeometry Math_asin p i o = inr g ->
  (pivotToSpindle g > zero)%js = true
  /\ (innerNull g > zero)%js = true
  /\ (innerNull g < outerNull g)%js = true
  /\ (linearOffset g > zero)%js = true
  /\ (linearOffset g <= effectiveLength g)%js = true.
Proof.
  intros Hvp Hvi Hvo Hret.
  destruct (calculateGeometry_returns Math_asin p i o g Hret)
    as (Hp & Hi & Ho & Hio & Hcheck & ->).
  cbn [pivotToSpindle innerNull outerNull linearOffset effectiveLength].
  destruct (quantities_nonneg p i o Hvp Hvi Hvo Hp Hi Ho) as (Hr & He & Hl & Hl1).
  destruct (nonneg_valid _ He) as [Hve Hne].
  destruct (nonneg_valid _ Hl) as [Hvl Hnl].
  unfold gt, lt in Hcheck.
  rewrite (SFltb_val _ _ Hve Hvl Hne Hnl) in Hcheck. apply Z.ltb_ge in Hcheck.
  repeat split; try assumption.
  - apply not_ge_lt; assumption.
  - unfold gt, lt, zero. rewrite SFltb_val by (try assumption; reflexivity).
    apply Z.ltb_lt. cbn [val]. lia.
  - unfold le. rewrite SFleb_val by assumption. apply Z.leb_le. exact Hcheck.
Qed.

(** X3: [calculateGeometry] itself does not ask for a finite distance: with
    pivotToSpindle = Infinity it returns, with an infinite effectiveLength
    and a NaN as overhang. *)
Theorem infinite_pivot_is_accepted (i o : float) :
  valid i = true -> valid o = true ->
  (i > zero)%js = true -> (i < o)%js = true ->
  exists g,
    calculateGeometry Math_asin infinity i o = inr g
    /\ effectiveLength g = infinity
    /\ overhang g = NaN.
Proof.
  intros Hvi Hvo Hi Hio.
  pose proof (positive_above i o Hvi Hvo Hi Hio) as Ho.
  destruct (quantities_nonneg infinity i o eq_refl Hvi Hvo eq_refl Hi Ho)
    as (Hr & He & Hl & Hl1).
  assert (Heff : effectiveLength_of infinity i o = infinity).
  { unfold effectiveLength_of.
    change (infinity * infinity)%js with infinity.
    rewrite (infinity_plus_nonneg _ Hr). reflexivity. }
  destruct (nonneg_valid _ Hl) as [Hvl Hnl].
  eexists. split; [ | split ].
  - apply calculateGeometry_passes; try assumption; try reflexivity.
    rewrite Heff. unfold le. rewrite SFleb_val by (try assumption; reflexivity).
    apply Z.leb_le. cbn [val infinity]. apply (val_bound _ Hvl).
  - cbn [effectiveLength]. exact Heff.
  - cbn [overhang]. rewrite Heff. reflexivity.
Qed.

End MoreGeometryFacts.

Lemma long_arm_is_accepted_witness :
  exists g, calculateGeometry asin_identity n_212 n_66 n_120_9 = inr g.
Proof.
  apply (long_arm_is_accepted asin_identity n_212 n_66 n_120_9); reflexivity.
Defined.

Lemma returned_record_is_consistent_witness :
  exists g,
    calculateGeometry asin_identity n_212 n_66 n_120_9 = inr g
    /\ (innerNull g < outerNull g)%js = true
    /\ (linearOffset g <= effectiveLength g)%js = true.
Proof.
  eexists. split; [ vm_compute; reflexivity | ].
  match goal with |- (innerNull ?g < _)%js = true /\ _ =>
    destruct (returned_record_is_consistent asin_identity n_212 n_66 n_120_9 g
                eq_refl eq_refl eq_refl eq_refl) as (_ & _ & Hio & _ & Hle)
  end.
  split; assumption.
Defined.

Lemma infinite_pivot_is_accepted_witness :
  exists g,
    calculateGeometry asin_identity infinity n_66 n_120_9 = inr g
    /\ effectiveLength g = infinity
    /\ overhang g = NaN.
Proof.
  apply (infinite_pivot_is_accepted asin_identity n_66 n_120_9); reflexivity.
Defined.

(** ** The command line: what [parseArgs] returns *)

Section ParseFacts.

Variable parseFloat : string -> float.

(** The four ways a turn of the loop goes on. *)
Lemma loop_turn_cases (args args' : Args) (token : string) (rest rest' : list string) :
  loop_turn parseFloat args token rest = inr (args', rest') ->
  (token = "--scheme" /\ scheme_or_nulls args = false
   /\ exists name, rest = name :: rest' /\ name <> EmptyString
      /\ args' = mkArgs (args_pivotToSpindle args) (Some name)
                   (args_nulls args) (args_listSchemes args))
  \/ (token = "--nulls" /\ scheme_or_nulls args = false
      /\ exists inner outer, isFinite inner = true /\ isFinite outer = true
         /\ args' = mkArgs (args_pivotToSpindle args) (args_scheme args)
                      (Some (inner, outer)) (args_listSchemes args))
  \/ (token = "--list-schemes" /\ rest' = rest
      /\ args' = mkArgs (args_pivotToSpindle args) (args_scheme args)
                   (args_nulls args) true)
  \/ (known_flag token = false /\ positional token = true /\ rest' = rest
      /\ args_pivotToSpindle args = None
      /\ isFinite (parseFloat token) = true
      /\ args' = mkArgs (Some (parseFloat token)) (args_scheme args)
                   (args_nulls args) (args_listSchemes args)).
Proof.
  unfold loop_turn, loop_body, known_flag, positional.
  destruct (String.eqb_spec token "--scheme") as [-> | Hs].
  { destruct (scheme_or_nulls args); [ discriminate | ].
    destruct rest as [ | name rest1]; [ discriminate | ].
    destruct (String.eqb_spec name EmptyString) as [-> | Hname]; [ discriminate | ].
    intros H; inversion H; subst. left. eauto 8. }
  destruct (String.eqb_spec token "--nulls") as [-> | Hn].
  { destruct (scheme_or_nulls args); [ discriminate | ].
    intros H. right; left.
    destruct rest as [ | a [ | b rest2]];
      match type of H with
      | context [ if negb (isFinite ?x) || negb (isFinite ?y) then _ else _ ] =>
          destruct (isFinite x) eqn:Hx; destruct (isFinite y) eqn:Hy
      end;
      try discriminate; inversion H; subst; eauto 8. }
  destruct (String.eqb_spec token "--list-schemes") as [-> | Hl].
  { intros H; inversion H; subst. right; right; left. auto. }
  destruct (String.prefix "--" token); [ discriminate | ].
  destruct (args_pivotToSpindle args); [ discriminate | ].
  destruct (isFinite (parseFloat token)) eqn:Hfin; [ | discriminate ].
  intros H; inversion H; subst. right; right; right. auto 8.
Qed.

(** A property of [args] that every turn keeps holds of the result. *)
Lemma parse_loop_keeps (I : Args -> Prop) :
  (forall args args' token rest rest',
      I args -> loop_turn parseFloat args token rest = inr (args', rest') -> I args') ->
  forall (rest : list string) (n : nat) (args result : Args),
    (List.length rest <= n)%nat ->
    I args -> parse_loop parseFloat args rest = inr result -> I result.
Proof.
  intros Hstep rest n. revert rest.
  induction n as [ | n IH]; intros rest args result Hlen HI Hparse;
    (destruct rest as [ | token rest];
     [ cbn in Hparse; inversion Hparse; subst; exact HI | ]).
  - cbn [List.length] in Hlen. lia.
  - rewrite parse_loop_turn in Hparse.
    destruct (loop_turn parseFloat args token rest) as [message | [args' rest']] eqn:Hturn;
      [ discriminate | ].
    destruct (loop_turn_layout _ _ _ _ _ _ Hturn) as [_ Hshort].
    cbn [List.length] in Hlen.
    apply (IH rest' args' result); [ lia | eapply Hstep; eassumption | exact Hparse ].
Qed.

Lemma scheme_or_nulls_false (args : Args) :
  well_formed args -> scheme_or_nulls args = false ->
  args_scheme args = None /\ args_nulls args = None.
Proof.
  intros (_ & Hname & _ & _). unfold scheme_or_nulls.
  destruct (args_scheme args) as [name | ], (args_nulls args) as [nulls | ];
    cbn; intros H; try discriminate; auto.
  - rewrite orb_true_r in H. discriminate.
  - rewrite orb_false_r in H. apply negb_false_iff, String.eqb_eq in H.
    exfalso. apply (Hname name); auto.
Qed.

Lemma loop_turn_well_formed (args args' : Args) (token : string) (rest rest' : list string) :
  well_formed args -> loop_turn parseFloat args token rest = inr (args', rest') ->
  well_formed args'.
Proof.
  intros Hwf Hturn.
  destruct (loop_turn_cases _ _ _ _ _ Hturn)
    as [(_ & Hson & name & _ & Hname & ->)
       | [(_ & Hson & inner & outer & Hi & Ho & ->)
         | [(_ & _ & ->) | (_ & _ & _ & _ & Hfin & ->)]]];
    try destruct (scheme_or_nulls_false args Hwf Hson) as [Hsn Hnn];
    destruct Hwf as (Hp & Hs & Hn & Hx);
    unfold well_formed; cbn [args_pivotToSpindle args_scheme args_nulls args_listSchemes];
    repeat split; auto; intros; try congruence;
    try (match goal with H : Some _ = Some _ |- _ => inversion H; subst; clear H end;
         assumption);
    try (match goal with H : args_nulls _ = Some _ |- _ =>
           destruct (Hn _ _ H); assumption end);
    eauto.
Qed.

(** What [parseArgs] returns is well formed. *)
Lemma parse_result_well_formed (argv : list string) (args : Args) :
  parseArgs parseFloat argv = inr args -> well_formed args.
Proof.
  intros Hparse.
  apply (parse_loop_keeps well_formed loop_turn_well_formed argv (List.length argv)
           (mkArgs None None None false) args (Nat.le_refl _)); [ | exact Hparse ].
  unfold well_formed; cbn; repeat split; auto; intros; discriminate.
Qed.

(** X4: [parseArgs] returns a well-formed object: the numbers it stored are
    finite, the scheme name is not empty, and a scheme and a pair of null
    points are never both there. *)
Theorem parseArgs_result_is_well_formed (argv : list string) (args : Args) :
  parseArgs parseFloat argv = inr args -> well_formed args.
Proof. exact (parse_result_well_formed argv args). Qed.

End ParseFacts.

(** ** The command line: options and usage errors *)

Section OptionFacts.

Variable Math_asin : float -> float.
Variable parseFloat : string -> float.
Variable Number_toString : float -> string.
Variable toFixed : float -> nat -> string.

Lemma known_flag_false (token : string) :
  known_flag token = false ->
  String.eqb token "--scheme" = false /\ String.eqb token "--nulls" = false
  /\ String.eqb token "--list-schemes" = false.
Proof.
  unfold known_flag. intros H.
  apply orb_false_elim in H. destruct H as [H Hl].
  apply orb_false_elim in H. destruct H as [Hs Hn]. auto.
Qed.

(** The fields of the result, read off the tokens in option position. *)
Lemma parse_loop_fields (n : nat) :
  forall (args : Args) (rest : list string) (result : Args),
    (List.length rest <= n)%nat ->
    parse_loop parseFloat args rest = inr result ->
    args_listSchemes result
    = args_listSchemes args
      || existsb (fun t => String.eqb t "--list-schemes") (option_tokens rest)
    /\ given (args_scheme result)
       = given (args_scheme args)
         || existsb (fun t => String.eqb t "--scheme") (option_tokens rest)
    /\ given (args_nulls result)
       = given (args_nulls args)
         || existsb (fun t => String.eqb t "--nulls") (option_tokens rest)
    /\ given (args_pivotToSpindle result)
       = given (args_pivotToSpindle args) || existsb positional (option_tokens rest).
Proof.
  induction n as [ | n IH]; intros args rest result Hlen Hparse;
    (destruct rest as [ | token rest];
     [ cbn in Hparse; inversion Hparse; subst; cbn [option_tokens existsb];
       rewrite !orb_false_r; auto | ]).
  - cbn [List.length] in Hlen. lia.
  - rewrite parse_loop_turn in Hparse.
    destruct (loop_turn parseFloat args token rest) as [message | [args' rest']] eqn:Hturn;
      [ discriminate | ].
    destruct (loop_turn_layout _ _ _ _ _ _ Hturn) as [Hlayout Hshort].
    cbn [List.length] in Hlen.
    destruct (IH args' rest' result ltac:(lia) Hparse) as (Hl & Hs & Hn & Hp).
    rewrite Hlayout, Hl, Hs, Hn, Hp. cbn [existsb].
    destruct (loop_turn_cases _ _ _ _ _ _ Hturn)
      as [(-> & _ & name & _ & _ & ->)
         | [(-> & _ & inner & outer & _ & _ & ->)
           | [(-> & _ & ->) | (Hk & Hpos & _ & _ & _ & ->)]]];
      cbn [args_pivotToSpindle args_scheme args_nulls args_listSchemes given].
    + change (positional "--scheme") with false.
      change ("--scheme" =? "--list-schemes")%string with false.
      change ("--scheme" =? "--scheme")%string with true.
      change ("--scheme" =? "--nulls")%string with false.
      cbn [orb]. rewrite !orb_true_r. auto.
    + change (positional "--nulls") with false.
      change ("--nulls" =? "--list-schemes")%string with false.
      change ("--nulls" =? "--scheme")%string with false.
      change ("--nulls" =? "--nulls")%string with true.
      cbn [orb]. rewrite !orb_true_r. auto.
    + change (positional "--list-schemes") with false.
      change ("--list-schemes" =? "--list-schemes")%string with true.
      change ("--list-schemes" =? "--scheme")%string with false.
      change ("--list-schemes" =? "--nulls")%string with false.
      cbn [orb]. rewrite !orb_true_r. auto.
    + destruct (known_flag_false _ Hk) as (Hes & Hen & Hel).
      rewrite Hes, Hen, Hel, Hpos. cbn [orb]. rewrite !orb_true_r. auto.
Qed.

Lemma existsb_eqb (flag : string) (tokens : list string) :
  existsb (fun t => String.eqb t flag) tokens = true <-> In flag tokens.
Proof.
  rewrite existsb_exists. split.
  - intros (t & Hin & Heq). apply String.eqb_eq in Heq. subst. exact Hin.
  - intros Hin. exists flag. split; [ exact Hin | apply String.eqb_refl ].
Qed.

(** X5: the object [parseArgs] returns records which options were given:
    [listSchemes] is set exactly when [--list-schemes] stands in option
    position, [scheme] and [nulls] are there exactly when their flags do,
    and [pivotToSpindle] exactly when there is a positional argument. *)
Theorem parsed_fields_reflect_the_options (argv : list string) (args : Args) :
  parseArgs parseFloat argv = inr args ->
  (args_listSchemes args = true <-> In "--list-schemes" (option_tokens argv))
  /\ (args_scheme args <> None <-> In "--scheme" (option_tokens argv))
  /\ (args_nulls args <> None <-> In "--nulls" (option_tokens argv))
  /\ (args_pivotToSpindle args <> None
      <-> exists token, In token (option_tokens argv) /\ positional token = true).
Proof.
  intros Hparse.
  destruct (parse_loop_fields (List.length argv) _ argv args (Nat.le_refl _) Hparse)
    as (Hl & Hs & Hn & Hp).
  cbn [args_pivotToSpindle args_scheme args_nulls args_listSchemes given orb]
    in Hl, Hs, Hn, Hp.
  assert (Hgiven : forall (A : Type) (o : option A), o <> None <-> given o = true).
  { intros A [a | ]; cbn; split; congruence. }
  rewrite !Hgiven, Hl, Hs, Hn, Hp, !existsb_eqb, existsb_exists.
  repeat split; auto.
Qed.

(** A token in option position that starts with two dashes and is not one
    of the three flags makes the parse fail. *)
Lemma unknown_flag_fails (n : nat) :
  forall (args : Args) (rest : list string) (token : string),
    (List.length rest <= n)%nat ->
    In token (option_tokens rest) ->
    positional token = false -> known_flag token = false ->
    exists message, parse_loop parseFloat args rest = inl message.
Proof.
  induction n as [ | n IH]; intros args rest token Hlen Hin Hdash Hunknown;
    (destruct rest as [ | head rest]; [ destruct Hin | ]).
  - cbn [List.length] in Hlen. lia.
  - rewrite parse_loop_turn.
    destruct (loop_turn parseFloat args head rest) as [message | [args' rest']] eqn:Hturn;
      [ eexists; reflexivity | ].
    destruct (loop_turn_layout _ _ _ _ _ _ Hturn) as [Hlayout Hshort].
    cbn [List.length] in Hlen.
    rewrite Hlayout in Hin. destruct Hin as [-> | Hin].
    + exfalso.
      destruct (loop_turn_cases _ _ _ _ _ _ Hturn)
        as [(-> & _) | [(-> & _) | [(-> & _) | (_ & Hpos & _)]]];
        try discriminate. congruence.
    + apply (IH args' rest' token); try assumption. lia.
Qed.

Lemma read_unknown_flag_throws (args : Args) (rest : list string) (token : string) :
  positional token = false -> known_flag token = false ->
  reads parseFloat args rest token ->
  parse_loop parseFloat args rest = inl ("Unknown flag: " ++ token).
Proof.
  intros Hdash Hunknown Hreads.
  induction Hreads as [args token rest | args token rest args' rest' t Hturn Hreads IH].
  - destruct (known_flag_false _ Hunknown) as (Hes & Hen & Hel).
    cbn [parse_loop]. unfold loop_body. rewrite Hes, Hen, Hel.
    unfold positional in Hdash. apply negb_false_iff in Hdash. rewrite Hdash.
    reflexivity.
  - rewrite parse_loop_turn, Hturn. apply IH; assumption.
Qed.

(** X7: an unknown flag is a usage error: when a token in option position
    starts with two dashes and is not [--scheme], [--nulls] or
    [--list-schemes], [parseArgs] throws, and [main] prints the error and
    exits with code 1 without any computation; when the loop gets to the
    token, the error names it. *)
Theorem unknown_flag_is_a_usage_error (argv : list string) (token : string) :
  In token (option_tokens argv) ->
  positional token = false -> known_flag token = false ->
  exists message,
    parseArgs parseFloat argv = inl message
    /\ main Math_asin parseFloat Number_toString toFixed argv
       = [ Stderr ("error: " ++ message); Exit 1 ]
    /\ (reads parseFloat (mkArgs None None None false) argv token ->
        message = "Unknown flag: " ++ token).
Proof.
  intros Hin Hdash Hunknown.
  destruct (unknown_flag_fails (List.length argv) (mkArgs None None None false) argv token
              (Nat.le_refl _) Hin Hdash Hunknown) as [message Hthrow].
  exists message. split; [ exact Hthrow | split ].
  - unfold main, parseArgs. rewrite Hthrow. reflexivity.
  - intros Hreads.
    pose proof (read_unknown_flag_throws _ _ _ Hdash Hunknown Hreads) as Hmsg.
    unfold parseArgs in Hthrow. rewrite Hthrow in Hmsg. inversion Hmsg. reflexivity.
Qed.

(** Once the distance is there, another positional argument makes the
    parse fail. *)
Lemma later_positional_fails (n : nat) :
  forall (args : Args) (rest : list string) (token : string),
    (List.length rest <= n)%nat ->
    args_pivotToSpindle args <> None ->
    In token (option_tokens rest) -> positional token = true ->
    exists message, parse_loop parseFloat args rest = inl message.
Proof.
  induction n as [ | n IH]; intros args rest token Hlen Hset Hin Hpos;
    (destruct rest as [ | head rest]; [ destruct Hin | ]).
  - cbn [List.length] in Hlen. lia.
  - rewrite parse_loop_turn.
    destruct (loop_turn parseFloat args head rest) as [message | [args' rest']] eqn:Hturn;
      [ eexists; reflexivity | ].
    destruct (loop_turn_layout _ _ _ _ _ _ Hturn) as [Hlayout Hshort].
    cbn [List.length] in Hlen.
    rewrite Hlayout in Hin.
    destruct (loop_turn_cases _ _ _ _ _ _ Hturn)
      as [(-> & _ & name & _ & _ & ->)
         | [(-> & _ & inner & outer & _ & _ & ->)
           | [(-> & _ & ->) | (_ & _ & _ & Hnone & _)]]];
      try contradiction;
      (destruct Hin as [<- | Hin]; [ discriminate | ]);
      apply (IH _ rest' token); try assumption; try lia.
Qed.

Lemma two_positionals_fail (n : nat) :
  forall (args : Args) (rest : list string),
    (List.length rest <= n)%nat ->
    (2 <= List.length (filter positional (option_tokens rest)))%nat ->
    exists message, parse_loop parseFloat args rest = inl message.
Proof.
  induction n as [ | n IH]; intros args rest Hlen Htwo;
    (destruct rest as [ | head rest]; [ cbn in Htwo; lia | ]).
  - cbn [List.length] in Hlen. lia.
  - rewrite parse_loop_turn.
    destruct (loop_turn parseFloat args head rest) as [message | [args' rest']] eqn:Hturn;
      [ eexists; reflexivity | ].
    destruct (loop_turn_layout _ _ _ _ _ _ Hturn) as [Hlayout Hshort].
    cbn [List.length] in Hlen.
    rewrite Hlayout in Htwo. cbn [filter] in Htwo.
    destruct (positional head) eqn:Hhead.
    + cbn [List.length] in Htwo.
      destruct (filter positional (option_tokens rest')) as [ | token others] eqn:Hfilter;
        [ cbn in Htwo; lia | ].
      assert (Hin : In token (filter positional (option_tokens rest')))
        by (rewrite Hfilter; left; reflexivity).
      apply filter_In in Hin. destruct Hin as [Hin Hpos].
      apply (later_positional_fails (List.length rest') args' rest' token);
        try assumption; try lia.
      destruct (loop_turn_cases _ _ _ _ _ _ Hturn)
        as [(-> & _) | [(-> & _) | [(-> & _) | (_ & _ & _ & _ & _ & ->)]]];
        discriminate.
    + apply (IH args' rest'); [ lia | exact Htwo ].
Qed.

(** X8: the distance may be given only once: with two positional arguments
    [parseArgs] throws, and [main] prints the error and exits with code
    1. *)
Theorem second_positional_is_a_usage_error (argv : list string) :
  (2 <= List.length (filter positional (option_tokens argv)))%nat ->
  exists message,
    parseArgs parseFloat argv = inl message
    /\ main Math_asin parseFloat Number_toString toFixed argv
       = [ Stderr ("error: " ++ message); Exit 1 ].
Proof.
  intros Htwo.
  destruct (two_positionals_fail (List.length argv) (mkArgs None None None false) argv
              (Nat.le_refl _) Htwo) as [message Hthrow].
  exists message. split; [ exact Hthrow | ].
  unfold main, parseArgs. rewrite Hthrow. reflexivity.
Qed.

End OptionFacts.

Section ReadFacts.

Variable parseFloat : string -> float.

(** The loop follows the layout of the command line. *)
Lemma reads_option_tokens (n : nat) :
  forall (args : Args) (rest : list string) (result : Args) (token : string),
    (List.length rest <= n)%nat ->
    parse_loop parseFloat args rest = inr result ->
    reads parseFloat args rest token <-> In token (option_tokens rest).
Proof.
  induction n as [ | n IH]; intros args rest result token Hlen Hparse;
    (destruct rest as [ | head rest];
     [ split; [ intros H; inversion H | intros [] ] | ]).
  - cbn [List.length] in Hlen. lia.
  - rewrite parse_loop_turn in Hparse.
    destruct (loop_turn parseFloat args head rest) as [message | [args' rest']] eqn:Hturn;
      [ discriminate | ].
    destruct (loop_turn_layout _ _ _ _ _ _ Hturn) as [Hlayout Hshort].
    cbn [List.length] in Hlen.
    rewrite Hlayout. cbn [In].
    rewrite <- (IH args' rest' result token ltac:(lia) Hparse).
    split.
    + intros H. inversion H; subst; [ left; reflexivity | ].
      match goal with H' : loop_turn _ _ _ _ = inr _ |- _ =>
        rewrite Hturn in H'; inversion H'; subst end.
      right. assumption.
    + intros [<- | H]; [ apply reads_now | eapply reads_later; eassumption ].
Qed.

(** X6: on a command line that parses, the tokens the loop dispatches on
    are exactly the tokens in option position. *)
Theorem parse_reads_the_option_tokens (argv : list string) (args : Args) (token : string) :
  parseArgs parseFloat argv = inr args ->
  reads parseFloat (mkArgs None None None false) argv token
  <-> In token (option_tokens argv).
Proof.
  intros Hparse.
  apply (reads_option_tokens (List.length argv) _ argv args token (Nat.le_refl _) Hparse).
Qed.

End ReadFacts.

(** ** The command line: how [main] ends *)

Section MainFacts.

Variable Math_asin : float -> float.
Variable parseFloat : string -> float.
Variable Number_toString : float -> string.
Variable toFixed : float -> nat -> string.

(** X9: how a run ends: with one line on standard error and exit code 1,
    before or after the one call of [calculateGeometry]; with the report on
    standard output and exit code 0; or with the list of the schemes and
    exit code 0. *)
Theorem main_outcomes (argv : list string) :
  (exists message, main Math_asin parseFloat Number_toString toFixed argv = [ Stderr ("error: " ++ message); Exit 1 ])
  \/ (exists p i o message,
        calculateGeometry Math_asin p i o = inl message
        /\ main Math_asin parseFloat Number_toString toFixed argv = [ Invoke p i o; Stderr ("error: " ++ message); Exit 1 ])
  \/ (exists p i o geometry,
        calculateGeometry Math_asin p i o = inr geometry
        /\ main Math_asin parseFloat Number_toString toFixed argv
           = [ Invoke p i o; Stdout (formatGeometry toFixed geometry); Exit 0 ])
  \/ main Math_asin parseFloat Number_toString toFixed argv
     = (map (fun entry => Stdout (scheme_line Number_toString entry)) SCHEMES
        ++ [ Exit 0 ])%list.
Proof.
  assert (Hcompute : forall p i o,
    (exists message,
        calculateGeometry Math_asin p i o = inl message
        /\ Invoke p i o ::
           match calculateGeometry Math_asin p i o with
           | inr geometry => [ Stdout (formatGeometry toFixed geometry); Exit 0 ]
           | inl message => [ Stderr ("error: " ++ message); Exit 1 ]
           end = [ Invoke p i o; Stderr ("error: " ++ message); Exit 1 ])
    \/ (exists geometry,
        calculateGeometry Math_asin p i o = inr geometry
        /\ Invoke p i o ::
           match calculateGeometry Math_asin p i o with
           | inr geometry => [ Stdout (formatGeometry toFixed geometry); Exit 0 ]
           | inl message => [ Stderr ("error: " ++ message); Exit 1 ]
           end = [ Invoke p i o; Stdout (formatGeometry toFixed geometry); Exit 0 ])).
  { intros p i o. destruct (calculateGeometry Math_asin p i o) as [message | geometry];
      [ left | right ]; eexists; split; reflexivity. }
  unfold main.
  destruct (parseArgs parseFloat argv) as [message | args];
    [ left; exists message; reflexivity | ].
  destruct (args_listSchemes args); [ right; right; right; reflexivity | ].
  destruct (args_pivotToSpindle args) as [p | ];
    [ | left; exists "pivot-to-spindle distance is required unless --list-schemes is used";
        reflexivity ].
  destruct (args_nulls args) as [[i o] | ].
  { right. destruct (Hcompute p i o) as [(m & Hm & ->) | (g & Hg & ->)];
      [ left | right ]; eauto 8. }
  destruct (args_scheme args) as [name | ];
    [ | left; exists "choose --scheme or provide --nulls"; reflexivity ].
  destruct (String.eqb name EmptyString);
    [ left; exists "choose --scheme or provide --nulls"; reflexivity | ].
  destruct (lookup_scheme name SCHEMES) as [[i o] | ];
    [ | left; exists ("unknown scheme '" ++ name ++ "'"); reflexivity ].
  right. destruct (Hcompute p i o) as [(m & Hm & ->) | (g & Hg & ->)];
    [ left | right ]; eauto 8.
Qed.

(** What a turn that goes on has taken off the command line, and what it
    stored. *)
Lemma loop_turn_group (args args' : Args) (token : string) (rest rest' : list string) :
  loop_turn parseFloat args token rest = inr (args', rest') ->
  exists group,
    option_groups (token :: rest) = group :: option_groups rest'
    /\ ((group = [ token ]%list /\ positional token = true
         /\ args' = mkArgs (Some (parseFloat token)) (args_scheme args)
                      (args_nulls args) (args_listSchemes args))
        \/ (exists name,
              group = [ "--scheme"; name ]
              /\ args' = mkArgs (args_pivotToSpindle args) (Some name)
                           (args_nulls args) (args_listSchemes args))
        \/ (List.hd_error group = Some "--nulls"
            /\ args' = mkArgs (args_pivotToSpindle args) (args_scheme args)
                         (Some (parseFloat_shifted parseFloat (List.nth_error group 1),
                                parseFloat_shifted parseFloat (List.nth_error group 2)))
                         (args_listSchemes args))
        \/ args' = mkArgs (args_pivotToSpindle args) (args_scheme args)
                     (args_nulls args) true).
Proof.
  unfold loop_turn, loop_body, positional. cbn [option_groups].
  destruct (String.eqb_spec token "--scheme") as [-> | Hs].
  { destruct (scheme_or_nulls args); [ discriminate | ].
    destruct rest as [ | name rest1]; [ discriminate | ].
    destruct (String.eqb name EmptyString); [ discriminate | ].
    intros H; inversion H; subst. eexists; split; [ reflexivity | ].
    right; left. eauto. }
  destruct (String.eqb_spec token "--nulls") as [-> | Hn].
  { destruct (scheme_or_nulls args); [ discriminate | ].
    intros H.
    destruct rest as [ | a [ | b rest2]];
      match type of H with
      | context [ if ?c then _ else _ ] => destruct c
      end;
      try discriminate; inversion H; subst;
      (eexists; split; [ reflexivity | ]); right; right; left; split; reflexivity. }
  destruct (String.eqb token "--list-schemes").
  { intros H; inversion H; subst. eexists; split; [ reflexivity | ]. auto. }
  destruct (String.prefix "--" token); [ discriminate | ].
  destruct (args_pivotToSpindle args); [ discriminate | ].
  destruct (negb (isFinite (parseFloat token))); [ discriminate | ].
  intros H; inversion H; subst. eexists; split; [ reflexivity | ]. left. auto.
Qed.

(** Where the fields of the result come from: from the object the loop
    was entered with, or from an option of the command line. *)
Lemma parse_loop_sources (n : nat) :
  forall (args : Args) (rest : list string) (result : Args),
    (List.length rest <= n)%nat ->
    parse_loop parseFloat args rest = inr result ->
    (forall p, args_pivotToSpindle result = Some p ->
       args_pivotToSpindle args = Some p
       \/ exists token, In [ token ]%list (option_groups rest)
                        /\ positional token = true /\ p = parseFloat token)
    /\ (forall name, args_scheme result = Some name ->
          args_scheme args = Some name
          \/ In [ "--scheme"; name ] (option_groups rest))
    /\ (forall nulls, args_nulls result = Some nulls ->
          args_nulls args = Some nulls
          \/ exists group,
               In group (option_groups rest)
               /\ List.hd_error group = Some "--nulls"
               /\ nulls = (parseFloat_shifted parseFloat (List.nth_error group 1),
                           parseFloat_shifted parseFloat (List.nth_error group 2))).
Proof.
  induction n as [ | n IH]; intros args rest result Hlen Hparse;
    (destruct rest as [ | token rest];
     [ cbn in Hparse; inversion Hparse; subst; auto | ]).
  - cbn [List.length] in Hlen. lia.
  - rewrite parse_loop_turn in Hparse.
    destruct (loop_turn parseFloat args token rest) as [message | [args' rest']] eqn:Hturn;
      [ discriminate | ].
    destruct (loop_turn_layout _ _ _ _ _ _ Hturn) as [_ Hshort].
    cbn [List.length] in Hlen.
    destruct (IH args' rest' result ltac:(lia) Hparse) as (Hp & Hs & Hn).
    destruct (loop_turn_group _ _ _ _ _ Hturn) as (group & -> & Hgroup).
    cbn [In].
    destruct Hgroup as [(-> & Hpos & ->) | [(name' & -> & ->) | [(Hhd & ->) | ->]]];
      cbn [args_pivotToSpindle args_scheme args_nulls args_listSchemes] in Hp, Hs, Hn;
      (split; [ intros p Hres; destruct (Hp p Hres) as [Hold | (t & Hin & Ht)]
              | split;
                [ intros name Hres; destruct (Hs name Hres) as [Hold | Hin]
                | intros nulls Hres; destruct (Hn nulls Hres) as [Hold | (g & Hin & Hg)] ] ]);
      try (inversion Hold; subst); eauto 8.
Qed.

Lemma lookup_scheme_In (name : string) (table : list (string * (float * float)))
    (nulls : float * float) :
  lookup_scheme name table = Some nulls -> In (name, nulls) table.
Proof.
  induction table as [ | [k v] table IH]; cbn [lookup_scheme In]; [ discriminate | ].
  destruct (String.eqb_spec k name) as [-> | Hne].
  - intros H; inversion H. left. reflexivity.
  - intros H. right. apply IH, H.
Qed.

(** X10: [main] calls [calculateGeometry] on finite numbers only, and on
    the numbers of the command line: the distance is [parseFloat] of a
    positional argument, and the null points are either [parseFloat] of
    the two values that follow a [--nulls] flag, inner first, or the entry
    of [SCHEMES] under the name that follows a [--scheme] flag. *)
Theorem main_computes_on_finite_numbers (argv : list string) (p i o : float) :
  In (Invoke p i o) (main Math_asin parseFloat Number_toString toFixed argv) ->
  (isFinite p = true /\ isFinite i = true /\ isFinite o = true)
  /\ (exists token,
        In [ token ]%list (option_groups argv)
        /\ positional token = true /\ p = parseFloat token)
  /\ ((exists group,
         In group (option_groups argv)
         /\ List.hd_error group = Some "--nulls"
         /\ i = parseFloat_shifted parseFloat (List.nth_error group 1)
         /\ o = parseFloat_shifted parseFloat (List.nth_error group 2))
      \/ (exists name,
            In [ "--scheme"; name ] (option_groups argv)
            /\ In (name, (i, o)) SCHEMES)).
Proof.
  unfold main.
  destruct (parseArgs parseFloat argv) as [message | args] eqn:Hparse.
  { intros [H | [H | []]]; discriminate. }
  destruct (parse_result_well_formed parseFloat argv args Hparse)
    as (Hfp & _ & Hfn & _).
  destruct (parse_loop_sources (List.length argv) _ argv args (Nat.le_refl _) Hparse)
    as (Hp & Hs & Hn).
  cbn [args_pivotToSpindle args_scheme args_nulls] in Hp, Hs, Hn.
  destruct (args_listSchemes args).
  { cbn. intros H. repeat (destruct H as [H | H]; [ discriminate | ]). destruct H. }
  destruct (args_pivotToSpindle args) as [p' | ];
    [ | intros [H | [H | []]]; discriminate ].
  specialize (Hfp p' eq_refl).
  destruct (Hp p' eq_refl) as [Hold | Hpivot]; [ discriminate | ].
  assert (Hcompute : forall i' o',
    In (Invoke p i o)
       (Invoke p' i' o' ::
        match calculateGeometry Math_asin p' i' o' with
        | inr geometry => [ Stdout (formatGeometry toFixed geometry); Exit 0 ]
        | inl message => [ Stderr ("error: " ++ message); Exit 1 ]
        end) ->
    p = p' /\ i = i' /\ o = o').
  { intros i' o' [H | H].
    - inversion H; subst. auto.
    - destruct (calculateGeometry Math_asin p' i' o');
        destruct H as [H | [H | []]]; discriminate. }
  destruct (args_nulls args) as [[i' o'] | ].
  { intros Hin. destruct (Hcompute i' o' Hin) as (-> & -> & ->).
    destruct (Hfn i' o' eq_refl) as [Hfi Hfo].
    destruct (Hn (i', o') eq_refl) as [Hold | (group & Hg & Hhd & Hval)];
      [ discriminate | ].
    inversion Hval; subst.
    split; [ auto | split; [ exact Hpivot | left; eauto 8 ] ]. }
  destruct (args_scheme args) as [name | ];
    [ | intros [H | [H | []]]; discriminate ].
  destruct (String.eqb name EmptyString);
    [ intros [H | [H | []]]; discriminate | ].
  destruct (lookup_scheme name SCHEMES) as [[i' o'] | ] eqn:Hlookup;
    [ | intros [H | [H | []]]; discriminate ].
  intros Hin. destruct (Hcompute i' o' Hin) as (-> & -> & ->).
  destruct (scheme_table_facts name i' o' Hlookup) as (_ & (Hfi & Hfo) & _).
  destruct (Hs name eq_refl) as [Hold | Hgroup]; [ discriminate | ].
  split; [ auto | split; [ exact Hpivot | right ] ].
  exists name. split; [ exact Hgroup | apply lookup_scheme_In, Hlookup ].
Qed.

(** X11: without a positional argument and without [--list-schemes], a command
    line that parses ends with the error of the missing distance. *)
Theorem missing_distance_is_an_error (argv : list string) (args : Args) :
  parseArgs parseFloat argv = inr args ->
  ~ In "--list-schemes" (option_tokens argv) ->
  (forall token, In token (option_tokens argv) -> positional token = false) ->
  main Math_asin parseFloat Number_toString toFixed argv
  = [ Stderr "error: pivot-to-spindle distance is required unless --list-schemes is used";
      Exit 1 ].
Proof.
  intros Hparse Hlist Hpos.
  destruct (parse_loop_fields parseFloat (List.length argv) _ argv args (Nat.le_refl _) Hparse)
    as (Hl & _ & _ & Hp).
  cbn [args_pivotToSpindle args_listSchemes given orb] in Hl, Hp.
  assert (Hl' : args_listSchemes args = false).
  { rewrite Hl. apply not_true_is_false. rewrite existsb_eqb. exact Hlist. }
  assert (Hp' : args_pivotToSpindle args = None).
  { destruct (args_pivotToSpindle args); [ | reflexivity ].
    cbn in Hp. symmetry in Hp. apply existsb_exists in Hp.
    destruct Hp as (token & Hin & Htoken). rewrite (Hpos token Hin) in Htoken.
    discriminate. }
  unfold main. rewrite Hparse, Hl', Hp'. reflexivity.
Qed.

(** X12: with none of the three flags, a command line that is not empty and
    parses (it holds the distance alone) ends with the error that asks for
    [--scheme] or [--nulls]. *)
Theorem missing_null_points_is_an_error (argv : list string) (args : Args) :
  parseArgs parseFloat argv = inr args ->
  ~ In "--list-schemes" (option_tokens argv) ->
  ~ In "--scheme" (option_tokens argv) ->
  ~ In "--nulls" (option_tokens argv) ->
  argv <> [] ->
  main Math_asin parseFloat Number_toString toFixed argv = [ Stderr "error: choose --scheme or provide --nulls"; Exit 1 ].
Proof.
  intros Hparse Hlist Hscheme Hnulls Hargv.
  assert (Hin : exists token, In token (option_tokens argv)).
  { destruct argv as [ | token rest]; [ contradiction | ].
    exists token. cbn [option_tokens]. left. reflexivity. }
  destruct Hin as [token Hin].
  destruct (parse_loop_fields parseFloat (List.length argv) _ argv args (Nat.le_refl _) Hparse)
    as (Hl & Hs & Hn & Hp).
  cbn [args_pivotToSpindle args_scheme args_nulls args_listSchemes given orb]
    in Hl, Hs, Hn, Hp.
  assert (Hl' : args_listSchemes args = false).
  { rewrite Hl. apply not_true_is_false. rewrite existsb_eqb. exact Hlist. }
  assert (Hs' : args_scheme args = None).
  { destruct (args_scheme args); [ | reflexivity ].
    cbn in Hs. symmetry in Hs. apply existsb_eqb in Hs. contradiction. }
  assert (Hn' : args_nulls args = None).
  { destruct (args_nulls args); [ | reflexivity ].
    cbn in Hn. symmetry in Hn. apply existsb_eqb in Hn. contradiction. }
  assert (Hp' : exists p, args_pivotToSpindle args = Some p).
  { destruct (args_pivotToSpindle args) as [p | ]; [ eauto | ].
    exfalso. cbn in Hp. symmetry in Hp.
    assert (Hall : forall t, In t (option_tokens argv) -> positional t = false).
    { intros t Ht. destruct (positional t) eqn:Hpt; [ | reflexivity ].
      assert (existsb positional (option_tokens argv) = true)
        by (apply existsb_exists; eauto).
      congruence. }
    (* a token that is no positional argument is a flag or an unknown flag *)
    destruct (known_flag token) eqn:Hk.
    - unfold known_flag in Hk.
      apply orb_true_iff in Hk. destruct Hk as [Hk | Hk];
        [ apply orb_true_iff in Hk; destruct Hk as [Hk | Hk] | ];
        apply String.eqb_eq in Hk; subst; contradiction.
    - destruct (unknown_flag_fails parseFloat (List.length argv)
                  (mkArgs None None None false) argv token (Nat.le_refl _) Hin
                  (Hall token Hin) Hk) as [message Hthrow].
      unfold parseArgs in Hparse. congruence. }
  destruct Hp' as [p Hp'].
  unfold main. rewrite Hparse, Hl', Hp', Hn', Hs'. reflexivity.
Qed.

(** X13: a scheme name that is not in the table ends the run with the error
    that names it, before any computation. *)
Theorem unknown_scheme_is_an_error (argv : list string) (args : Args)
    (p : float) (name : string) :
  parseArgs parseFloat argv = inr args ->
  args_listSchemes args = false ->
  args_pivotToSpindle args = Some p ->
  args_scheme args = Some name ->
  lookup_scheme name SCHEMES = None ->
  main Math_asin parseFloat Number_toString toFixed argv = [ Stderr ("error: unknown scheme '" ++ name ++ "'"); Exit 1 ].
Proof.
  intros Hparse Hl Hp Hs Hlookup.
  destruct (parse_result_well_formed parseFloat argv args Hparse)
    as (_ & Hname & _ & [Hx | Hx]); [ congruence | ].
  unfold main. rewrite Hparse, Hl, Hp, Hx, Hs, Hlookup.
  destruct (String.eqb_spec name EmptyString) as [Hempty | _]; [ | reflexivity ].
  exfalso. apply (Hname name Hs Hempty).
Qed.

(** X14: with a scheme of the table and a distance of at least 120.9 mm the
    run prints the report of the geometry and ends with exit code 0. *)
Theorem scheme_run_prints_the_report (argv : list string) (args : Args)
    (p inner outer : float) (name : string) :
  parseArgs parseFloat argv = inr args ->
  args_listSchemes args = false ->
  args_pivotToSpindle args = Some p ->
  args_scheme args = Some name ->
  lookup_scheme name SCHEMES = Some (inner, outer) ->
  valid p = true -> (p >= n_120_9)%js = true ->
  exists geometry,
    calculateGeometry Math_asin p inner outer = inr geometry
    /\ main Math_asin parseFloat Number_toString toFixed argv
       = [ Invoke p inner outer; Stdout (formatGeometry toFixed geometry); Exit 0 ].
Proof.
  intros Hparse Hl Hp Hs Hlookup Hvp Hbig.
  destruct (parse_result_well_formed parseFloat argv args Hparse)
    as (_ & Hname & _ & [Hx | Hx]); [ congruence | ].
  destruct (scheme_table_facts name inner outer Hlookup)
    as ((Hvi & Hvo) & _ & Hi & Hio & Hlin).
  destruct (le_val n_120_9 p eq_refl Hvp Hbig) as (_ & Hnp & Hbig').
  assert (H563 : 2 ^ 563 <= val p).
  { eapply Z.le_trans; [ | exact Hbig' ]. apply Z.leb_le. vm_compute. reflexivity. }
  assert (Hlp : val (linearOffset_of inner outer) <= val p) by lia.
  pose proof (long_arm_passes Math_asin p inner outer Hvp Hvi Hvo Hi Hio H563 Hnp Hlp)
    as Hcalc.
  eexists. split; [ exact Hcalc | ].
  unfold main. rewrite Hparse, Hl, Hp, Hx, Hs, Hlookup.
  destruct (String.eqb_spec name EmptyString) as [Hempty | _];
    [ exfalso; apply (Hname name Hs Hempty) | ].
  rewrite Hcalc. reflexivity.
Qed.

End MainFacts.

(** ** The report and the table *)

Lemma newlines_app (a b : string) :
  newlines (a ++ b) = (newlines a + newlines b)%nat.
Proof.
  induction a as [ | c a IH]; cbn [newlines append]; [ reflexivity | ].
  rewrite IH. lia.
Qed.

(** X15: the report [formatGeometry] builds has six lines, as long as
    [toFixed] prints no line feed. *)
Theorem formatGeometry_has_six_lines
    (toFixed : float -> nat -> string) (values : Geometry) :
  (forall n digits, newlines (toFixed n digits) = 0%nat) ->
  newlines (formatGeometry toFixed values) = 5%nat.
Proof.
  intros Hfixed. unfold formatGeometry, join_lines.
  rewrite !newlines_app, !Hfixed. reflexivity.
Qed.

(** X16: [lookup_scheme] finds a name exactly when the table has it, and
    then gives null points the table lists under that name. *)
Theorem lookup_scheme_finds_the_entries
    (name : string) (table : list (string * (float * float))) :
  (lookup_scheme name table = None <-> ~ In name (map fst table))
  /\ (forall nulls, lookup_scheme name table = Some nulls -> In (name, nulls) table).
Proof.
  induction table as [ | [k v] table [IHnone IHsome]]; cbn [lookup_scheme map fst In].
  - split; [ tauto | discriminate ].
  - destruct (String.eqb_spec k name) as [-> | Hne]; split.
    + split; [ discriminate | intros H; exfalso; apply H; left; reflexivity ].
    + intros nulls H. inversion H. left. reflexivity.
    + rewrite IHnone. tauto.
    + intros nulls H. right. apply IHsome, H.
Qed.

(** ** Examples *)

Lemma parseArgs_result_is_well_formed_witness :
  well_formed (mkArgs (Some n_212) None (Some (n_212, n_212)) false).
Proof.
  apply (parseArgs_result_is_well_formed parseFloat_212
           [ "212"; "--nulls"; "66"; "120.9" ]).
  reflexivity.
Defined.

Lemma parsed_fields_reflect_the_options_witness :
  In "--list-schemes" (option_tokens [ "--scheme"; "Stevenson"; "--list-schemes" ])
  /\ ~ In "--nulls" (option_tokens [ "--scheme"; "Stevenson"; "--list-schemes" ]).
Proof.
  destruct (parsed_fields_reflect_the_options parseFloat_NaN
              [ "--scheme"; "Stevenson"; "--list-schemes" ]
              (mkArgs None (Some "Stevenson") None true) eq_refl)
    as (Hl & _ & Hn & _).
  split.
  - apply Hl. reflexivity.
  - intros Hin. apply Hn in Hin. apply Hin. reflexivity.
Defined.

Lemma unknown_flag_is_a_usage_error_witness :
  exists message,
    parseArgs parseFloat_NaN [ "--list-schemes"; "--bogus" ] = inl message
    /\ main asin_identity parseFloat_NaN toString_empty toFixed_empty
         [ "--list-schemes"; "--bogus" ]
       = [ Stderr ("error: " ++ message); Exit 1 ]
    /\ (reads parseFloat_NaN (mkArgs None None None false)
          [ "--list-schemes"; "--bogus" ] "--bogus" ->
        message = "Unknown flag: --bogus").
Proof.
  apply (unknown_flag_is_a_usage_error asin_identity parseFloat_NaN toString_empty
           toFixed_empty [ "--list-schemes"; "--bogus" ] "--bogus").
  - right; left; reflexivity.
  - reflexivity.
  - reflexivity.
Defined.

Lemma second_positional_is_a_usage_error_witness :
  exists message,
    parseArgs parseFloat_212 [ "212"; "230" ] = inl message
    /\ main asin_identity parseFloat_212 toString_empty toFixed_empty [ "212"; "230" ]
       = [ Stderr ("error: " ++ message); Exit 1 ].
Proof.
  apply (second_positional_is_a_usage_error asin_identity parseFloat_212 toString_empty
           toFixed_empty [ "212"; "230" ]).
  cbn. lia.
Defined.

Lemma main_computes_on_finite_numbers_witness :
  (isFinite n_212 = true /\ isFinite n_66 = true /\ isFinite n_120_9 = true)
  /\ (exists token,
        In [ token ]%list (option_groups [ "212"; "--nulls"; "66"; "120.9" ])
        /\ positional token = true /\ n_212 = parseFloat_example token)
  /\ ((exists group,
         In group (option_groups [ "212"; "--nulls"; "66"; "120.9" ])
         /\ List.hd_error group = Some "--nulls"
         /\ n_66 = parseFloat_shifted parseFloat_example (List.nth_error group 1)
         /\ n_120_9 = parseFloat_shifted parseFloat_example (List.nth_error group 2))
      \/ (exists name,
            In [ "--scheme"; name ] (option_groups [ "212"; "--nulls"; "66"; "120.9" ])
            /\ In (name, (n_66, n_120_9)) SCHEMES)).
Proof.
  apply (main_computes_on_finite_numbers asin_identity parseFloat_example toString_empty
           toFixed_empty [ "212"; "--nulls"; "66"; "120.9" ]).
  vm_compute. left. reflexivity.
Defined.

Lemma missing_distance_is_an_error_witness :
  main asin_identity parseFloat_NaN toString_empty toFixed_empty [ "--scheme"; "Stevenson" ]
  = [ Stderr "error: pivot-to-spindle distance is required unless --list-schemes is used";
      Exit 1 ].
Proof.
  apply (missing_distance_is_an_error asin_identity parseFloat_NaN toString_empty
           toFixed_empty [ "--scheme"; "Stevenson" ]
           (mkArgs None (Some "Stevenson") None false)).
  - reflexivity.
  - cbn. intros [H | []]. discriminate.
  - cbn. intros token [<- | []]. reflexivity.
Defined.

Lemma missing_null_points_is_an_error_witness :
  main asin_identity parseFloat_212 toString_empty toFixed_empty [ "212" ]
  = [ Stderr "error: choose --scheme or provide --nulls"; Exit 1 ].
Proof.
  apply (missing_null_points_is_an_error asin_identity parseFloat_212 toString_empty
           toFixed_empty [ "212" ] (mkArgs (Some n_212) None None false)).
  - reflexivity.
  - cbn. intros [H | []]. discriminate.
  - cbn. intros [H | []]. discriminate.
  - cbn. intros [H | []]. discriminate.
  - discriminate.
Defined.

Lemma unknown_scheme_is_an_error_witness :
  main asin_identity parseFloat_212 toString_empty toFixed_empty
    [ "212"; "--scheme"; "Nobody" ]
  = [ Stderr "error: unknown scheme 'Nobody'"; Exit 1 ].
Proof.
  apply (unknown_scheme_is_an_error asin_identity parseFloat_212 toString_empty
           toFixed_empty [ "212"; "--scheme"; "Nobody" ]
           (mkArgs (Some n_212) (Some "Nobody") None false) n_212 "Nobody");
    reflexivity.
Defined.

Lemma scheme_run_prints_the_report_witness :
  exists geometry,
    calculateGeometry asin_identity n_212 n_60 n_117 = inr geometry
    /\ main asin_identity parseFloat_212 toString_empty toFixed_empty
         [ "212"; "--scheme"; "Stevenson" ]
       = [ Invoke n_212 n_60 n_117; Stdout (formatGeometry toFixed_empty geometry); Exit 0 ].
Proof.
  apply (scheme_run_prints_the_report asin_identity parseFloat_212 toString_empty
           toFixed_empty [ "212"; "--scheme"; "Stevenson" ]
           (mkArgs (Some n_212) (Some "Stevenson") None false) n_212 n_60 n_117 "Stevenson");
    reflexivity.
Defined.

Lemma formatGeometry_has_six_lines_witness :
  newlines (formatGeometry toFixed_empty
              (mkGeometry n_212 n_66 n_120_9 n_212 n_90 n_1 n_90)) = 5%nat.
Proof.
  apply (formatGeometry_has_six_lines toFixed_empty). reflexivity.
Defined.

Lemma parse_reads_the_option_tokens_witness :
  reads parseFloat_NaN (mkArgs None None None false)
    [ "--scheme"; "--nulls"; "--list-schemes" ] "--list-schemes"
  <-> In "--list-schemes" (option_tokens [ "--scheme"; "--nulls"; "--list-schemes" ]).
Proof.
  apply (parse_reads_the_option_tokens parseFloat_NaN
           [ "--scheme"; "--nulls"; "--list-schemes" ]
           (mkArgs None (Some "--nulls") None true)).
  reflexivity.
Defined.
